(** * automatic-memory (go-ver): the gateway's core, embedded and verified

    A shallow embedding of the Go sources of the DeepSeek gateway:
    the DeepSeekHashV1 primitive and the proof-of-work solver
    ([internal/pow]), the answer cache, the account pool
    ([internal/accounts]), the SSE chunk parser ([internal/services]),
    request authentication ([internal/auth], [internal/handlers]) and the
    cloud-sync manager ([internal/cloudsync]).

    Conventions.
    - A Go [uint64]/[int64]/[int] is a [Z]; every operation that can leave
      the range is followed by its wrap-around ([u64], [i64]).
    - A Go [string] is a [string] (a sequence of bytes), a [[]byte] is a
      [list byte].
    - A Go [map[string]T] is a [gmap string T]; a missing key reads as the
      zero value, as in Go.
    - [time.Now().Unix()] and [rand.Intn] are inputs of the function that
      reads them. *)

From Stdlib Require Import ZArith List Strings.String Strings.Ascii Strings.Byte Lia.
From Stdlib Require Import DecimalString.
From stdpp Require Import base option list gmap strings.
Import ListNotations.

Local Open Scope Z_scope.

(** ** Machine integers *)

Definition u64 (z : Z) : Z := z mod 2 ^ 64.

Definition i64 (z : Z) : Z := (z + 2 ^ 63) mod 2 ^ 64 - 2 ^ 63.

Definition maxInt64 : Z := 2 ^ 63 - 1.
Definition minInt64 : Z := - 2 ^ 63.

(** [uint64(b)] for a byte [b], and [byte(v)] for an integer [v]. *)
Definition Z_of_byte (b : byte) : Z := Z.of_N (Byte.to_N b).

Definition byte_of_Z (v : Z) : byte :=
  match Byte.of_N (Z.to_N (v mod 256)) with
  | Some b => b
  | None => x00
  end.

(** [[]byte(s)] and [string(b)]. *)
Definition bytes_of_string (s : string) : list byte := list_byte_of_string s.

(** ** Go's [strings] and [strconv], as far as the sources use them *)

Module Strings.

(** [unicode.IsSpace], as UTF-8 byte sequences: the six ASCII blanks,
    U+0085, U+00A0, U+1680, U+2000..U+200A, U+2028, U+2029, U+202F,
    U+205F and U+3000. *)
Definition space_runes : list (list byte) :=
  [ [x09]; [x0a]; [x0b]; [x0c]; [x0d]; [x20];
    [xc2; x85]; [xc2; xa0]; [xe1; x9a; x80];
    [xe2; x80; x80]; [xe2; x80; x81]; [xe2; x80; x82]; [xe2; x80; x83];
    [xe2; x80; x84]; [xe2; x80; x85]; [xe2; x80; x86]; [xe2; x80; x87];
    [xe2; x80; x88]; [xe2; x80; x89]; [xe2; x80; x8a];
    [xe2; x80; xa8]; [xe2; x80; xa9]; [xe2; x80; xaf];
    [xe2; x81; x9f]; [xe3; x80; x80] ].

Definition byte_eqb (a b : byte) : bool := N.eqb (Byte.to_N a) (Byte.to_N b).

Fixpoint has_prefix (p l : list byte) : bool :=
  match p, l with
  | [], _ => true
  | a :: p', b :: l' => byte_eqb a b && has_prefix p' l'
  | _ :: _, [] => false
  end.

(** The rest of [l] after one leading space rune (encoded as in [runes]),
    if it starts with one. *)
Definition strip_rune (runes : list (list byte)) (l : list byte) : option (list byte) :=
  match List.find (fun r => has_prefix r l) runes with
  | Some r => Some (drop (length r) l)
  | None => None
  end.

Fixpoint trim_runes (fuel : nat) (runes : list (list byte)) (l : list byte) : list byte :=
  match fuel with
  | O => l
  | S fuel' =>
      match strip_rune runes l with
      | Some l' => trim_runes fuel' runes l'
      | None => l
      end
  end.

Definition trim_left (l : list byte) : list byte :=
  trim_runes (length l) space_runes l.

Definition trim_right (l : list byte) : list byte :=
  List.rev (trim_runes (length l) (map (@List.rev byte) space_runes) (List.rev l)).

(** [strings.TrimSpace]: leading and trailing white space removed. *)
Definition TrimSpace (s : string) : string :=
  string_of_list_byte (trim_right (trim_left (list_byte_of_string s))).

(** [strings.ToLower] on the ASCII letters (the sources only compare its
    result with ASCII literals). *)
Definition lower_byte (b : byte) : byte :=
  let n := Byte.to_N b in
  if (N.leb 65 n && N.leb n 90)%bool then
    match Byte.of_N (n + 32) with Some c => c | None => b end
  else b.

Definition ToLower (s : string) : string :=
  string_of_list_byte (map lower_byte (list_byte_of_string s)).

Definition HasPrefix (s p : string) : bool :=
  has_prefix (list_byte_of_string p) (list_byte_of_string s).

(** [s[n:]] *)
Definition from (n : nat) (s : string) : string :=
  string_of_list_byte (drop n (list_byte_of_string s)).

(** [strconv.FormatInt(n, 10)] and the verb [%d]. *)
Definition FormatInt (n : Z) : string := NilZero.string_of_int (Z.to_int n).

(** [strings.Join] *)
Fixpoint Join (elems : list string) (sep : string) : string :=
  match elems with
  | [] => ""
  | [e] => e
  | e :: rest => e ++ sep ++ Join rest sep
  end.

(** [strings.Contains], on bytes. *)
Fixpoint contains (sub l : list byte) : bool :=
  has_prefix sub l
  || match l with
     | [] => false
     | _ :: l' => contains sub l'
     end.

Definition Contains (s substr : string) : bool :=
  contains (list_byte_of_string substr) (list_byte_of_string s).

(** [hex.EncodeToString]: two digits of [hextable] for every byte, the
    high half first. *)
Definition hextable : list ascii :=
  list_ascii_of_string "0123456789abcdef".

Definition hex_digit (n : N) : ascii := nth (N.to_nat n) hextable "0"%char.

Fixpoint EncodeToString (src : list byte) : string :=
  match src with
  | [] => ""
  | v :: rest =>
      String (hex_digit (N.shiftr (Byte.to_N v) 4))
        (String (hex_digit (N.land (Byte.to_N v) 15)) (EncodeToString rest))
  end.

End Strings.

(** ** internal/pow/solver.go: DeepSeekHashV1 *)

Module Pow.

(** [bits.RotateLeft64(x, k)]: [s := uint(k) & 63; x<<s | x>>(64-s)]. *)
Definition RotateLeft64 (x : Z) (k : Z) : Z :=
  let s := Z.land k 63 in
  Z.lor (u64 (Z.shiftl x s)) (Z.shiftr x (64 - s)).

(** [^x] on a [uint64]. *)
Definition not64 (x : Z) : Z := Z.lxor x (2 ^ 64 - 1).

Definition keccakRC : list Z :=
  [ 0x0000000000000001; 0x0000000000008082; 0x800000000000808A; 0x8000000080008000;
    0x000000000000808B; 0x0000000080000001; 0x8000000080008081; 0x8000000000008009;
    0x000000000000008A; 0x0000000000000088; 0x0000000080008009; 0x000000008000000A;
    0x000000008000808B; 0x800000000000008B; 0x8000000000008089; 0x8000000000008003;
    0x8000000000008002; 0x8000000000000080; 0x000000000000800A; 0x800000008000000A;
    0x8000000080008081; 0x8000000000008080; 0x0000000080000001; 0x8000000080008008 ].

(** [rho[x][y]] *)
Definition rho : list (list Z) :=
  [ [0; 36; 3; 41; 18];
    [1; 44; 10; 45; 2];
    [62; 6; 43; 15; 61];
    [28; 55; 25; 21; 56];
    [27; 20; 39; 8; 14] ].

(** Array reads and writes: [a[i]], [a[i] = v], [a[i] ^= v]. *)
Definition at_ (a : list Z) (i : nat) : Z := nth i a 0.

Definition set_ (a : list Z) (i : nat) (v : Z) : list Z := <[i := v]> a.

Definition xor_ (a : list Z) (i : nat) (v : Z) : list Z :=
  set_ a i (Z.lxor (at_ a i) v).

(** Lines 79-82: the column parities [c]. *)
Definition round_c (a : list Z) : list Z :=
  fold_left
    (fun c x =>
       set_ c x (Z.lxor (Z.lxor (Z.lxor (Z.lxor (at_ a x) (at_ a (x + 5)))
                                        (at_ a (x + 10))) (at_ a (x + 15))) (at_ a (x + 20))))
    (seq 0 5) (repeat 0 5).

(** Lines 83-88. *)
Definition round_d (c : list Z) : list Z :=
  [ Z.lxor (at_ c 4) (RotateLeft64 (at_ c 1) 1);
    Z.lxor (at_ c 0) (RotateLeft64 (at_ c 2) 1);
    Z.lxor (at_ c 1) (RotateLeft64 (at_ c 3) 1);
    Z.lxor (at_ c 2) (RotateLeft64 (at_ c 4) 1);
    Z.lxor (at_ c 3) (RotateLeft64 (at_ c 0) 1) ].

(** Lines 89-96. *)
Definition round_xor_d (d a : list Z) : list Z :=
  fold_left
    (fun a x =>
       let dx := at_ d x in
       let a := xor_ a x dx in
       let a := xor_ a (x + 5) dx in
       let a := xor_ a (x + 10) dx in
       let a := xor_ a (x + 15) dx in
       xor_ a (x + 20) dx)
    (seq 0 5) a.

(** Lines 98-103. *)
Definition round_b (a : list Z) : list Z :=
  fold_left
    (fun b x =>
       fold_left
         (fun b y =>
            set_ b (y + 5 * ((2 * x + 3 * y) mod 5))
                 (RotateLeft64 (at_ a (x + 5 * y)) (nth y (nth x rho []) 0)))
         (seq 0 5) b)
    (seq 0 5) (repeat 0 25).

(** Lines 105-110. *)
Definition round_chi (b a : list Z) : list Z :=
  fold_left
    (fun a y =>
       let y5 := (5 * y)%nat in
       fold_left
         (fun a x =>
            set_ a (x + y5)
                 (Z.lxor (at_ b (x + y5))
                         (Z.land (not64 (at_ b ((x + 1) mod 5 + y5)))
                                 (at_ b ((x + 2) mod 5 + y5)))))
         (seq 0 5) a)
    (seq 0 5) a.

(** One iteration of the loop body (lines 79-111), with the round
    constant that line 111 reads. *)
Definition round_body (rc : Z) (a : list Z) : list Z :=
  let c := round_c a in
  let d := round_d c in
  let a := round_xor_d d a in
  let b := round_b a in
  let a := round_chi b a in
  xor_ a 0 rc.

(** [for round := 1; round < 24; round++]. *)
Definition keccakF1600Rounds1To23 (a : list Z) : list Z :=
  fold_left (fun a round => round_body (nth round keccakRC 0) a) (seq 1 23) a.

Definition rate : nat := 136.

Definition byte_at (blk : list byte) (i : nat) : Z := Z_of_byte (nth i blk x00).

(** Lines 122-129 and 142-149: one little-endian lane of a block. *)
Definition load_lane (blk : list byte) (i : nat) : Z :=
  Z.lor (Z.lor (Z.lor (Z.lor (Z.lor (Z.lor (Z.lor
    (byte_at blk (i * 8))
    (u64 (Z.shiftl (byte_at blk (i * 8 + 1)) 8)))
    (u64 (Z.shiftl (byte_at blk (i * 8 + 2)) 16)))
    (u64 (Z.shiftl (byte_at blk (i * 8 + 3)) 24)))
    (u64 (Z.shiftl (byte_at blk (i * 8 + 4)) 32)))
    (u64 (Z.shiftl (byte_at blk (i * 8 + 5)) 40)))
    (u64 (Z.shiftl (byte_at blk (i * 8 + 6)) 48)))
    (u64 (Z.shiftl (byte_at blk (i * 8 + 7)) 56)).

(** [for i := 0; i < rate/8; i++ { st[i] ^= lane }]. *)
Definition xor_block (st : list Z) (blk : list byte) : list Z :=
  fold_left (fun st i => xor_ st i (load_lane blk i)) (seq 0 (rate / 8)) st.

(** [data[lo:hi]]. *)
Definition slice {A} (l : list A) (lo hi : nat) : list A := take (hi - lo) (drop lo l).

(** The loop of lines 119-134; it runs at most [len(data)] times. *)
Fixpoint absorb_loop (fuel : nat) (data : list byte) (st : list Z) (off : nat)
  : list Z * nat :=
  match fuel with
  | O => (st, off)
  | S fuel' =>
      if decide (off + rate <= length data)%nat then
        let blk := slice data off (off + rate) in
        let st := xor_block st blk in
        let st := keccakF1600Rounds1To23 st in
        absorb_loop fuel' data st (off + rate)
      else (st, off)
  end.

(** Lines 136-140: [make], [copy], then the two padding writes. *)
Definition final_block (rem : list byte) : list byte :=
  let final := repeat x00 rate in
  let final := take rate rem ++ drop (length rem) final in
  let final := <[length rem := byte_of_Z 0x06]> final in
  <[(rate - 1)%nat := byte_of_Z (Z.lor (Z_of_byte (nth (rate - 1) final x00)) 0x80)]> final.

(** Lines 154-165. *)
Definition state_out (st : list Z) : list byte :=
  fold_left
    (fun out i =>
       let v := at_ st i in
       let out := <[(i * 8 + 0)%nat := byte_of_Z v]> out in
       let out := <[(i * 8 + 1)%nat := byte_of_Z (Z.shiftr v 8)]> out in
       let out := <[(i * 8 + 2)%nat := byte_of_Z (Z.shiftr v 16)]> out in
       let out := <[(i * 8 + 3)%nat := byte_of_Z (Z.shiftr v 24)]> out in
       let out := <[(i * 8 + 4)%nat := byte_of_Z (Z.shiftr v 32)]> out in
       let out := <[(i * 8 + 5)%nat := byte_of_Z (Z.shiftr v 40)]> out in
       let out := <[(i * 8 + 6)%nat := byte_of_Z (Z.shiftr v 48)]> out in
       <[(i * 8 + 7)%nat := byte_of_Z (Z.shiftr v 56)]> out)
    (seq 0 4) (repeat x00 32).

Definition deepSeekHashV1 (data : list byte) : list byte :=
  let st := repeat 0 25 in
  let '(st, off) := absorb_loop (length data) data st 0 in
  let rem := drop off data in
  let final := final_block rem in
  let st := xor_block st final in
  let st := keccakF1600Rounds1To23 st in
  state_out st.


(** *** The solver *)

(** [littleEndianInt]: reverse the 32 bytes, then [big.Int.SetBytes]
    (big-endian). *)
Definition SetBytes (buf : list byte) : Z :=
  fold_left (fun acc x => acc * 256 + Z_of_byte x) buf 0.

Definition littleEndianInt (b : list byte) : Z :=
  let rev :=
    fold_left (fun rev i => <[(31 - i)%nat := nth i b x00]> rev) (seq 0 32) (repeat x00 32) in
  SetBytes rev.

(** [targetFromDifficulty]; [None] is the nil pointer. *)
Definition targetFromDifficulty (diff : Z) : option Z :=
  if diff <=? 0 then None
  else
    let base := Z.shiftl 1 256 in
    Some (base / diff).

(** The bytes hashed for a nonce (line 252). *)
Definition nonce_input (base : string) (nonce : Z) : list byte :=
  bytes_of_string (base ++ Strings.FormatInt nonce).

(** The loop of lines 248-256.  [now k] is what [time.Now().Unix()]
    returns in iteration [k]; the clock is read only when [expireAt > 0].
    [None]: the loop is still running after [fuel] iterations. *)
Fixpoint solve_loop (fuel : nat) (now : nat -> Z) (iter : nat)
    (target : Z) (base : string) (expireAt : Z) (nonce : Z) : option (Z * bool) :=
  match fuel with
  | O => None
  | S fuel' =>
      if (0 <? expireAt) && (expireAt <=? now iter) then Some (0, false)
      else
        let h := deepSeekHashV1 (nonce_input base nonce) in
        if littleEndianInt h <? target then Some (nonce, true)
        else solve_loop fuel' now (S iter) target base expireAt (i64 (nonce + 1))
  end.

Definition solveNative (fuel : nat) (now : nat -> Z)
    (algorithm challenge salt : string) (difficulty expireAt : Z)
    (signature targetPath : string) : option (Z * bool) :=
  if negb (String.eqb (Strings.TrimSpace algorithm) "DeepSeekHashV1") then Some (0, false)
  else
    match targetFromDifficulty difficulty with
    | None => Some (0, false)
    | Some target =>
        let prefix := (salt ++ "_" ++ Strings.FormatInt expireAt ++ "_")%string in
        let base := (challenge ++ prefix)%string in
        solve_loop fuel now 0 target base expireAt 0
    end.

(** What the WebAssembly module and its runtime answer during one
    [solveWASM] call, step by step.  The module itself is a binary outside
    the Go sources. *)
Record WasmRun := {
  init_ok : bool;               (* initWASM returned nil *)
  add_stack_ok : bool;          (* the stack-pointer call returned a pointer *)
  encode_challenge_ok : bool;   (* wasmEncodeString(challenge) *)
  encode_prefix_ok : bool;      (* wasmEncodeString(prefix) *)
  call_ok : bool;               (* wasm_solve returned without error *)
  status_read : option Z;       (* the int32 at retPtr, if readable *)
  value_read : option Z         (* int64(nonceF) at retPtr+8, if readable *)
}.

Definition solveWASM (w : WasmRun) (fuel : nat) (now : nat -> Z)
    (algorithm challenge salt : string) (difficulty expireAt : Z)
    (signature targetPath : string) : option (Z * bool) :=
  let native :=
    solveNative fuel now algorithm challenge salt difficulty expireAt signature targetPath in
  if negb (String.eqb (Strings.TrimSpace algorithm) "DeepSeekHashV1") then Some (0, false)
  else if negb (init_ok w) then native
  else if negb (add_stack_ok w) then native
  else if negb (encode_challenge_ok w) then native
  else if negb (encode_prefix_ok w) then native
  else if negb (call_ok w) then native
  else
    match status_read w with
    | None => native
    | Some status =>
        if status =? 0 then Some (0, false)
        else
          match value_read w with
          | None => native
          | Some nonce => Some (nonce, true)
          end
    end.

Record DeepSeekHashSolver := {
  mode : string;
  wasm : WasmRun
}.

Definition Solve (s : DeepSeekHashSolver) (fuel : nat) (now : nat -> Z)
    (algorithm challenge salt : string) (difficulty expireAt : Z)
    (signature targetPath : string) : option (Z * bool) :=
  if String.eqb (mode s) "native" || String.eqb (mode s) "python" then
    solveNative fuel now algorithm challenge salt difficulty expireAt signature targetPath
  else
    solveWASM (wasm s) fuel now algorithm challenge salt difficulty expireAt
              signature targetPath.

(** [HashKey]: the cache key of a challenge. *)
Definition HashKey (parts : list string) : string :=
  let h := deepSeekHashV1 (bytes_of_string (Strings.Join parts "|")) in
  Strings.EncodeToString h.

End Pow.

(** ** The reference: Keccak-f[1600] and the SHA-3 sponge (FIPS 202)

    Written from the standard, not from the Go code: the five step
    mappings on a 5x5 array of 64-bit lanes, the round constants from the
    LFSR of the standard, the rotation offsets from its (t+1)(t+2)/2 walk,
    the byte-level padding and the sponge.  The only parameters are the
    list of round indices a permutation call executes, the rate and the
    output length. *)

Module KeccakRef.

(** Lane [A[x,y]] is stored at index [x + 5y]. *)
Definition A (s : list Z) (x y : nat) : Z := nth (x mod 5 + 5 * (y mod 5)) s 0.

Definition mk (f : nat -> nat -> Z) : list Z :=
  map (fun i => f (i mod 5)%nat (i / 5)%nat) (seq 0 25).

(** Cyclic left rotation of a 64-bit word by [r < 64] positions. *)
Definition rot (w : Z) (r : nat) : Z :=
  Z.lor (Z.shiftl w (Z.of_nat r) mod 2 ^ 64) (Z.shiftr w (64 - Z.of_nat r)).

(** Bitwise complement of a 64-bit word. *)
Definition lnot (w : Z) : Z := Z.lxor w (Z.ones 64).

Definition C (s : list Z) (x : nat) : Z :=
  Z.lxor (Z.lxor (Z.lxor (Z.lxor (A s x 0) (A s x 1)) (A s x 2)) (A s x 3)) (A s x 4).

Definition D (s : list Z) (x : nat) : Z :=
  Z.lxor (C s (x + 4)) (rot (C s (x + 1)) 1).

Definition theta (s : list Z) : list Z := mk (fun x y => Z.lxor (A s x y) (D s x)).

(** Rotation offsets: start at (1,0); for t = 0..23 the lane gets
    (t+1)(t+2)/2 and the walk moves to (y, 2x+3y). *)
Fixpoint rho_walk (n t x y : nat) : list (nat * nat * nat) :=
  match n with
  | O => []
  | S n' => (x, y, ((t + 1) * (t + 2) / 2) mod 64)%nat
              :: rho_walk n' (S t) y ((2 * x + 3 * y) mod 5)%nat
  end.

Definition rho_offset (x y : nat) : nat :=
  match List.find (fun e => Nat.eqb (fst (fst e)) x && Nat.eqb (snd (fst e)) y)
                  (rho_walk 24 0 1 0) with
  | Some e => snd e
  | None => 0%nat
  end.

Definition rho (s : list Z) : list Z := mk (fun x y => rot (A s x y) (rho_offset x y)).

Definition pi (s : list Z) : list Z := mk (fun x y => A s (x + 3 * y) x).

Definition chi (s : list Z) : list Z :=
  mk (fun x y => Z.lxor (A s x y) (Z.land (lnot (A s (x + 1) y)) (A s (x + 2) y))).

(** The degree-8 LFSR of the standard: one step, returning the output bit. *)
Definition lfsr_step (r : N) : bool * N :=
  (N.testbit r 0,
   if N.testbit r 7 then N.lxor (N.shiftl r 1 mod 256) 0x71 else N.shiftl r 1).

Fixpoint lfsr_bits (n : nat) (r : N) : list bool * N :=
  match n with
  | O => ([], r)
  | S n' => let '(b, r') := lfsr_step r in
            let '(bs, r'') := lfsr_bits n' r' in
            (b :: bs, r'')
  end.

(** Bit [2^j - 1] of the constant is the j-th bit of the seven drawn. *)
Fixpoint rc_of_bits (j : nat) (bs : list bool) : Z :=
  match bs with
  | [] => 0
  | b :: bs' => (if b then 2 ^ (2 ^ Z.of_nat j - 1) else 0) + rc_of_bits (S j) bs'
  end.

Fixpoint RC_from (ir : nat) (r : N) : Z :=
  let '(bs, r') := lfsr_bits 7 r in
  match ir with
  | O => rc_of_bits 0 bs
  | S ir' => RC_from ir' r'
  end.

Definition RC (ir : nat) : Z := RC_from ir 1%N.

Definition iota (ir : nat) (s : list Z) : list Z :=
  mk (fun x y => if Nat.eqb x 0 && Nat.eqb y 0 then Z.lxor (A s x y) (RC ir) else A s x y).

Definition Rnd (ir : nat) (s : list Z) : list Z := iota ir (chi (pi (rho (theta s)))).

(** The permutation, executing exactly the rounds listed. *)
Definition keccak_f (rounds : list nat) (s : list Z) : list Z :=
  fold_left (fun s ir => Rnd ir s) rounds s.

(** Little-endian value of a byte string, and the [n] little-endian bytes
    of a word. *)
Fixpoint le_value (bs : list byte) : Z :=
  match bs with
  | [] => 0
  | b :: bs' => Z_of_byte b + 256 * le_value bs'
  end.

Fixpoint le_bytes (n : nat) (w : Z) : list byte :=
  match n with
  | O => []
  | S n' => byte_of_Z (w mod 256) :: le_bytes n' (w / 256)
  end.

(** Append 0x06, zero-pad to the rate boundary, OR the final byte with 0x80. *)
Definition or_last (bs : list byte) : list byte :=
  match List.rev bs with
  | [] => []
  | b :: tl => List.rev tl ++ [byte_of_Z (Z.lor (Z_of_byte b) 0x80)]
  end.

Definition pad (r : nat) (m : list byte) : list byte :=
  let m1 := m ++ [byte_of_Z 0x06] in
  let m2 := m1 ++ repeat x00 ((r - length m1 mod r) mod r) in
  or_last m2.

(** The padded message cut into blocks of [r] bytes. *)
Fixpoint blocks (fuel r : nat) (m : list byte) : list (list byte) :=
  match fuel with
  | O => []
  | S fuel' =>
      match m with
      | [] => []
      | _ => take r m :: blocks fuel' r (drop r m)
      end
  end.

(** A block as lanes (little-endian, zero-extended to 25 lanes), XORed
    into the state. *)
Definition block_lanes (blk : list byte) : list Z :=
  map (fun i => le_value (take 8 (drop (8 * i) blk))) (seq 0 25).

Definition xor_state (s t : list Z) : list Z :=
  mk (fun x y => Z.lxor (A s x y) (A t x y)).

Definition absorb (rounds : list nat) (s : list Z) (blk : list byte) : list Z :=
  keccak_f rounds (xor_state s (block_lanes blk)).

Definition squeeze (n : nat) (s : list Z) : list byte :=
  take n (concat (map (le_bytes 8) s)).

Definition sponge (rounds : list nat) (r n : nat) (m : list byte) : list byte :=
  let p := pad r m in
  squeeze n (fold_left (absorb rounds) (blocks (length p) r p) (repeat 0 25)).

(** SHA3-256, and the variant of the claim: the same sponge with the
    permutation restricted to rounds 1..23. *)
Definition sha3_256 : list byte -> list byte := sponge (seq 0 24) 136 32.

Definition sha3_256_rounds_1_23 : list byte -> list byte := sponge (seq 1 23) 136 32.

End KeccakRef.

(** ** Vocabulary for the solver's properties *)

(** A 64-bit word. *)
Definition word64 (w : Z) : Prop := 0 <= w < 2 ^ 64.

(** The value tested for a nonce. *)
Definition pow_value (base : string) (nonce : Z) : Z :=
  Pow.littleEndianInt (Pow.deepSeekHashV1 (Pow.nonce_input base nonce)).



(** The text a nonce is appended to (lines 246-247 of solver.go). *)
Definition pow_base (challenge salt : string) (expireAt : Z) : string :=
  (challenge ++ (salt ++ "_" ++ Strings.FormatInt expireAt ++ "_"))%string.

(** The solver's clock checks pass in iterations [0..m]: there is no
    positive expiry, or the clock stays below it. *)
Definition unexpired (now : nat -> Z) (expireAt : Z) (m : nat) : Prop :=
  expireAt <= 0 \/ forall k : nat, (k <= m)%nat -> now k < expireAt.

(** A string of lower-case hexadecimal digits. *)
Definition hex_string (s : string) : Prop :=
  Forall (fun c => In c Strings.hextable) (list_ascii_of_string s).



(** ** internal/pow/cache.go: the answer cache *)

Module Cache.

Record entry := { Val : string; ExpireAt : Z }.

Definition NewCache : gmap string entry := ∅.

(** [Get]; [now] is [time.Now().Unix()].  Returns the cache after the
    call and the two results. *)
Definition Get (c : gmap string entry) (key : string) (now : Z)
  : gmap string entry * (string * bool) :=
  match c !! key with
  | None => (c, (EmptyString, false))
  | Some e =>
      if (0 <? ExpireAt e) && (ExpireAt e <=? now) then (delete key c, (EmptyString, false))
      else (c, (Val e, true))
  end.

(** [Set] ([Set] is reserved in Rocq). *)
Definition Set_ (c : gmap string entry) (key val : string) (expireAt now : Z)
  : gmap string entry :=
  if (0 <? expireAt) && (expireAt <=? now) then c
  else <[key := {| Val := val; ExpireAt := i64 (expireAt - 1) |}]> c.

(** A call on the cache, and a run of calls. *)
Inductive op :=
| OpGet (key : string) (now : Z)
| OpSet (key val : string) (expireAt now : Z).

Definition step (c : gmap string entry) (o : op) : gmap string entry :=
  match o with
  | OpGet key now => fst (Get c key now)
  | OpSet key val expireAt now => Set_ c key val expireAt now
  end.

Definition run (c : gmap string entry) (ops : list op) : gmap string entry :=
  fold_left step ops c.

(** The call leaves [key]'s entry to later readers: it is not a [Set] of
    [key], and its clock reading is not the last second an [int64] holds. *)
Definition leaves (key : string) (o : op) : Prop :=
  match o with
  | OpGet _ now => now < maxInt64
  | OpSet k _ _ now => k <> key
  end.

End Cache.

(** A call that spares the entry of [key] stored with the expiry stamp
    [stamp] (the [ExpireAt] field): it is no [Set] of [key], and no [Get]
    of [key] at or after a positive stamp. *)
Definition spares (key : string) (stamp : Z) (o : Cache.op) : Prop :=
  match o with
  | Cache.OpGet k now => k <> key \/ stamp <= 0 \/ now < stamp
  | Cache.OpSet k _ _ _ => k <> key
  end.

(** ** internal/clients/deepseek.go: fetching a proof of work *)

Module Clients.

(** The challenge as lines 89-97 of [GetPoW] read it from the response:
    the five strings ("" when absent), the difficulty after
    [int(getFloat(.., 144000))] and the expiry after
    [int64(getFloat(.., now + 60))]. *)
Record Challenge := {
  algorithm : string;
  challenge : string;
  salt : string;
  signature : string;
  target_path : string;
  difficulty : Z;
  expire_at : Z
}.

(** What one request to the challenge endpoint brings. *)
Inductive PowReply :=
| PowTransportError                 (* [httpClient.Do] returned an error *)
| PowRejected                       (* status other than 200, or [code] missing or not 0 *)
| PowChallenge (c : Challenge).

(** The answer structure [pd] of lines 113-127. *)
Record PowAnswer := {
  Algorithm : string;
  Challenge_ : string;
  Salt : string;
  Answer : Z;
  Signature : string;
  TargetPath : string
}.

(** The clock readings of one attempt: in [cache.Get], in the solver's
    iterations and in [cache.Set]. *)
Record Clock := {
  at_get : Z;
  at_solve : nat -> Z;
  at_set : Z
}.

Definition key_of (c : Challenge) : string :=
  Pow.HashKey [algorithm c; challenge c; salt c; signature c; target_path c].

Section GetPoW.

(** [base64.StdEncoding.EncodeToString(json.Marshal(pd))], taken as
    given. *)
Variable encode : PowAnswer -> string.

(** The solver runs with [fuel] iterations at most; [solver i],
    [reply i] and [clock i] are the solver, the upstream's reply and the
    clock in attempt [i]. *)
Variable fuel : nat.
Variable solver : nat -> Pow.DeepSeekHashSolver.
Variable reply : nat -> PowReply.
Variable clock : nat -> Clock.

(** The loop of [GetPoW] with [remaining] attempts left, [i] being the
    current one.  The result is the cache after the call, the string and
    the error (or nil); [None] when a solve is still running. *)
Fixpoint attempts (remaining i : nat) (cache : gmap string Cache.entry)
  : option (gmap string Cache.entry * string * option string) :=
  match remaining with
  | O => Some (cache, ""%string, Some "failed get pow"%string)
  | S remaining' =>
      match reply i with
      | PowTransportError => attempts remaining' (S i) cache
      | PowRejected => attempts remaining' (S i) cache
      | PowChallenge c =>
          let key := key_of c in
          let '(cache, (v, ok)) := Cache.Get cache key (at_get (clock i)) in
          if ok then Some (cache, v, None)
          else
            match Pow.Solve (solver i) fuel (at_solve (clock i))
                            (algorithm c) (challenge c) (salt c) (difficulty c)
                            (expire_at c) (signature c) (target_path c) with
            | None => None
            | Some (ans, false) => attempts remaining' (S i) cache
            | Some (ans, true) =>
                let pd := {| Algorithm := algorithm c; Challenge_ := challenge c;
                             Salt := salt c; Answer := ans;
                             Signature := signature c; TargetPath := target_path c |} in
                let enc := encode pd in
                Some (Cache.Set_ cache key enc (expire_at c) (at_set (clock i)), enc, None)
            end
      end
  end.

Definition GetPoW (cache : gmap string Cache.entry) (maxAttempts : Z)
  : option (gmap string Cache.entry * string * option string) :=
  attempts (Z.to_nat maxAttempts) 0 cache.

End GetPoW.

End Clients.

(** ** Vocabulary for [GetPoW] *)

(** Two challenges the cache cannot tell apart. *)
Definition same_key_fields (c c' : Clients.Challenge) : Prop :=
  Clients.algorithm c = Clients.algorithm c'
  /\ Clients.challenge c = Clients.challenge c'
  /\ Clients.salt c = Clients.salt c'
  /\ Clients.signature c = Clients.signature c'
  /\ Clients.target_path c = Clients.target_path c'.

(** The upstream answers no request of the call with a usable
    challenge. *)
Definition never_challenges (reply : nat -> Clients.PowReply) (n : nat) : Prop :=
  forall i : nat, (i < n)%nat ->
    reply i = Clients.PowTransportError \/ reply i = Clients.PowRejected.

(** ** internal/accounts/pool.go: the account pool *)

Module Accounts.

Record Account := {
  Email : string;
  Mobile : string;
  Password : string;
  Token : string
}.

(** [config.AccountConfig] *)
Record AccountConfig := {
  cfgEmail : string;
  cfgMobile : string;
  cfgPassword : string;
  cfgToken : string
}.

(** The pool's own fields.  [accounts] is the slice the pool owns; no
    pointer into it ever leaves the package. *)
Record Pool := {
  accounts : list Account;
  active : gmap string Z;
  refresh : bool;
  maxAccounts : Z;
  loginURL : string;
  lastWarnUnix : Z
}.

(** The login request [EnsureToken] posts, and what comes back:
    a transport error, a body that is not JSON, or the string found at
    [data.biz_data.user.token] (empty when any step of that path is
    missing or not of the expected type). *)
Record LoginRequest := {
  req_url : string;
  req_password : string;
  req_email : option string;
  req_mobile : option string
}.

Inductive LoginResponse :=
| LoginTransportError (msg : string)
| LoginDecodeError (msg : string)
| LoginBody (tok : string).

(** The memory the pool's methods work on: the pool, the [Account]
    structs that live behind the [*Account] pointers handed to callers
    (a pointer is an index into [cells]), and the login requests sent so
    far. *)
Record World := {
  pool : Pool;
  cells : list Account;
  logins : list LoginRequest
}.

Definition with_pool (w : World) (p : Pool) : World :=
  {| pool := p; cells := cells w; logins := logins w |}.

Definition with_active (p : Pool) (a : gmap string Z) : Pool :=
  {| accounts := accounts p; active := a; refresh := refresh p;
     maxAccounts := maxAccounts p; loginURL := loginURL p;
     lastWarnUnix := lastWarnUnix p |}.

Definition nonblank (s : string) : bool := negb (String.eqb (Strings.TrimSpace s) "").

Definition AccountID (a : Account) : string :=
  if nonblank (Email a) then Strings.TrimSpace (Email a)
  else Strings.TrimSpace (Mobile a).

(** [m[k]] on a [map[string]int] and on a [map[string]bool]. *)
Definition count (m : gmap string Z) (id : string) : Z := default 0 (m !! id).

Definition excluded (exclude : option (gmap string bool)) (id : string) : bool :=
  match exclude with
  | None => false
  | Some m => default false (m !! id)
  end.

(** Lines 58-70: the candidate indices. *)
Definition candidates (exclude : option (gmap string bool)) (accs : list Account)
  : list nat :=
  let cands :=
    List.filter (fun i => negb (excluded exclude (AccountID (nth i accs
                   {| Email := ""; Mobile := ""; Password := ""; Token := "" |}))))
                (seq 0 (length accs)) in
  match cands with
  | [] => seq 0 (length accs)
  | _ => cands
  end.

(** [Acquire]; [now] is the clock and [r] the number [rand.Intn]
    draws, reduced to the range it was asked for.  The result is the
    pointer to a fresh copy, or nil. *)
Definition Acquire (exclude : option (gmap string bool)) (now : Z) (r : nat) (w : World)
  : World * option nat :=
  let p := pool w in
  match accounts p with
  | [] =>
      let p' :=
        if 30 <? i64 (now - lastWarnUnix p) then
          {| accounts := accounts p; active := active p; refresh := refresh p;
             maxAccounts := maxAccounts p; loginURL := loginURL p; lastWarnUnix := now |}
        else p in
      (with_pool w p', None)
  | first :: _ =>
      let cands := candidates exclude (accounts p) in
      let idx := nth (r mod length cands) cands 0%nat in
      let ac := nth idx (accounts p) first in
      let id := AccountID ac in
      let p' := with_active p (<[id := i64 (count (active p) id + 1)]> (active p)) in
      ({| pool := p'; cells := cells w ++ [ac]; logins := logins w |},
       Some (length (cells w)))
  end.

(** [Release]; a pointer that is not nil points to a cell. *)
Definition Release (a : option nat) (w : World) : World :=
  match a with
  | None => w
  | Some l =>
      match cells w !! l with
      | None => w
      | Some acc =>
          let p := pool w in
          let id := AccountID acc in
          if 1 <? count (active p) id then
            with_pool w (with_active p (<[id := i64 (count (active p) id - 1)]> (active p)))
          else
            with_pool w (with_active p (delete id (active p)))
      end
  end.

Record Status := {
  total : Z;
  available : Z;
  in_use : Z;
  active_sessions : Z;
  max_accounts : Z
}.

Definition GetStatus (w : World) : Status :=
  let p := pool w in
  let total := Z.of_nat (length (accounts p)) in
  let inUse := Z.of_nat (size (active p)) in
  let activeSessions := map_fold (fun _ v acc => i64 (acc + v)) 0 (active p) in
  {| total := total; available := i64 (total - inUse); in_use := inUse;
     active_sessions := activeSessions; max_accounts := maxAccounts p |}.

(** [rand.Shuffle]: for i from n-1 down to 1, swap i with [rand.Intn(i+1)];
    [draw i] is the number drawn at step i. *)
Definition swap {T} (l : list T) (i j : nat) : list T :=
  match l !! i, l !! j with
  | Some x, Some y => <[i := y]> (<[j := x]> l)
  | _, _ => l
  end.

Fixpoint shuffle_from {T} (i : nat) (draw : nat -> nat) (l : list T) : list T :=
  match i with
  | O => l
  | S i' => shuffle_from i' draw (swap l i (draw i mod (i + 1)))
  end.

Definition Shuffle {T} (draw : nat -> nat) (l : list T) : list T :=
  shuffle_from (length l - 1) draw l.

Definition of_config (a : AccountConfig) : Account :=
  {| Email := cfgEmail a; Mobile := cfgMobile a;
     Password := cfgPassword a; Token := cfgToken a |}.

Definition reloadLocked (accs : list AccountConfig) (refresh : bool) (maxAccounts : Z)
    (draw : nat -> nat) (p : Pool) : Pool :=
  let roster := map of_config accs in
  let n := Z.of_nat (length roster) in
  let maxAccounts :=
    if (maxAccounts <=? 0) || (n <? maxAccounts) then n else maxAccounts in
  let roster :=
    if maxAccounts <? n then take (Z.to_nat maxAccounts) (Shuffle draw roster)
    else roster in
  let valid : gset string := list_to_set (map AccountID roster) in
  {| accounts := roster;
     active := filter (fun kv => fst kv ∈ valid) (active p);
     refresh := refresh;
     maxAccounts := maxAccounts;
     loginURL := loginURL p;
     lastWarnUnix := lastWarnUnix p |}.

Definition Reload (accs : list AccountConfig) (refresh : bool) (maxAccounts : Z)
    (draw : nat -> nat) (w : World) : World :=
  with_pool w (reloadLocked accs refresh maxAccounts draw (pool w)).

Definition to_config (a : Account) : AccountConfig :=
  {| cfgEmail := Email a; cfgMobile := Mobile a;
     cfgPassword := Password a; cfgToken := Token a |}.

Definition snapshotConfigLocked (p : Pool) : list AccountConfig :=
  map to_config (accounts p).

Definition SnapshotConfigAccounts (w : World) : list AccountConfig :=
  snapshotConfigLocked (pool w).

Definition UpdateRuntime (refresh : bool) (maxAccounts : Z) (draw : nat -> nat) (w : World)
  : World :=
  let current := snapshotConfigLocked (pool w) in
  with_pool w (reloadLocked current refresh maxAccounts draw (pool w)).

(** [NewPool], from the fields of the configuration it reads. *)
Definition NewPool (accs : list AccountConfig) (refresh : bool) (maxActive : Z)
    (url : string) (draw : nat -> nat) : Pool :=
  reloadLocked accs refresh maxActive draw
    {| accounts := []; active := ∅; refresh := false; maxAccounts := 0;
       loginURL := url; lastWarnUnix := 0 |}.

Definition with_token (a : Account) (tok : string) : Account :=
  {| Email := Email a; Mobile := Mobile a; Password := Password a; Token := tok |}.

(** [EnsureToken]; [login] is the upstream's answer to the request.  The
    error is [None] for nil. *)
Definition EnsureToken (login : LoginRequest -> LoginResponse) (a : option nat) (w : World)
  : World * option string :=
  match a with
  | None => (w, Some "nil account"%string)
  | Some l =>
      match cells w !! l with
      | None => (w, Some "nil account"%string)
      | Some acc =>
          if nonblank (Token acc) && negb (refresh (pool w)) then (w, None)
          else if negb (nonblank (Password acc))
                  || (negb (nonblank (Email acc)) && negb (nonblank (Mobile acc))) then
            if nonblank (Token acc) then (w, None)
            else (w, Some "missing credentials"%string)
          else
            let req :=
              if nonblank (Email acc) then
                {| req_url := loginURL (pool w); req_password := Password acc;
                   req_email := Some (Email acc); req_mobile := None |}
              else
                {| req_url := loginURL (pool w); req_password := Password acc;
                   req_email := None; req_mobile := Some (Mobile acc) |} in
            let w := {| pool := pool w; cells := cells w; logins := logins w ++ [req] |} in
            match login req with
            | LoginTransportError msg => (w, Some msg)
            | LoginDecodeError msg => (w, Some msg)
            | LoginBody tok =>
                if negb (nonblank tok) then (w, Some "missing token"%string)
                else
                  ({| pool := pool w; cells := <[l := with_token acc tok]> (cells w);
                      logins := logins w |}, None)
            end
      end
  end.

(** Calls on the pool, as a client sequences them, and what a run
    records: the identifier of each account acquired or released. *)
Inductive op :=
| OpAcquire (exclude : option (gmap string bool)) (now : Z) (r : nat)
| OpRelease (a : option nat).

Inductive event :=
| Acquired (id : string)
| Released (id : string).

Definition step (w : World) (o : op) : World * list event :=
  match o with
  | OpAcquire exclude now r =>
      let '(w', a) := Acquire exclude now r w in
      (w', match a with
           | Some l => match cells w' !! l with
                       | Some acc => [Acquired (AccountID acc)]
                       | None => []
                       end
           | None => []
           end)
  | OpRelease a =>
      (Release a w,
       match a with
       | Some l => match cells w !! l with
                   | Some acc => [Released (AccountID acc)]
                   | None => []
                   end
       | None => []
       end)
  end.

Fixpoint run (w : World) (ops : list op) : World * list event :=
  match ops with
  | [] => (w, [])
  | o :: ops' =>
      let '(w1, ev) := step w o in
      let '(w2, evs) := run w1 ops' in
      (w2, ev ++ evs)
  end.

Fixpoint acquires (id : string) (tr : list event) : Z :=
  match tr with
  | [] => 0
  | Acquired i :: tr' => (if String.eqb i id then 1 else 0) + acquires id tr'
  | Released _ :: tr' => acquires id tr'
  end.

Fixpoint releases (id : string) (tr : list event) : Z :=
  match tr with
  | [] => 0
  | Released i :: tr' => (if String.eqb i id then 1 else 0) + releases id tr'
  | Acquired _ :: tr' => releases id tr'
  end.

(** A balanced record: every release of an identifier answers an earlier
    acquire of it that no other release has answered, and in the end every
    acquire has its release. *)
Definition balanced (tr : list event) : Prop :=
  (forall id pre post, tr = pre ++ post -> releases id pre <= acquires id pre)
  /\ (forall id, releases id tr = acquires id tr).

End Accounts.

(** ** Vocabulary for the pool's properties *)

(** What one call does to the counters. *)
Inductive effect :=
| Same
| Inc (id : string)
| Dec (id : string).

Definition apply_effect (m : gmap string Z) (e : effect) : gmap string Z :=
  match e with
  | Same => m
  | Inc id => <[id := i64 (Accounts.count m id + 1)]> m
  | Dec id =>
      if 1 <? Accounts.count m id then <[id := i64 (Accounts.count m id - 1)]> m
      else delete id m
  end.

Definition effect_events (e : effect) : list Accounts.event :=
  match e with
  | Same => []
  | Inc id => [Accounts.Acquired id]
  | Dec id => [Accounts.Released id]
  end.

(** Acquires not yet released, per identifier. *)
Definition outstanding (id : string) (tr : list Accounts.event) : Z :=
  Accounts.acquires id tr - Accounts.releases id tr.

(** Every counter is at least 1 and at most the number of calls so far. *)
Definition counters_within (m : gmap string Z) (n : Z) : Prop :=
  forall id v, m !! id = Some v -> 1 <= v <= n.

(** The counters are exactly the outstanding acquires. *)
Definition counters_are (m : gmap string Z) (tr : list Accounts.event) : Prop :=
  forall id, m !! id = if 0 <? outstanding id tr then Some (outstanding id tr) else None.

(** An account given by e-mail and token only, as in the scenarios. *)
Definition acct (e t : string) : Accounts.AccountConfig :=
  {| Accounts.cfgEmail := e; Accounts.cfgMobile := "";
     Accounts.cfgPassword := ""; Accounts.cfgToken := t |}.

(** A pool that must log in: one account with a password and a stored
    token, [refresh] set; and an upstream that answers every login with
    the token "new". *)
Definition refreshing_world : Accounts.World :=
  {| Accounts.pool :=
       Accounts.NewPool
         [{| Accounts.cfgEmail := "a@x"; Accounts.cfgMobile := "";
             Accounts.cfgPassword := "pw"; Accounts.cfgToken := "old" |}]
         true 1 "https://chat.deepseek.com/api/v0/users/login" (fun _ => 0%nat);
     Accounts.cells := []; Accounts.logins := [] |}.

Definition login_new (_ : Accounts.LoginRequest) : Accounts.LoginResponse :=
  Accounts.LoginBody "new".

(** ** The pool under all the methods that write to it *)

Inductive pool_call :=
| DoAcquire (exclude : option (gmap string bool)) (now : Z) (r : nat)
| DoRelease (a : option nat)
| DoReload (accs : list Accounts.AccountConfig) (refresh : bool) (maxAccounts : Z)
           (draw : nat -> nat)
| DoUpdateRuntime (refresh : bool) (maxAccounts : Z) (draw : nat -> nat)
| DoEnsureToken (login : Accounts.LoginRequest -> Accounts.LoginResponse) (a : option nat).

Definition pool_exec (w : Accounts.World) (c : pool_call) : Accounts.World :=
  match c with
  | DoAcquire exclude now r => fst (Accounts.Acquire exclude now r w)
  | DoRelease a => Accounts.Release a w
  | DoReload accs refresh maxAccounts draw => Accounts.Reload accs refresh maxAccounts draw w
  | DoUpdateRuntime refresh maxAccounts draw => Accounts.UpdateRuntime refresh maxAccounts draw w
  | DoEnsureToken login a => fst (Accounts.EnsureToken login a w)
  end.

(** The world right after [NewPool]: no account handed out yet. *)
Definition fresh_world (accs : list Accounts.AccountConfig) (refresh : bool)
    (maxActive : Z) (url : string) (draw : nat -> nat) : Accounts.World :=
  {| Accounts.pool := Accounts.NewPool accs refresh maxActive url draw;
     Accounts.cells := []; Accounts.logins := [] |}.

(** The identifiers of the roster. *)
Definition roster_ids (p : Accounts.Pool) : gset string :=
  list_to_set (map Accounts.AccountID (Accounts.accounts p)).

(** [maxAccounts] does not cut a list of [n] accounts short. *)
Definition covers (maxAccounts : Z) (n : nat) : Prop :=
  maxAccounts <= 0 \/ Z.of_nat n <= maxAccounts.

(** The step of the sum [GetStatus] takes over the counters. *)
Definition sum_step (_ : string) (v acc : Z) : Z := i64 (acc + v).

(** [EnsureToken] goes to the upstream for an account: neither of its
    early returns applies (lines 127-135), that is, the account lacks a
    token or [refresh] is on, and it has a password and an e-mail address
    or a mobile number. *)
Definition logs_in (refresh : bool) (acc : Accounts.Account) : bool :=
  negb (Accounts.nonblank (Accounts.Token acc) && negb refresh)
  && Accounts.nonblank (Accounts.Password acc)
  && (Accounts.nonblank (Accounts.Email acc) || Accounts.nonblank (Accounts.Mobile acc)).

(** The login request [EnsureToken] sends for an account (lines 136-144):
    by e-mail when the account has one, by mobile number otherwise. *)
Definition login_request (url : string) (acc : Accounts.Account) : Accounts.LoginRequest :=
  if Accounts.nonblank (Accounts.Email acc) then
    {| Accounts.req_url := url; Accounts.req_password := Accounts.Password acc;
       Accounts.req_email := Some (Accounts.Email acc); Accounts.req_mobile := None |}
  else
    {| Accounts.req_url := url; Accounts.req_password := Accounts.Password acc;
       Accounts.req_email := None; Accounts.req_mobile := Some (Accounts.Mobile acc) |}.

(** ** internal/services: the chunk parser *)

Module Services.

(** A decoded JSON value ([any] after [json.Unmarshal]); a number keeps
    its literal. *)
#[local] Unset Elimination Schemes.
Inductive json :=
| JNull
| JBool (b : bool)
| JNum (lit : string)
| JStr (s : string)
| JArr (items : list json)
| JObj (fields : gmap string json).
#[local] Set Elimination Schemes.

(** [m[k].(string)]: the string and whether the assertion held. *)
Definition get_string (m : gmap string json) (k : string) : option string :=
  match m !! k with
  | Some (JStr s) => Some s
  | _ => None
  end.

Record segment := { Type_ : string; Text : string }.

(** The body of the loop over the elements of an array [v]
    (lines 299-322); the state is [(segType, segs, finished)]. *)
Definition parse_item (st : string * list segment * bool) (item : json)
  : string * list segment * bool :=
  let '(segType, segs, finished) := st in
  match item with
  | JObj m =>
      let emit (segType : string) :=
        match get_string m "v" with
        | Some sv => (segType, segs ++ [{| Type_ := segType; Text := sv |}], finished)
        | None => (segType, segs, finished)
        end in
      match get_string m "p" with
      | Some p =>
          if String.eqb p "status" then
            match get_string m "v" with
            | Some "FINISHED"%string => (segType, segs, true)
            | _ => (segType, segs, finished)
            end
          else if String.eqb p "response/search_status" || String.eqb p "response/status"
          then (segType, segs, finished)
          else if String.eqb p "response/thinking_content" || String.eqb p "thinking_content"
          then emit "thinking"%string
          else if String.eqb p "response/content" || String.eqb p "content"
          then emit "text"%string
          else emit segType
      | None => emit segType
      end
  | _ => (segType, segs, finished)
  end.

(** Lines 292-324: the switch on [chunk["v"]], with the current type the
    lines above have settled. *)
Definition parse_v (chunk : gmap string json) (currentType : string)
  : string * list segment * bool :=
  match chunk !! "v"%string with
  | Some (JStr vv) => (currentType, [{| Type_ := currentType; Text := vv |}], false)
  | Some (JArr vv) =>
      let '(_, segs, finished) := fold_left parse_item vv (currentType, [], false) in
      (currentType, segs, finished)
  | _ => (currentType, [], false)
  end.

Definition parseChunk (chunk : gmap string json) (currentType : string)
  : string * list segment * bool :=
  let currentType := if String.eqb currentType "" then "text"%string else currentType in
  match get_string chunk "p" with
  | Some p =>
      if String.eqb p "response/search_status" || String.eqb p "response/status"
      then (currentType, [], false)
      else if String.eqb p "response/thinking_content" then parse_v chunk "thinking"
      else if String.eqb p "response/content" then parse_v chunk "text"
      else parse_v chunk currentType
  | None => parse_v chunk currentType
  end.

(** The callback of [ClaudeStream] (lines 45-61) run over the payloads
    of a stream: [None] is a payload that is not JSON.  It threads
    [ptype], collects the segments and stops after a finished chunk. *)
Fixpoint parseChunks (chunks : list (option (gmap string json))) (ptype : string)
  : list segment :=
  match chunks with
  | [] => []
  | None :: rest => parseChunks rest ptype
  | Some chunk :: rest =>
      let '(ptype', segs, finished) := parseChunk chunk ptype in
      if finished then segs else segs ++ parseChunks rest ptype'
  end.

(** [ReadSSELines] over the lines the scanner yields.  The callback
    works on variables of its caller; they are the state [S] here, and the
    callback returns the state it leaves with its result. *)
Fixpoint ReadSSELines {S : Type} (lines : list string)
    (onData : S -> string -> S * bool) (s : S) : S :=
  match lines with
  | [] => s
  | line :: rest =>
      if negb (Strings.HasPrefix line "data:") then ReadSSELines rest onData s
      else
        let data := Strings.TrimSpace (Strings.from 5 line) in
        if String.eqb data "[DONE]" then s
        else
          let '(s, continue) := onData s data in
          if continue then ReadSSELines rest onData s else s
  end.

(** A message after [extractText]: lines 204-209 of [MessagesPrepare]. *)
Record turn := { role : string; text : string }.

(** Two line feeds. *)
Definition blank_line : string := String "010" (String "010" EmptyString).

(** Lines 213-220 of [MessagesPrepare]: one step of the loop that merges
    a message into the last entry when the roles agree, and the loop. *)
Definition merge_step (merged : list turn) (p : turn) : list turn :=
  let n := (length merged - 1)%nat in
  match merged !! n with
  | Some l =>
      if String.eqb (role p) (role l) then
        <[n := {| role := role l; text := text l ++ blank_line ++ text p |}]> merged
      else merged ++ [p]
  | None => merged ++ [p]
  end.

Definition merge (processed : list turn) : list turn :=
  match processed with
  | [] => []
  | first :: rest => fold_left merge_step rest [first]
  end.

End Services.

(** ** Vocabulary for the stream parser *)

(** An array element that ends the stream: path "status", value
    "FINISHED". *)
Definition is_finish (item : Services.json) : bool :=
  match item with
  | Services.JObj m =>
      match Services.get_string m "p", Services.get_string m "v" with
      | Some p, Some v => String.eqb p "status" && String.eqb v "FINISHED"
      | _, _ => false
      end
  | _ => false
  end.

(** The top-level path silences the chunk. *)
Definition is_status_chunk (chunk : gmap string Services.json) : bool :=
  match Services.get_string chunk "p" with
  | Some p => String.eqb p "response/search_status" || String.eqb p "response/status"
  | None => false
  end.

(** An array element with a string value and no path. *)
Definition plain (v : string) : Services.json :=
  Services.JObj {[ "v"%string := Services.JStr v ]}.

(** A line of the stream that carries data, and one that ends it. *)
Definition is_data (line : string) : bool := Strings.HasPrefix line "data:".

Definition is_done (line : string) : bool :=
  is_data line && String.eqb (Strings.TrimSpace (Strings.from 5 line)) "[DONE]".

(** No two neighbours have the same role. *)
Definition alternating (l : list Services.turn) : Prop :=
  forall i a b, l !! i = Some a -> l !! S i = Some b -> Services.role a <> Services.role b.

(** The type a chunk hands on: decided by the incoming type and the
    top-level path. *)
Definition top_type (chunk : gmap string Services.json) (cur : string) : string :=
  let cur := if String.eqb cur "" then "text"%string else cur in
  match Services.get_string chunk "p" with
  | Some p =>
      if String.eqb p "response/thinking_content" then "thinking"%string
      else if String.eqb p "response/content" then "text"%string
      else cur
  | None => cur
  end.

(** An array element that switches to thinking and carries the text [a]. *)
Definition switches_to_thinking (item : Services.json) (a : string) : Prop :=
  exists m,
    item = Services.JObj m
    /\ (Services.get_string m "p" = Some "thinking_content"%string
        \/ Services.get_string m "p" = Some "response/thinking_content"%string)
    /\ Services.get_string m "v" = Some a.

Definition seg (t v : string) : Services.segment :=
  {| Services.Type_ := t; Services.Text := v |}.

(** ** internal/auth and internal/handlers: who serves a request *)

Module Auth.

(** [config.Config], the field authentication reads. *)
Record Config := { Keys : list string }.

(** An inbound request: the method and the two headers read
    ([Header.Get] gives "" for a header that is absent). *)
Record Request := {
  Method : string;
  X_OA_Key : string;
  Authorization : string
}.

Record AuthContext := {
  UseConfigToken : bool;
  CallerKey : string;
  DeepSeekToken : string;
  Account : option nat;
  FailedAccounts : gmap string bool;
  Released : bool
}.

Definition StatusUnauthorized : Z := 401.
Definition StatusMethodNotAllowed : Z := 405.
Definition StatusTooManyRequests : Z := 429.
Definition StatusInternalServerError : Z := 500.

(** Lines 221-227. *)
Definition caller_key (r : Request) : string :=
  let callerKey := Strings.TrimSpace (X_OA_Key r) in
  if String.eqb callerKey "" then
    let auth := Strings.TrimSpace (Authorization r) in
    if Strings.HasPrefix (Strings.ToLower auth) "bearer " then
      Strings.TrimSpace (Strings.from 7 auth)
    else callerKey
  else callerKey.

(** Lines 232-238. *)
Definition uses_pool (cfg : Config) (callerKey : string) : bool :=
  existsb (String.eqb callerKey) (Keys cfg).

(** [DetermineModeAndToken]: the context (or nil), the status code, the
    message and the error (or nil).  [now] and [rnd] are the clock and the
    random draw [Acquire] reads, [login] the upstream's answer to a login
    request. *)
Definition DetermineModeAndToken (r : Request) (cfg : Config) (now : Z) (rnd : nat)
    (login : Accounts.LoginRequest -> Accounts.LoginResponse) (w : Accounts.World)
  : Accounts.World * (option AuthContext * Z * string * option string) :=
  let callerKey := caller_key r in
  if String.eqb callerKey "" then
    (w, (None, StatusUnauthorized,
         "Unauthorized: missing X-OA-Key or Authorization Bearer header."%string,
         Some "missing auth"%string))
  else if negb (uses_pool cfg callerKey) then
    (w, (Some {| UseConfigToken := false; CallerKey := callerKey;
                 DeepSeekToken := callerKey; Account := None;
                 FailedAccounts := ∅; Released := false |},
         0, ""%string, None))
  else
    let '(w, acc) := Accounts.Acquire None now rnd w in
    match acc with
    | None =>
        (w, (None, StatusTooManyRequests, "No accounts available in pool."%string,
             Some "no accounts"%string))
    | Some l =>
        let '(w, err) := Accounts.EnsureToken login (Some l) w in
        match err with
        | Some e =>
            (Accounts.Release (Some l) w,
             (None, StatusInternalServerError, "Account login failed."%string, Some e))
        | None =>
            let tok := match Accounts.cells w !! l with
                       | Some a => Accounts.Token a
                       | None => ""%string
                       end in
            (w, (Some {| UseConfigToken := true; CallerKey := callerKey;
                         DeepSeekToken := Strings.TrimSpace tok; Account := Some l;
                         FailedAccounts := ∅; Released := false |},
                 0, ""%string, None))
        end
    end.

Definition DetermineClaudeModeAndToken := DetermineModeAndToken.

(** [ReleaseAccountIfNeeded]; [None] is a nil context. *)
Definition ReleaseAccountIfNeeded (ac : option AuthContext) (w : Accounts.World)
  : option AuthContext * Accounts.World :=
  match ac with
  | None => (None, w)
  | Some c =>
      if negb (UseConfigToken c) || Released c then (Some c, w)
      else
        (Some {| UseConfigToken := UseConfigToken c; CallerKey := CallerKey c;
                 DeepSeekToken := DeepSeekToken c; Account := None;
                 FailedAccounts := FailedAccounts c; Released := true |},
         Accounts.Release (Account c) w)
  end.

(** [SwitchAccount]: the context as the call leaves it, the world and
    the result.  A context made by [DetermineModeAndToken] has a
    [FailedAccounts] map that is not nil. *)
Definition SwitchAccount (ac : option AuthContext) (now : Z) (rnd : nat)
    (login : Accounts.LoginRequest -> Accounts.LoginResponse) (w : Accounts.World)
  : option AuthContext * Accounts.World * bool :=
  match ac with
  | None => (None, w, false)
  | Some c =>
      if negb (UseConfigToken c) then (Some c, w, false)
      else
        let '(failed, w) :=
          match Account c with
          | Some l =>
              match Accounts.cells w !! l with
              | Some acc =>
                  (<[Accounts.AccountID acc := true]> (FailedAccounts c),
                   Accounts.Release (Some l) w)
              | None => (FailedAccounts c, w)
              end
          | None => (FailedAccounts c, w)
          end in
        let gone :=
          {| UseConfigToken := UseConfigToken c; CallerKey := CallerKey c;
             DeepSeekToken := ""; Account := None;
             FailedAccounts := failed; Released := Released c |} in
        let '(w, next) := Accounts.Acquire (Some failed) now rnd w in
        match next with
        | None => (Some gone, w, false)
        | Some l =>
            let '(w, err) := Accounts.EnsureToken login (Some l) w in
            match err with
            | Some _ => (Some gone, w, false)
            | None =>
                let tok := match Accounts.cells w !! l with
                           | Some a => Accounts.Token a
                           | None => ""%string
                           end in
                (Some {| UseConfigToken := UseConfigToken c; CallerKey := CallerKey c;
                         DeepSeekToken := tok; Account := Some l;
                         FailedAccounts := failed; Released := Released c |},
                 w, true)
            end
        end
  end.

End Auth.

Module Handlers.

(** A call the gateway makes to the upstream service. *)
Inductive UpstreamCall :=
| CallLogin (req : Accounts.LoginRequest)
| CallCreateSession
| CallGetPoW
| CallCompletion.

(** What the handler writes: the status and the JSON payload ([JNull]
    when only the header is written). *)
Record Response := { status : Z; payload : Services.json }.

(** [WriteJSON] *)
Definition WriteJSON (code : Z) (body : Services.json) : Response :=
  {| status := code; payload := body |}.

Section Pipeline.

(** Lines 27-83 of [OpenAIChat] and the corresponding lines of
    [ClaudeMessages]: everything a handler does once the request is
    authenticated (decode the body, create the session, fetch the
    proof of work, run the completion).  It returns the context as it
    leaves it, the response it writes and the upstream calls it made. *)
Variable serve :
  Auth.AuthContext -> Auth.Request -> Accounts.World ->
  Accounts.World * Auth.AuthContext * Response * list UpstreamCall.

(** The login requests sent between two worlds. *)
Definition login_calls (before after : Accounts.World) : list UpstreamCall :=
  map CallLogin (drop (length (Accounts.logins before)) (Accounts.logins after)).

Definition handle (error_body : string -> Services.json)
    (cfg : Auth.Config) (now : Z) (rnd : nat)
    (login : Accounts.LoginRequest -> Accounts.LoginResponse)
    (r : Auth.Request) (w : Accounts.World)
  : Accounts.World * Response * list UpstreamCall :=
  if negb (String.eqb (Auth.Method r) "POST") then
    (w, {| status := Auth.StatusMethodNotAllowed; payload := Services.JNull |}, [])
  else
    let '(w1, (ac, code, msg, err)) := Auth.DetermineModeAndToken r cfg now rnd login w in
    match err, ac with
    | Some _, _ => (w1, WriteJSON code (error_body msg), login_calls w w1)
    | None, None =>
        (* not reached: the context is nil only together with an error *)
        (w1, WriteJSON code (error_body msg), login_calls w w1)
    | None, Some ac =>
        let '(w2, ac', resp, calls) := serve ac r w1 in
        let '(_, w3) := Auth.ReleaseAccountIfNeeded (Some ac') w2 in
        (w3, resp, login_calls w w1 ++ calls)
    end.

(** [OpenAIChat]: errors are written as [{"error": msg}]. *)
Definition OpenAIChat :=
  handle (fun msg => Services.JObj {[ "error"%string := Services.JStr msg ]}).

(** [ClaudeMessages]: errors are written as
    [{"error": {"type": "invalid_request_error", "message": msg}}]. *)
Definition ClaudeMessages :=
  handle (fun msg =>
            Services.JObj
              {[ "error"%string :=
                   Services.JObj {[ "type"%string := Services.JStr "invalid_request_error";
                                    "message"%string := Services.JStr msg ]} ]}).

End Pipeline.

(** [mapClaudeModel], on the model mapping of the configuration. *)
Definition mapClaudeModel (mapping : gmap string string) (model : string) : string :=
  let m := Strings.ToLower model in
  let entry (k : string) := default ""%string (mapping !! k) in
  if Strings.Contains m "opus" || Strings.Contains m "reasoner" || Strings.Contains m "slow"
  then
    if negb (String.eqb (Strings.TrimSpace (entry "slow"%string)) "") then entry "slow"%string
    else "deepseek-chat"%string
  else
    if negb (String.eqb (Strings.TrimSpace (entry "fast"%string)) "") then entry "fast"%string
    else "deepseek-chat"%string.

End Handlers.

(** ** Vocabulary for the handlers' properties *)

(** The handler answered with [code] and made no upstream call other
    than login requests. *)
Definition answers_without_completion
    (res : Accounts.World * Handlers.Response * list Handlers.UpstreamCall) (code : Z) : Prop :=
  Handlers.status (snd (fst res)) = code
  /\ forall c, c ∈ snd res -> exists req, c = Handlers.CallLogin req.

(** A pipeline that would call the upstream completion endpoint. *)
Definition serve_completion
    (ac : Auth.AuthContext) (r : Auth.Request) (w : Accounts.World)
  : Accounts.World * Auth.AuthContext * Handlers.Response * list Handlers.UpstreamCall :=
  (w, ac, {| Handlers.status := 200; Handlers.payload := Services.JNull |},
   [Handlers.CallCreateSession; Handlers.CallGetPoW; Handlers.CallCompletion]).

Definition empty_world : Accounts.World :=
  {| Accounts.pool := Accounts.NewPool [] false 0 "https://chat.deepseek.com/api/v0/users/login"
                                       (fun _ => 0%nat);
     Accounts.cells := []; Accounts.logins := [] |}.

(** One account that has a password and no token, and an upstream whose
    login answers carry no token. *)
Definition tokenless_world : Accounts.World :=
  {| Accounts.pool :=
       Accounts.NewPool
         [{| Accounts.cfgEmail := "a@x"; Accounts.cfgMobile := "";
             Accounts.cfgPassword := "pw"; Accounts.cfgToken := "" |}]
         false 1 "https://chat.deepseek.com/api/v0/users/login" (fun _ => 0%nat);
     Accounts.cells := []; Accounts.logins := [] |}.

Definition login_rejected (_ : Accounts.LoginRequest) : Accounts.LoginResponse :=
  Accounts.LoginBody "".

Definition pool_request : Auth.Request :=
  {| Auth.Method := "POST"; Auth.X_OA_Key := ""; Auth.Authorization := "Bearer sk-pool" |}.

Definition pool_config : Auth.Config := {| Auth.Keys := ["sk-pool"%string] |}.

(** The failed-account set once the account [acc] is marked. *)
Definition failed_with (c : Auth.AuthContext) (acc : Accounts.Account) : gmap string bool :=
  <[Accounts.AccountID acc := true]> (Auth.FailedAccounts c).

(** A pipeline that serves the request with the account it was given:
    it returns the context as it got it and leaves the pool and the
    accounts handed out as they are. *)
Definition keeps_account
    (serve : Auth.AuthContext -> Auth.Request -> Accounts.World ->
             Accounts.World * Auth.AuthContext * Handlers.Response
             * list Handlers.UpstreamCall) : Prop :=
  forall ac r w,
    snd (fst (fst (serve ac r w))) = ac
    /\ Accounts.pool (fst (fst (fst (serve ac r w)))) = Accounts.pool w
    /\ Accounts.cells (fst (fst (fst (serve ac r w)))) = Accounts.cells w.

(** ** internal/cloudsync: the sync manager *)

Module CloudSync.

Definition accountsPath : string := "/deepseek2api/accounts".
Definition configPath : string := "/deepseek2api/config".

Record SyncConfigPayload := {
  Refresh : bool;
  MaxActiveAccounts : Z;
  ClaudeModelMapping : gmap string string
}.

(** The errors of the client: the two sentinels, [*ConflictError] and
    any other error. *)
Inductive error :=
| ErrUnauthorized
| ErrNotFound
| ConflictError (ServerVersion : Z) (ServerHash : string)
| OtherError (msg : string).

(** What a call returns: a pointer (nil or not) and no error, or an
    error. *)
Inductive result (T : Type) :=
| Ok (v : option T)
| Err (e : error).
Arguments Ok {T} v.
Arguments Err {T} e.

Record SyncEvent := {
  eID : Z; eItemID : string; ePath : string; eType : string; eVersion : Z
}.

Record DeltaResponse := { Events : list SyncEvent; dNextCursor : Z }.

(** The part of the application state the manager writes:
    the runtime configuration and the pool. *)
Record AppState := {
  cfgRefresh : bool;
  cfgMaxActiveAccounts : Z;
  cfgClaudeModelMapping : gmap string string;
  Pool : Accounts.World
}.

(** [UpdateSyncRuntime] *)
Definition UpdateSyncRuntime (refresh : bool) (maxActiveAccounts : Z)
    (mapping : gmap string string) (s : AppState) : AppState :=
  {| cfgRefresh := refresh; cfgMaxActiveAccounts := maxActiveAccounts;
     cfgClaudeModelMapping := mapping; Pool := Pool s |}.

(** [state.SyncStatus], the field [syncStatus] of the application
    state, and the methods that write it; [now] is [time.Now().Unix()]. *)
Record SyncStatus := {
  Enabled : bool;
  Connected : bool;
  LastSuccessUnix : Z;
  LastVersion : Z;
  LastCursor : Z;
  LastError : string
}.

Definition MarkSyncSuccess (version cursor now : Z) (s : SyncStatus) : SyncStatus :=
  {| Enabled := Enabled s; Connected := true; LastSuccessUnix := now;
     LastVersion := version; LastCursor := cursor; LastError := "" |}.

Definition MarkSyncError (err : string) (s : SyncStatus) : SyncStatus :=
  {| Enabled := Enabled s; Connected := false; LastSuccessUnix := LastSuccessUnix s;
     LastVersion := LastVersion s; LastCursor := LastCursor s; LastError := err |}.

Definition SetSyncEnabled (enabled : bool) (s : SyncStatus) : SyncStatus :=
  {| Enabled := enabled; Connected := Connected s; LastSuccessUnix := LastSuccessUnix s;
     LastVersion := LastVersion s; LastCursor := LastCursor s; LastError := LastError s |}.

(** [err.Error()]. *)
Definition Error (e : error) : string :=
  match e with
  | ErrUnauthorized => "cloudsync unauthorized"
  | ErrNotFound => "cloudsync not found"
  | ConflictError _ _ => "cloudsync conflict"
  | OtherError msg => msg
  end.

Section Manager.

(** Item metadata is an [any]; decoding it goes through
    [encoding/json], which is taken as given: [decodeAccounts] yields the
    accounts (a slice, nil or not) or an error, [decodeConfigPayload] the
    payload or an error. *)
Variable M : Type.
Variable decodeAccounts : M -> result (list Accounts.AccountConfig).
Variable decodeConfigPayload : M -> result SyncConfigPayload.

Record SyncItem := {
  ID : string;
  Path : string;
  Metadata : M;
  Version : Z;
  Hash : string;
  Deleted : bool
}.

Record ListItemsResponse := {
  Items : list SyncItem;
  NextCursor : Z;
  LatestVersion : Z
}.

(** The requests the client sends, with their arguments. *)
Inductive Call :=
| CallListItems (sinceVersion limit cursor : Z)
| CallDelta (sinceVersion limit cursor : Z)
| CallUpsertItem (path : string) (metadata : M) (baseVersion : option Z)
| CallResolveConflict (path : string) (metadata : M) (baseVersion : Z).

(** The cloud-sync server: each answer may depend on every request sent
    so far, the current one being the last of the list. *)
Record Remote := {
  onListItems : list Call -> result ListItemsResponse;
  onDelta : list Call -> result DeltaResponse;
  onUpsertItem : list Call -> result SyncItem;
  onResolveConflict : list Call -> result SyncItem
}.

Variable remote : Remote.

(** [draw] stands for the random numbers [Pool.Reload] shuffles with. *)
Variable draw : nat -> nat.

Record SyncManager := {
  st : AppState;
  Limit : Z;
  version : Z;
  cursor : Z;
  sent : list Call
}.

Definition with_sent (m : SyncManager) (c : Call) : SyncManager :=
  {| st := st m; Limit := Limit m; version := version m; cursor := cursor m;
     sent := sent m ++ [c] |}.

Definition with_state (m : SyncManager) (s : AppState) : SyncManager :=
  {| st := s; Limit := Limit m; version := version m; cursor := cursor m;
     sent := sent m |}.

Definition getVersion (m : SyncManager) : Z := version m.

Definition getCursor (m : SyncManager) : Z := cursor m.

Definition getVersionPtr (m : SyncManager) : option Z := Some (version m).

Definition setVersion (v : Z) (m : SyncManager) : SyncManager :=
  if version m <? v then
    {| st := st m; Limit := Limit m; version := v; cursor := cursor m; sent := sent m |}
  else m.

Definition advanceVersionCursor (item : option SyncItem) (m : SyncManager) : SyncManager :=
  match item with
  | None => m
  | Some item =>
      let v := if version m <? Version item then Version item else version m in
      let c := if cursor m <? Version item then Version item else cursor m in
      {| st := st m; Limit := Limit m; version := v; cursor := c; sent := sent m |}
  end.

(** The loop of [applyItems] (lines 180-201): the manager, the accounts
    and the payload seen so far, or the error that ends it. *)
Fixpoint apply_loop (items : list SyncItem) (m : SyncManager)
    (remoteAccounts : option (list Accounts.AccountConfig))
    (remoteCfg : option SyncConfigPayload)
  : SyncManager * option (list Accounts.AccountConfig) * option SyncConfigPayload
    * option error :=
  match items with
  | [] => (m, remoteAccounts, remoteCfg, None)
  | item :: rest =>
      let bump (m : SyncManager) :=
        if getVersion m <? Version item then setVersion (Version item) m else m in
      if Deleted item then apply_loop rest m remoteAccounts remoteCfg
      else if String.eqb (Strings.TrimSpace (Path item)) accountsPath then
        match decodeAccounts (Metadata item) with
        | Err e => (m, remoteAccounts, remoteCfg, Some e)
        | Ok acc => apply_loop rest (bump m) acc remoteCfg
        end
      else if String.eqb (Strings.TrimSpace (Path item)) configPath then
        match decodeConfigPayload (Metadata item) with
        | Err e => (m, remoteAccounts, remoteCfg, Some e)
        | Ok cfgPayload => apply_loop rest (bump m) remoteAccounts cfgPayload
        end
      else apply_loop rest (bump m) remoteAccounts remoteCfg
  end.

Definition applyItems (items : list SyncItem) (m : SyncManager)
  : SyncManager * option error :=
  match items with
  | [] => (m, None)
  | _ =>
      let '(m, remoteAccounts, remoteCfg, err) := apply_loop items m None None in
      match err with
      | Some e => (m, Some e)
      | None =>
          let s := st m in
          let s := match remoteCfg with
                   | Some c => UpdateSyncRuntime (Refresh c) (MaxActiveAccounts c)
                                                 (ClaudeModelMapping c) s
                   | None => s
                   end in
          let s :=
            match remoteCfg, remoteAccounts with
            | None, None => s
            | _, _ =>
                let accountsToApply :=
                  match remoteAccounts with
                  | Some accs => accs
                  | None => Accounts.SnapshotConfigAccounts (Pool s)
                  end in
                {| cfgRefresh := cfgRefresh s;
                   cfgMaxActiveAccounts := cfgMaxActiveAccounts s;
                   cfgClaudeModelMapping := cfgClaudeModelMapping s;
                   Pool := Accounts.Reload accountsToApply (cfgRefresh s)
                                           (cfgMaxActiveAccounts s) draw (Pool s) |}
            end in
          (with_state m s, None)
      end
  end.

Definition pullAndApply (m : SyncManager) : SyncManager * option error :=
  let since := version m in
  let cursor0 := cursor m in
  let limit := Limit m in
  let m := with_sent m (CallListItems since limit cursor0) in
  match onListItems remote (sent m) with
  | Err e => (m, Some e)
  | Ok None => (m, None)
  | Ok (Some listResp) =>
      match applyItems (Items listResp) m with
      | (m, Some e) => (m, Some e)
      | (m, None) =>
          let m := with_sent m (CallDelta since limit cursor0) in
          match onDelta remote (sent m) with
          | Err e => (m, Some e)
          | Ok deltaResp =>
              let maxVersion := LatestVersion listResp in
              let c := if cursor0 <? NextCursor listResp then NextCursor listResp
                       else cursor0 in
              let c := match deltaResp with
                       | Some d => if c <? dNextCursor d then dNextCursor d else c
                       | None => c
                       end in
              let v := if version m <? maxVersion then maxVersion else version m in
              let c := if cursor m <? c then c else cursor m in
              ({| st := st m; Limit := Limit m; version := v; cursor := c;
                  sent := sent m |}, None)
          end
      end
  end.

Definition upsertWithConflictRetry (path : string) (metadata : M) (m : SyncManager)
  : SyncManager * option error :=
  let base := getVersionPtr m in
  let m := with_sent m (CallUpsertItem path metadata base) in
  match onUpsertItem remote (sent m) with
  | Ok item => (advanceVersionCursor item m, None)
  | Err (ConflictError serverVersion serverHash) =>
      match pullAndApply m with
      | (m, Some pullErr) => (m, Some pullErr)
      | (m, None) =>
          let m := with_sent m (CallResolveConflict path metadata serverVersion) in
          match onResolveConflict remote (sent m) with
          | Err resolveErr => (m, Some resolveErr)
          | Ok resolved => (advanceVersionCursor resolved m, None)
          end
      end
  | Err e => (m, Some e)
  end.

(** The metadata [pushLocalSnapshot] builds: the map
    [{"accounts": accounts}] and the config payload, as values of [any]. *)
Variable accountsMeta : list Accounts.AccountConfig -> M.
Variable configMeta : SyncConfigPayload -> M.

Definition pushLocalSnapshot (m : SyncManager) : SyncManager * option error :=
  let cfg := st m in
  let accounts := Accounts.SnapshotConfigAccounts (Pool (st m)) in
  let accountsMeta := accountsMeta accounts in
  let configMeta :=
    configMeta {| Refresh := cfgRefresh cfg; MaxActiveAccounts := cfgMaxActiveAccounts cfg;
                  ClaudeModelMapping := cfgClaudeModelMapping cfg |} in
  match upsertWithConflictRetry accountsPath accountsMeta m with
  | (m, Some err) => (m, Some err)
  | (m, None) =>
      match upsertWithConflictRetry configPath configMeta m with
      | (m, Some err) => (m, Some err)
      | (m, None) => (m, None)
      end
  end.

Definition SyncOnce (m : SyncManager) : SyncManager * option error :=
  match pullAndApply m with
  | (m, Some err) => (m, Some err)
  | (m, None) => pushLocalSnapshot m
  end.

(** [handshake c] is the server's answer to the handshake request
    carrying the cursor [c]: the cursor of the session, or an error. *)
Variable handshake : Z -> result Z.

(** [InitialSync]; [now] is the clock [MarkSyncSuccess] reads. *)
Definition InitialSync (now : Z) (m : SyncManager) (status : SyncStatus)
  : SyncManager * SyncStatus * option error :=
  match handshake (cursor m) with
  | Err err => (m, MarkSyncError (Error err) status, Some err)
  | Ok s =>
      let m := match s with
               | Some c => {| st := st m; Limit := Limit m; version := version m;
                              cursor := c; sent := sent m |}
               | None => m
               end in
      match pullAndApply m with
      | (m, Some err) => (m, MarkSyncError (Error err) status, Some err)
      | (m, None) =>
          match pushLocalSnapshot m with
          | (m, Some err) => (m, MarkSyncError (Error err) status, Some err)
          | (m, None) =>
              (m, MarkSyncSuccess (getVersion m) (getCursor m) now status, None)
          end
      end
  end.

(** One tick of [Run] (lines 73-79), and [Run] over the ticks that
    arrive before the context is done; each tick comes with the clock
    reading of its [MarkSyncSuccess]. *)
Definition tick (ms : SyncManager * SyncStatus) (now : Z) : SyncManager * SyncStatus :=
  let '(m, status) := ms in
  match SyncOnce m with
  | (m, Some err) => (m, MarkSyncError (Error err) status)
  | (m, None) => (m, MarkSyncSuccess (getVersion m) (getCursor m) now status)
  end.

Definition Run (ticks : list Z) (m : SyncManager) (status : SyncStatus)
  : SyncManager * SyncStatus :=
  fold_left tick ticks (m, status).

End Manager.

Arguments Items {M} _.
Arguments NextCursor {M} _.
Arguments LatestVersion {M} _.
Arguments Version {M} _.
Arguments CallListItems {M} _ _ _.
Arguments CallDelta {M} _ _ _.
Arguments CallUpsertItem {M} _ _ _.
Arguments CallResolveConflict {M} _ _ _.
Arguments st {M} _.
Arguments Limit {M} _.
Arguments version {M} _.
Arguments cursor {M} _.
Arguments sent {M} _.
Arguments with_sent {M} _ _.
Arguments advanceVersionCursor {M} _ _.
Arguments onListItems {M} _ _.
Arguments onDelta {M} _ _.
Arguments onUpsertItem {M} _ _.
Arguments onResolveConflict {M} _ _.

End CloudSync.

(** ** The conflict scenario of the specification *)

(** The server of the scenario: the upsert is refused with a conflict at
    server version 7, the recovery pull finds nothing new, the resolve
    returns the item at version 8.  Metadata is kept as text. *)
Definition scenario_item : CloudSync.SyncItem string :=
  {| CloudSync.ID := "item-1"; CloudSync.Path := CloudSync.accountsPath;
     CloudSync.Metadata := "accounts: []"%string; CloudSync.Version := 8;
     CloudSync.Hash := "hash-8"; CloudSync.Deleted := false |}.

Definition scenario_remote : CloudSync.Remote string :=
  {| CloudSync.onListItems := fun _ =>
       CloudSync.Ok (Some {| CloudSync.Items := []; CloudSync.NextCursor := 0;
                             CloudSync.LatestVersion := 7 |});
     CloudSync.onDelta := fun _ =>
       CloudSync.Ok (Some {| CloudSync.Events := []; CloudSync.dNextCursor := 0 |});
     CloudSync.onUpsertItem := fun _ => CloudSync.Err (CloudSync.ConflictError 7 "hash-7");
     CloudSync.onResolveConflict := fun _ => CloudSync.Ok (Some scenario_item) |}.

Definition scenario_decodeAccounts (_ : string)
  : CloudSync.result (list Accounts.AccountConfig) := CloudSync.Ok (Some []).

Definition scenario_decodeConfigPayload (_ : string)
  : CloudSync.result CloudSync.SyncConfigPayload :=
  CloudSync.Err (CloudSync.OtherError "not a config payload").

Definition scenario_manager : CloudSync.SyncManager string :=
  {| CloudSync.st :=
       {| CloudSync.cfgRefresh := false; CloudSync.cfgMaxActiveAccounts := 1;
          CloudSync.cfgClaudeModelMapping :=
            {[ "fast"%string := "deepseek-chat"%string;
               "slow"%string := "deepseek-chat"%string ]};
          CloudSync.Pool :=
            {| Accounts.pool :=
                 Accounts.NewPool [acct "a@example.com" "t"] false 1
                   "https://chat.deepseek.com/api/v0/users/login" (fun _ => 0%nat);
               Accounts.cells := []; Accounts.logins := [] |} |};
     CloudSync.Limit := 100; CloudSync.version := 0; CloudSync.cursor := 0;
     CloudSync.sent := [] |}.

(** ** Vocabulary for the sync loop *)

(** The pool's settings agree with the runtime configuration: the same
    [refresh], a roster as long as the pool's limit says, and within a
    positive [max_active_accounts]. *)
Definition in_step (s : CloudSync.AppState) : Prop :=
  let p := Accounts.pool (CloudSync.Pool s) in
  Accounts.refresh p = CloudSync.cfgRefresh s
  /\ Accounts.maxAccounts p = Z.of_nat (length (Accounts.accounts p))
  /\ (0 < CloudSync.cfgMaxActiveAccounts s ->
      Z.of_nat (length (Accounts.accounts p)) <= CloudSync.cfgMaxActiveAccounts s).

(** A step of the manager from [m] to [m']: version and cursor do not
    go back, the page size stays, and a state that is in step stays so. *)
Definition advances {M : Type} (m m' : CloudSync.SyncManager M) : Prop :=
  CloudSync.version m <= CloudSync.version m'
  /\ CloudSync.cursor m <= CloudSync.cursor m'
  /\ CloudSync.Limit m' = CloudSync.Limit m
  /\ (in_step (CloudSync.st m) -> in_step (CloudSync.st m')).

(** The status does not report more than the manager has reached. *)
Definition not_ahead {M : Type} (s : CloudSync.SyncStatus) (m : CloudSync.SyncManager M) : Prop :=
  CloudSync.LastVersion s <= CloudSync.version m
  /\ CloudSync.LastCursor s <= CloudSync.cursor m.

(** A request that writes to the server. *)
Definition is_write {M : Type} (c : CloudSync.Call M) : bool :=
  match c with
  | CloudSync.CallUpsertItem _ _ _ => true
  | CloudSync.CallResolveConflict _ _ _ => true
  | _ => false
  end.

(** An item the scenario's decoder rejects: a config item (the
    scenario's [decodeConfigPayload] fails), at version 12. *)
Definition broken_config_item : CloudSync.SyncItem string :=
  {| CloudSync.ID := "item-2"; CloudSync.Path := CloudSync.configPath;
     CloudSync.Metadata := "not a payload"%string; CloudSync.Version := 12;
     CloudSync.Hash := "hash-12"; CloudSync.Deleted := false |}.

(** The scenario's way of building metadata, and a status not yet
    written. *)
Definition scenario_accountsMeta (_ : list Accounts.AccountConfig) : string :=
  "accounts: []".

Definition scenario_configMeta (_ : CloudSync.SyncConfigPayload) : string :=
  "refresh: false".

Definition scenario_status : CloudSync.SyncStatus :=
  {| CloudSync.Enabled := true; CloudSync.Connected := false;
     CloudSync.LastSuccessUnix := 0; CloudSync.LastVersion := 0;
     CloudSync.LastCursor := 0; CloudSync.LastError := "" |}.


(** * Machine integers and strings: basic facts *)

Lemma append_assoc (a b c : string) : ((a ++ b) ++ c = a ++ (b ++ c))%string.
Proof.
  induction a as [|x a IH]; [reflexivity|].
  change (String x ((a ++ b) ++ c) = String x (a ++ (b ++ c)))%string.
  rewrite IH. reflexivity.
Qed.

Lemma i64_succ z : i64 (i64 z + 1) = i64 (z + 1).
Proof.
  unfold i64.
  replace ((z + 2 ^ 63) mod 2 ^ 64 - 2 ^ 63 + 1 + 2 ^ 63)
    with ((z + 2 ^ 63) mod 2 ^ 64 + 1) by lia.
  rewrite Z.add_mod_idemp_l by lia. f_equal. f_equal. lia.
Qed.

Lemma i64_small z : - 2 ^ 63 <= z < 2 ^ 63 -> i64 z = z.
Proof. intros H. unfold i64. rewrite Z.mod_small; lia. Qed.

Lemma i64_le z : 0 <= z -> i64 z <= z.
Proof.
  intros H. unfold i64.
  pose proof (Z.mod_le (z + 2 ^ 63) (2 ^ 64)). lia.
Qed.

Lemma i64_range z : - 2 ^ 63 <= i64 z < 2 ^ 63.
Proof. unfold i64. pose proof (Z.mod_pos_bound (z + 2 ^ 63) (2 ^ 64)). lia. Qed.


(** * DeepSeekHashV1 refines the reference sponge *)

Section KeccakRefinement.

Ltac destruct_lanes s H :=
  repeat (destruct s as [|? s]; [discriminate H|]);
  destruct s; [|discriminate H]; clear H.

Lemma rot_RotateLeft64 w (r : nat) :
  (r < 64)%nat -> KeccakRef.rot w r = Pow.RotateLeft64 w (Z.of_nat r).
Proof.
  intros Hr. unfold KeccakRef.rot, Pow.RotateLeft64, u64.
  assert (Hl : Z.land (Z.of_nat r) 63 = Z.of_nat r).
  { change 63 with (Z.ones 6). rewrite Z.land_ones by lia.
    apply Z.mod_small. change (2 ^ 6) with 64. lia. }
  cbv zeta. rewrite Hl. reflexivity.
Qed.

Lemma RC_table : map KeccakRef.RC (seq 0 24) = Pow.keccakRC.
Proof. vm_compute. reflexivity. Qed.

Lemma RC_nth ir : (ir < 24)%nat -> KeccakRef.RC ir = nth ir Pow.keccakRC 0.
Proof.
  intros H. rewrite <- RC_table.
  do 24 (destruct ir as [|ir]; [reflexivity|]). lia.
Qed.

Lemma rho_table x y :
  (x < 5)%nat -> (y < 5)%nat ->
  Z.of_nat (KeccakRef.rho_offset x y) = nth y (nth x Pow.rho []) 0.
Proof.
  intros Hx Hy.
  do 5 (destruct x as [|x]; [do 5 (destruct y as [|y]; [reflexivity|]); lia|]). lia.
Qed.

Lemma round_body_Rnd_gen rc (s : list Z) :
  length s = 25%nat ->
  Pow.round_body rc s =
  KeccakRef.mk (fun x y =>
    let t := KeccakRef.chi (KeccakRef.pi (KeccakRef.rho (KeccakRef.theta s))) in
    if Nat.eqb x 0 && Nat.eqb y 0 then Z.lxor (KeccakRef.A t x y) rc else KeccakRef.A t x y).
Proof.
  intros H. destruct_lanes s H.
  cbv -[Z.lxor Z.land Pow.RotateLeft64 KeccakRef.rot].
  rewrite !rot_RotateLeft64 by (apply Nat.ltb_lt; reflexivity).
  cbv -[Z.lxor Z.land Pow.RotateLeft64].
  reflexivity.
Qed.

Lemma round_body_Rnd ir (s : list Z) :
  length s = 25%nat -> KeccakRef.Rnd ir s = Pow.round_body (KeccakRef.RC ir) s.
Proof. intros H. rewrite (round_body_Rnd_gen _ _ H). reflexivity. Qed.

Lemma length_mk f : length (KeccakRef.mk f) = 25%nat.
Proof. reflexivity. Qed.

Lemma length_Rnd ir s : length (KeccakRef.Rnd ir s) = 25%nat.
Proof. apply length_mk. Qed.

Lemma length_keccak_f rounds s :
  length s = 25%nat -> length (KeccakRef.keccak_f rounds s) = 25%nat.
Proof.
  unfold KeccakRef.keccak_f. revert s.
  induction rounds as [|r rounds IH]; intros s H; simpl; [done|].
  apply IH, length_Rnd.
Qed.

Lemma fold_left_agree {S R : Type} (I : S -> Prop) (Q : R -> Prop)
    (f g : S -> R -> S) (l : list R) (a : S) :
  (forall a r, I a -> Q r -> f a r = g a r) ->
  (forall a r, I a -> Q r -> I (g a r)) ->
  Forall Q l -> I a -> fold_left f l a = fold_left g l a.
Proof.
  intros Hfg Hinv Hl. revert a.
  induction Hl as [|r l Hr Hl IH]; intros a Ha; cbn [fold_left]; [reflexivity|].
  rewrite (Hfg a r Ha Hr). apply IH. apply Hinv; assumption.
Qed.

(** The Go loop over rounds 1..23 is the reference permutation restricted
    to those rounds. *)
Lemma keccakF1600Rounds1To23_ref (s : list Z) :
  length s = 25%nat ->
  Pow.keccakF1600Rounds1To23 s = KeccakRef.keccak_f (seq 1 23) s.
Proof.
  intros H.
  apply (fold_left_agree (fun s => length s = 25%nat) (fun r => (r < 24)%nat)).
  - intros a r Ha Hr. rewrite <- (RC_nth r Hr). symmetry. exact (round_body_Rnd r a Ha).
  - intros a r _ _. exact (length_Rnd r a).
  - apply Forall_forall. intros r Hr. apply elem_of_seq in Hr. lia.
  - exact H.
Qed.

(** *** Lanes of a block *)

Lemma Z_of_byte_range b : 0 <= Z_of_byte b < 256.
Proof.
  unfold Z_of_byte. pose proof (Byte.to_N_bounded b) as H. lia.
Qed.

Lemma lor_shiftl_add a b n :
  0 <= n -> 0 <= a < 2 ^ n -> 0 <= b -> Z.lor a (Z.shiftl b n) = a + b * 2 ^ n.
Proof.
  intros Hn Ha Hb.
  rewrite Z.shiftl_mul_pow2 by done.
  rewrite <- Z.lxor_lor, <- Z.add_nocarry_lxor; [done| |].
  all: apply Z.bits_inj'; intros m Hm; rewrite Z.land_spec, Z.bits_0;
    destruct (Z.lt_ge_cases m n) as [Hlt|Hge];
    [ rewrite Z.mul_pow2_bits_low by done; apply andb_false_r
    | destruct (Z.eq_dec a 0) as [->|Hne];
      [ rewrite Z.bits_0; done
      | rewrite (Z.bits_above_log2 a m); [done | lia |];
        apply Z.log2_lt_pow2; [lia|]; 
        apply Z.lt_le_trans with (2 ^ n); [lia | apply Z.pow_le_mono_r; lia] ] ].
Qed.

Lemma u64_shiftl_byte z k :
  0 <= z < 256 -> 0 <= k <= 56 -> u64 (Z.shiftl z k) = z * 2 ^ k.
Proof.
  intros Hz Hk. unfold u64. rewrite Z.shiftl_mul_pow2 by lia.
  apply Z.mod_small. split; [apply Z.mul_nonneg_nonneg; [lia|apply Z.pow_nonneg; lia]|].
  apply Z.lt_le_trans with (2 ^ 8 * 2 ^ k).
  - apply Z.mul_lt_mono_pos_r; [apply Z.pow_pos_nonneg; lia | change (2^8) with 256; lia].
  - rewrite <- Z.pow_add_r by lia. apply Z.pow_le_mono_r; lia.
Qed.

Ltac pow_lits :=
  repeat match goal with
         | |- context [2 ^ ?k] =>
             let v := eval vm_compute in (2 ^ k) in change (2 ^ k) with v
         end.

Lemma lor_chain_le z0 z1 z2 z3 z4 z5 z6 z7 :
  0 <= z0 < 256 -> 0 <= z1 < 256 -> 0 <= z2 < 256 -> 0 <= z3 < 256 ->
  0 <= z4 < 256 -> 0 <= z5 < 256 -> 0 <= z6 < 256 -> 0 <= z7 < 256 ->
  Z.lor (Z.lor (Z.lor (Z.lor (Z.lor (Z.lor (Z.lor
    z0
    (u64 (Z.shiftl z1 8)))
    (u64 (Z.shiftl z2 16)))
    (u64 (Z.shiftl z3 24)))
    (u64 (Z.shiftl z4 32)))
    (u64 (Z.shiftl z5 40)))
    (u64 (Z.shiftl z6 48)))
    (u64 (Z.shiftl z7 56))
  = z0 + 256 * (z1 + 256 * (z2 + 256 * (z3 + 256 * (z4 + 256 *
         (z5 + 256 * (z6 + 256 * (z7 + 256 * 0))))))).
Proof.
  intros.
  rewrite !u64_shiftl_byte by lia.
  rewrite <- !Z.shiftl_mul_pow2 by lia.
  rewrite (lor_shiftl_add z0 z1 8) by (pow_lits; lia).
  rewrite (lor_shiftl_add _ z2 16) by (pow_lits; lia).
  rewrite (lor_shiftl_add _ z3 24) by (pow_lits; lia).
  rewrite (lor_shiftl_add _ z4 32) by (pow_lits; lia).
  rewrite (lor_shiftl_add _ z5 40) by (pow_lits; lia).
  rewrite (lor_shiftl_add _ z6 48) by (pow_lits; lia).
  rewrite (lor_shiftl_add _ z7 56) by (pow_lits; lia).
  pow_lits; lia.
Qed.

Lemma load_lane_le_value8 b0 b1 b2 b3 b4 b5 b6 b7 :
  Z.lor (Z.lor (Z.lor (Z.lor (Z.lor (Z.lor (Z.lor
    (Z_of_byte b0)
    (u64 (Z.shiftl (Z_of_byte b1) 8)))
    (u64 (Z.shiftl (Z_of_byte b2) 16)))
    (u64 (Z.shiftl (Z_of_byte b3) 24)))
    (u64 (Z.shiftl (Z_of_byte b4) 32)))
    (u64 (Z.shiftl (Z_of_byte b5) 40)))
    (u64 (Z.shiftl (Z_of_byte b6) 48)))
    (u64 (Z.shiftl (Z_of_byte b7) 56))
  = KeccakRef.le_value [b0; b1; b2; b3; b4; b5; b6; b7].
Proof.
  cbn [KeccakRef.le_value]. apply lor_chain_le; apply Z_of_byte_range.
Qed.

Lemma le_value_app_zeros bs n :
  KeccakRef.le_value (bs ++ repeat x00 n) = KeccakRef.le_value bs.
Proof.
  induction bs as [|b bs IH]; simpl.
  - induction n as [|n IHn]; simpl; [done|]. rewrite IHn. reflexivity.
  - rewrite IH. reflexivity.
Qed.

Lemma nth_take8_pad (l : list byte) k :
  (k < 8)%nat -> nth k l x00 = nth k (take 8 l ++ repeat x00 (8 - length (take 8 l))) x00.
Proof.
  intros Hk.
  do 8 (destruct l as [|? l]; [do 8 (destruct k as [|k]; [reflexivity|]); lia|]).
  do 8 (destruct k as [|k]; [reflexivity|]). lia.
Qed.

Lemma load_lane_le_value (blk : list byte) i :
  Pow.load_lane blk i = KeccakRef.le_value (take 8 (drop (8 * i) blk)).
Proof.
  set (l := drop (8 * i) blk).
  assert (Hn : forall k, Pow.byte_at blk (i * 8 + k) = Z_of_byte (nth k l x00)).
  { intros k. unfold Pow.byte_at, l. f_equal.
    rewrite Nat.mul_comm. symmetry. apply nth_skipn. }
  unfold Pow.load_lane.
  replace (i * 8)%nat with (i * 8 + 0)%nat at 1 by lia.
  rewrite !Hn.
  rewrite <- (le_value_app_zeros (take 8 l) (8 - length (take 8 l))).
  rewrite !(nth_take8_pad l) by lia.
  assert (Hlen : length (take 8 l ++ repeat x00 (8 - length (take 8 l))) = 8%nat).
  { rewrite length_app, repeat_length, length_take. lia. }
  revert Hlen. generalize (take 8 l ++ repeat x00 (8 - length (take 8 l))).
  intros l8 Hlen.
  do 8 (destruct l8 as [|? l8]; [discriminate Hlen|]).
  destruct l8; [|discriminate Hlen].
  apply load_lane_le_value8.
Qed.

Lemma le_value_drop_ge (blk : list byte) n :
  (length blk <= n)%nat -> KeccakRef.le_value (take 8 (drop n blk)) = 0.
Proof. intros H. rewrite drop_ge by done. reflexivity. Qed.

Lemma xor_block_ref (st : list Z) (blk : list byte) :
  length st = 25%nat -> (length blk <= 136)%nat ->
  Pow.xor_block st blk = KeccakRef.xor_state st (KeccakRef.block_lanes blk).
Proof.
  intros H Hb. destruct_lanes st H.
  cbv -[Z.lxor Pow.load_lane KeccakRef.le_value firstn skipn].
  rewrite !load_lane_le_value.
  rewrite (le_value_drop_ge blk 136), (le_value_drop_ge blk 144),
    (le_value_drop_ge blk 152), (le_value_drop_ge blk 160),
    (le_value_drop_ge blk 168), (le_value_drop_ge blk 176),
    (le_value_drop_ge blk 184), (le_value_drop_ge blk 192) by lia.
  rewrite !Z.lxor_0_r.
  cbv -[Z.lxor KeccakRef.le_value firstn skipn].
  reflexivity.
Qed.

(** *** Output bytes *)

Lemma byte_of_Z_mod v : byte_of_Z (v mod 256) = byte_of_Z v.
Proof. unfold byte_of_Z. rewrite Z.mod_mod by lia. reflexivity. Qed.

Lemma le_bytes_shiftr n w k :
  0 <= k ->
  KeccakRef.le_bytes n (Z.shiftr w k) =
  map (fun j => byte_of_Z (Z.shiftr w (k + 8 * Z.of_nat j))) (seq 0 n).
Proof.
  revert k. induction n as [|n IH]; intros k Hk; [reflexivity|].
  cbn [KeccakRef.le_bytes seq map]. f_equal.
  - rewrite byte_of_Z_mod. do 2 f_equal. lia.
  - change 256 with (2 ^ 8). rewrite <- Z.shiftr_div_pow2 by lia.
    rewrite Z.shiftr_shiftr by lia. rewrite IH by lia.
    rewrite <- seq_shift, map_map. apply map_ext. intros j. do 2 f_equal. lia.
Qed.

Lemma le_bytes8 w :
  KeccakRef.le_bytes 8 w =
  [ byte_of_Z w; byte_of_Z (Z.shiftr w 8); byte_of_Z (Z.shiftr w 16);
    byte_of_Z (Z.shiftr w 24); byte_of_Z (Z.shiftr w 32); byte_of_Z (Z.shiftr w 40);
    byte_of_Z (Z.shiftr w 48); byte_of_Z (Z.shiftr w 56) ].
Proof.
  rewrite <- (Z.shiftr_0_r w) at 1. rewrite le_bytes_shiftr by lia.
  cbn [seq map]. rewrite Z.shiftr_0_r. reflexivity.
Qed.

Lemma state_out_squeeze (st : list Z) :
  length st = 25%nat -> Pow.state_out st = KeccakRef.squeeze 32 st.
Proof.
  intros H. destruct_lanes st H.
  unfold KeccakRef.squeeze. cbn [map concat]. rewrite !le_bytes8.
  cbv -[byte_of_Z Z.shiftr]. reflexivity.
Qed.

(** *** Padding and blocks *)

Lemma or_last_snoc bs b :
  KeccakRef.or_last (bs ++ [b]) = bs ++ [byte_of_Z (Z.lor (Z_of_byte b) 0x80)].
Proof.
  unfold KeccakRef.or_last. rewrite rev_app_distr. cbn [rev app].
  rewrite rev_involutive. reflexivity.
Qed.

Lemma or_last_insert (bs : list byte) :
  bs <> [] ->
  KeccakRef.or_last bs =
  <[(length bs - 1)%nat := byte_of_Z (Z.lor (Z_of_byte (nth (length bs - 1) bs x00)) 0x80)]> bs.
Proof.
  intros Hne. destruct (exists_last Hne) as (l & b & ->).
  rewrite or_last_snoc, length_app. cbn [length].
  replace (length l + 1 - 1)%nat with (length l + 0)%nat by lia.
  rewrite app_nth2_plus. cbn [nth].
  rewrite insert_app_r. reflexivity.
Qed.

Lemma or_last_app (xs ys : list byte) :
  ys <> [] -> KeccakRef.or_last (xs ++ ys) = xs ++ KeccakRef.or_last ys.
Proof.
  intros Hne. destruct (exists_last Hne) as (l & b & ->).
  rewrite app_assoc, !or_last_snoc, app_assoc. reflexivity.
Qed.

Lemma or_last_length bs : length (KeccakRef.or_last bs) = length bs.
Proof.
  destruct (decide (bs = [])) as [->|Hne]; [reflexivity|].
  rewrite or_last_insert by done. apply length_insert.
Qed.

Lemma drop_repeat {T} (x : T) n m : drop n (repeat x m) = repeat x (m - n).
Proof.
  revert m. induction n as [|n IH]; intros [|m]; cbn; try reflexivity. apply IH.
Qed.

Lemma pad_short (rem : list byte) :
  (length rem < Pow.rate)%nat -> KeccakRef.pad Pow.rate rem = Pow.final_block rem.
Proof.
  intros Hlt. unfold KeccakRef.pad, Pow.final_block. cbv zeta.
  set (n := length rem) in *.
  assert (Hz : ((Pow.rate - length (rem ++ [byte_of_Z 6]) mod Pow.rate) mod Pow.rate
                = Pow.rate - 1 - n)%nat).
  { rewrite length_app. cbn [length]. fold n. unfold Pow.rate in *.
    destruct (decide (n + 1 = 136)%nat) as [E|E].
    - rewrite E. cbn. lia.
    - rewrite (Nat.mod_small (n + 1)) by lia. rewrite Nat.mod_small by lia. lia. }
  rewrite Hz.
  assert (Hfin :
    <[n := byte_of_Z 6]> (take Pow.rate rem ++ drop n (repeat x00 Pow.rate))
    = (rem ++ [byte_of_Z 6]) ++ repeat x00 (Pow.rate - 1 - n)).
  { rewrite take_ge by (fold n; lia). rewrite drop_repeat.
    replace (Pow.rate - n)%nat with (S (Pow.rate - 1 - n)) by (unfold Pow.rate in *; lia).
    cbn [repeat]. replace n with (length rem + 0)%nat at 1 by (fold n; lia).
    rewrite insert_app_r. cbn. rewrite <- app_assoc. reflexivity. }
  rewrite Hfin.
  rewrite or_last_insert by (intros E; apply (f_equal length) in E;
                             rewrite !length_app in E; cbn in E; lia).
  assert (Hl : length ((rem ++ [byte_of_Z 6]) ++ repeat x00 (Pow.rate - 1 - n)) = Pow.rate).
  { rewrite !length_app, repeat_length. cbn [length]. fold n. unfold Pow.rate in *. lia. }
  rewrite Hl. reflexivity.
Qed.


Lemma pad_app (blk rest : list byte) :
  length blk = Pow.rate ->
  KeccakRef.pad Pow.rate (blk ++ rest) = blk ++ KeccakRef.pad Pow.rate rest.
Proof.
  intros Hb. unfold KeccakRef.pad. cbv zeta.
  rewrite <- !app_assoc.
  rewrite or_last_app.
  2:{ intros E. apply (f_equal length) in E. rewrite !length_app in E. cbn in E. lia. }
  do 3 f_equal. f_equal. f_equal.
  rewrite !length_app, Hb. cbn [length].
  rewrite <- Nat.Div0.add_mod_idemp_l, Nat.Div0.mod_same. reflexivity.
Qed.

Lemma pad_nonempty r m : KeccakRef.pad r m <> [].
Proof.
  intros E. apply (f_equal length) in E. unfold KeccakRef.pad in E.
  rewrite or_last_length, !length_app in E. cbn in E. lia.
Qed.

Lemma blocks_nil fuel r : KeccakRef.blocks fuel r [] = [].
Proof. destruct fuel; reflexivity. Qed.

Lemma blocks_fuel f1 f2 r (m : list byte) :
  (0 < r)%nat -> (length m <= f1)%nat -> (length m <= f2)%nat ->
  KeccakRef.blocks f1 r m = KeccakRef.blocks f2 r m.
Proof.
  intros Hr. revert f2 m.
  induction f1 as [|f1 IH]; intros f2 m H1 H2.
  - destruct m; [|cbn in H1; lia]. rewrite !blocks_nil. reflexivity.
  - destruct m as [|b m]; [rewrite !blocks_nil; reflexivity|].
    destruct f2 as [|f2]; [cbn in H2; lia|].
    cbn [KeccakRef.blocks]. f_equal.
    apply IH; rewrite length_drop; cbn [length] in *; lia.
Qed.

Lemma blocks_app f f' (blk p : list byte) :
  length blk = Pow.rate -> (length (blk ++ p) <= f')%nat -> (length p <= f)%nat ->
  KeccakRef.blocks f' Pow.rate (blk ++ p) = blk :: KeccakRef.blocks f Pow.rate p.
Proof.
  intros Hb Hf' Hf.
  destruct f' as [|f'].
  { rewrite length_app, Hb in Hf'. unfold Pow.rate in Hf'. lia. }
  destruct blk as [|b blk]; [discriminate Hb|].
  change (KeccakRef.blocks (S f') Pow.rate ((b :: blk) ++ p))
    with (take Pow.rate ((b :: blk) ++ p)
            :: KeccakRef.blocks f' Pow.rate (drop Pow.rate ((b :: blk) ++ p))).
  rewrite <- Hb at 1 3. rewrite take_app_length, drop_app_length. f_equal.
  rewrite length_app, Hb in Hf'. unfold Pow.rate in *.
  apply blocks_fuel; lia.
Qed.

(** One absorbed block: the Go loop body against the reference. *)
Lemma absorb_block (st : list Z) (blk : list byte) :
  length st = 25%nat -> (length blk <= 136)%nat ->
  Pow.keccakF1600Rounds1To23 (Pow.xor_block st blk)
  = KeccakRef.absorb (seq 1 23) st blk.
Proof.
  intros Hs Hb. unfold KeccakRef.absorb.
  rewrite xor_block_ref by done. apply keccakF1600Rounds1To23_ref, length_mk.
Qed.

Lemma length_absorb rounds st blk :
  length (KeccakRef.absorb rounds st blk) = 25%nat.
Proof. apply length_keccak_f, length_mk. Qed.

Lemma length_final_block rem :
  (length rem < Pow.rate)%nat -> length (Pow.final_block rem) = Pow.rate.
Proof.
  intros H. unfold Pow.final_block. cbv zeta.
  rewrite !length_insert, length_app, length_take, length_drop, repeat_length. lia.
Qed.

Lemma absorb_loop_ref fuel (data : list byte) (st : list Z) off :
  (length data - off <= fuel)%nat -> length st = 25%nat ->
  let r := Pow.absorb_loop fuel data st off in
  let p := KeccakRef.pad Pow.rate (drop off data) in
  Pow.keccakF1600Rounds1To23
    (Pow.xor_block (fst r) (Pow.final_block (drop (snd r) data)))
  = fold_left (KeccakRef.absorb (seq 1 23))
              (KeccakRef.blocks (length p) Pow.rate p) st.
Proof.
  revert st off. 
  assert (Hexit : forall st off,
    length st = 25%nat -> ~ (off + Pow.rate <= length data)%nat ->
    Pow.keccakF1600Rounds1To23
      (Pow.xor_block st (Pow.final_block (drop off data)))
    = fold_left (KeccakRef.absorb (seq 1 23))
        (KeccakRef.blocks (length (KeccakRef.pad Pow.rate (drop off data))) Pow.rate
           (KeccakRef.pad Pow.rate (drop off data))) st).
  { intros st off Hs Hn.
    assert (Hlt : (length (drop off data) < Pow.rate)%nat) by (rewrite length_drop; unfold Pow.rate in *; lia).
    rewrite pad_short by done.
    pose proof (length_final_block _ Hlt) as Hl.
    set (fb := Pow.final_block (drop off data)) in *.
    assert (Hone : KeccakRef.blocks (length fb) Pow.rate fb = [fb]).
    { rewrite <- (app_nil_r fb) at 2.
      rewrite (blocks_app 0) by (rewrite ?app_nil_r; cbn [length]; lia).
      rewrite blocks_nil. reflexivity. }
    rewrite Hone. cbn [fold_left].
    apply absorb_block; [done | rewrite Hl; unfold Pow.rate; lia]. }
  induction fuel as [|fuel IH]; intros st off Hf Hs; cbv zeta.
  - cbn [Pow.absorb_loop fst snd]. apply Hexit; [done | unfold Pow.rate; lia].
  - cbn [Pow.absorb_loop]. destruct (decide (off + Pow.rate <= length data)%nat) as [Hle|Hn].
    + cbv zeta.
      specialize (IH (Pow.keccakF1600Rounds1To23
                        (Pow.xor_block st (Pow.slice data off (off + Pow.rate))))
                     (off + Pow.rate)%nat).
      cbv zeta in IH. rewrite IH.
      2: unfold Pow.rate in *; lia.
      2:{ rewrite absorb_block; [apply length_absorb | done |].
          unfold Pow.slice. rewrite length_take. unfold Pow.rate. lia. }
      assert (Hsplit : drop off data
                       = Pow.slice data off (off + Pow.rate) ++ drop (off + Pow.rate) data).
      { unfold Pow.slice. replace (off + Pow.rate - off)%nat with Pow.rate by lia.
        rewrite <- drop_drop. symmetry. apply take_drop. }
      assert (Hbl : length (Pow.slice data off (off + Pow.rate)) = Pow.rate).
      { unfold Pow.slice. rewrite length_take, length_drop. lia. }
      assert (Hp : KeccakRef.pad Pow.rate (drop off data)
                   = Pow.slice data off (off + Pow.rate)
                       ++ KeccakRef.pad Pow.rate (drop (off + Pow.rate) data)).
      { rewrite Hsplit at 1. apply pad_app, Hbl. }
      rewrite Hp.
      rewrite (blocks_app (length (KeccakRef.pad Pow.rate (drop (off + Pow.rate) data))))
        by done.
      cbn [fold_left]. rewrite absorb_block; [reflexivity | done |].
      rewrite Hbl. unfold Pow.rate. lia.
    + cbn [fst snd]. apply Hexit; done.
Qed.


Lemma length_fold_absorb rounds blks st :
  length st = 25%nat -> length (fold_left (KeccakRef.absorb rounds) blks st) = 25%nat.
Proof.
  revert st. induction blks as [|b blks IH]; intros st H; cbn [fold_left]; [done|].
  apply IH, length_absorb.
Qed.

(** *** The lanes stay 64-bit words *)

Lemma word64_bits w : 0 <= w -> (forall i, 64 <= i -> Z.testbit w i = false) -> word64 w.
Proof.
  intros Hw Hb. split; [exact Hw|].
  destruct (Z.eq_dec w 0) as [->|Hne]; [reflexivity|].
  apply Z.log2_lt_pow2; [lia|].
  destruct (Z.lt_ge_cases (Z.log2 w) 64) as [Hlt|Hge]; [exact Hlt|].
  pose proof (Z.bit_log2 w ltac:(lia)) as Hbit. rewrite (Hb _ Hge) in Hbit. discriminate Hbit.
Qed.

Lemma word64_high w i : word64 w -> 64 <= i -> Z.testbit w i = false.
Proof.
  intros [Hw Hlt] Hi. destruct (Z.eq_dec w 0) as [->|Hne]; [apply Z.bits_0|].
  apply Z.bits_above_log2; [exact Hw|].
  apply Z.lt_le_trans with 64; [|exact Hi]. apply Z.log2_lt_pow2; lia.
Qed.

Lemma word64_lxor a b : word64 a -> word64 b -> word64 (Z.lxor a b).
Proof.
  intros Ha Hb. apply word64_bits.
  - apply Z.lxor_nonneg. destruct Ha, Hb. split; intros; assumption.
  - intros i Hi. rewrite Z.lxor_spec, (word64_high a i Ha Hi), (word64_high b i Hb Hi).
    reflexivity.
Qed.

Lemma word64_land a b : word64 a -> word64 b -> word64 (Z.land a b).
Proof.
  intros Ha Hb. apply word64_bits.
  - apply Z.land_nonneg. left. apply Ha.
  - intros i Hi. rewrite Z.land_spec, (word64_high a i Ha Hi). reflexivity.
Qed.

Lemma word64_lnot a : word64 a -> word64 (KeccakRef.lnot a).
Proof.
  intros Ha. unfold KeccakRef.lnot. apply word64_lxor; [exact Ha|].
  unfold word64. rewrite Z.ones_equiv. lia.
Qed.

(** The reference's [rot] is the cyclic shift of the standard: bit [i]
    of the result is bit [i - r mod 64] of the word. *)
Lemma rot_testbit w (r : nat) i :
  word64 w -> (r < 64)%nat -> 0 <= i < 64 ->
  Z.testbit (KeccakRef.rot w r) i = Z.testbit w ((i - Z.of_nat r) mod 64).
Proof.
  intros Hw Hr Hi. unfold KeccakRef.rot.
  rewrite Z.lor_spec, Z.mod_pow2_bits_low by lia.
  rewrite Z.shiftl_spec, Z.shiftr_spec by lia.
  destruct (Z.lt_ge_cases i (Z.of_nat r)) as [Hlt|Hge].
  - rewrite (Z.testbit_neg_r w (i - Z.of_nat r)) by lia. cbn [orb].
    f_equal. symmetry.
    rewrite <- (Z.mod_add _ 1 64) by lia.
    replace (i - Z.of_nat r + 1 * 64) with (i + (64 - Z.of_nat r)) by lia.
    apply Z.mod_small. lia.
  - rewrite (word64_high w (i + (64 - Z.of_nat r)) Hw) by lia. rewrite orb_false_r.
    f_equal. symmetry. apply Z.mod_small. lia.
Qed.

Lemma word64_rot w (r : nat) : word64 w -> (r < 64)%nat -> word64 (KeccakRef.rot w r).
Proof.
  intros Hw Hr. unfold KeccakRef.rot. apply word64_bits.
  - apply Z.lor_nonneg. split.
    + apply Z.mod_pos_bound. lia.
    + apply Z.shiftr_nonneg. apply Hw.
  - intros i Hi. rewrite Z.lor_spec, Z.mod_pow2_bits_high by lia. cbn [orb].
    rewrite Z.shiftr_spec by lia. apply word64_high; [exact Hw | lia].
Qed.

Lemma word64_le_value (bs : list byte) :
  (length bs <= 8)%nat -> word64 (KeccakRef.le_value bs).
Proof.
  intros Hl.
  assert (G : forall l : list byte,
             0 <= KeccakRef.le_value l < 256 ^ Z.of_nat (length l)).
  { induction l as [|b l IH]; [cbn; lia|].
    cbn [KeccakRef.le_value length]. rewrite Nat2Z.inj_succ, Z.pow_succ_r by lia.
    pose proof (Z_of_byte_range b). lia. }
  destruct (G bs) as [H0 H1]. split; [exact H0|].
  apply Z.lt_le_trans with (256 ^ Z.of_nat (length bs)); [exact H1|].
  change (2 ^ 64) with (256 ^ 8). apply Z.pow_le_mono_r; lia.
Qed.

Lemma word64_A s x y : Forall word64 s -> word64 (KeccakRef.A s x y).
Proof.
  intros Hs. unfold KeccakRef.A.
  destruct (nth_in_or_default (x mod 5 + 5 * (y mod 5)) s 0) as [Hin| ->].
  - rewrite Forall_forall in Hs. apply Hs. apply list_elem_of_In. exact Hin.
  - unfold word64. lia.
Qed.

Lemma word64_mk f :
  (forall x y, (x < 5)%nat -> (y < 5)%nat -> word64 (f x y)) -> Forall word64 (KeccakRef.mk f).
Proof.
  intros Hf. unfold KeccakRef.mk. apply Forall_forall. intros w Hw.
  apply list_elem_of_In, in_map_iff in Hw as (i & <- & Hi). apply in_seq in Hi.
  apply Hf; [apply Nat.mod_upper_bound; lia | apply Nat.Div0.div_lt_upper_bound; lia].
Qed.

Lemma rho_offset_lt x y : (x < 5)%nat -> (y < 5)%nat -> (KeccakRef.rho_offset x y < 64)%nat.
Proof.
  intros Hx Hy.
  do 5 (destruct x as [|x];
        [do 5 (destruct y as [|y]; [vm_compute; lia|]); lia|]). lia.
Qed.

Lemma word64_Rnd ir s : (ir < 24)%nat -> Forall word64 s -> Forall word64 (KeccakRef.Rnd ir s).
Proof.
  intros Hir Hs. unfold KeccakRef.Rnd.
  assert (Ht : Forall word64 (KeccakRef.theta s)).
  { apply word64_mk. intros x y _ _. apply word64_lxor; [apply word64_A, Hs|].
    unfold KeccakRef.D, KeccakRef.C.
    repeat first [apply word64_lxor | apply word64_rot | apply word64_A | exact Hs | lia].
 }
  assert (Hr : Forall word64 (KeccakRef.rho (KeccakRef.theta s))).
  { apply word64_mk. intros x y Hx Hy.
    apply word64_rot; [apply word64_A, Ht | apply rho_offset_lt; assumption]. }
  assert (Hp : Forall word64 (KeccakRef.pi (KeccakRef.rho (KeccakRef.theta s)))).
  { apply word64_mk. intros x y _ _. apply word64_A, Hr. }
  assert (Hc : Forall word64
                 (KeccakRef.chi (KeccakRef.pi (KeccakRef.rho (KeccakRef.theta s))))).
  { apply word64_mk. intros x y _ _.
    repeat first [apply word64_lnot | apply word64_lxor | apply word64_land
                 | apply word64_A | exact Hp]. }
  apply word64_mk. intros x y _ _.
  destruct (Nat.eqb x 0 && Nat.eqb y 0); [|apply word64_A, Hc].
  apply word64_lxor; [apply word64_A, Hc|].
  rewrite RC_nth by exact Hir.
  do 24 (destruct ir as [|ir]; [vm_compute; split; [discriminate | reflexivity]|]). lia.
Qed.


Lemma word64_keccak_f rounds s :
  Forall (fun ir => (ir < 24)%nat) rounds -> Forall word64 s ->
  Forall word64 (KeccakRef.keccak_f rounds s).
Proof.
  unfold KeccakRef.keccak_f. intros Hr. revert s.
  induction Hr as [|ir rounds Hir Hr IH]; intros s Hs; cbn [fold_left]; [exact Hs|].
  apply IH, word64_Rnd; assumption.
Qed.

Lemma word64_absorb (st : list Z) (blk : list byte) :
  Forall word64 st -> Forall word64 (KeccakRef.absorb (seq 1 23) st blk).
Proof.
  intros Hs. unfold KeccakRef.absorb. apply word64_keccak_f.
  - apply Forall_forall. intros r Hr. apply elem_of_seq in Hr. lia.
  - apply word64_mk. intros x y _ _. apply word64_lxor; [apply word64_A, Hs|].
    apply word64_A. unfold KeccakRef.block_lanes. apply Forall_forall. intros w Hw.
    apply list_elem_of_In, in_map_iff in Hw as (i & <- & _).
    apply word64_le_value. rewrite length_take. lia.
Qed.

(** Every state the Go loop produces consists of 64-bit words, so the
    operations left without a wrap-around ([^], [&]) never need one. *)
Lemma keccakF1600Rounds1To23_word64 (st : list Z) (blk : list byte) :
  length st = 25%nat -> (length blk <= 136)%nat -> Forall word64 st ->
  Forall word64 (Pow.keccakF1600Rounds1To23 (Pow.xor_block st blk)).
Proof.
  intros Hl Hb Hs. rewrite absorb_block by assumption. apply word64_absorb, Hs.
Qed.

(** Test vectors: with all 24 rounds the reference is SHA3-256. *)
Example sha3_256_empty :
  map Byte.to_N (KeccakRef.sha3_256 []) =
  [0xa7; 0xff; 0xc6; 0xf8; 0xbf; 0x1e; 0xd7; 0x66; 0x51; 0xc1; 0x47; 0x56; 0xa0; 0x61;
   0xd6; 0x62; 0xf5; 0x80; 0xff; 0x4d; 0xe4; 0x3b; 0x49; 0xfa; 0x82; 0xd8; 0x0a; 0x4b;
   0x80; 0xf8; 0x43; 0x4a]%N.
Proof. vm_compute. reflexivity. Qed.

Example sha3_256_abc :
  map Byte.to_N (KeccakRef.sha3_256 (bytes_of_string "abc")) =
  [0x3a; 0x98; 0x5d; 0xa7; 0x4f; 0xe2; 0x25; 0xb2; 0x04; 0x5c; 0x17; 0x2d; 0x6b; 0xd3;
   0x90; 0xbd; 0x85; 0x5f; 0x08; 0x6e; 0x3e; 0x9d; 0x52; 0x5b; 0x46; 0xbf; 0xe2; 0x45;
   0x11; 0x43; 0x15; 0x32]%N.
Proof. vm_compute. reflexivity. Qed.

(** Skipping round 0 matters: the digest of the empty string is not its
    SHA3-256 digest. *)
Example deepSeekHashV1_is_not_sha3_256 : Pow.deepSeekHashV1 [] <> KeccakRef.sha3_256 [].
Proof. vm_compute. discriminate. Qed.

End KeccakRefinement.

(** C1. For every byte string, [deepSeekHashV1] computes the Keccak-f[1600]
    sponge of the standard with rate 136 and the SHA-3 padding (append 0x06,
    zero-pad to the rate boundary, OR the last byte with 0x80) in which every
    permutation call runs rounds 1..23 only (round 0 and its constant are
    skipped); the result is the first 32 bytes of the final state, lanes in
    order, each lane little-endian. *)
Theorem deepSeekHashV1_is_sponge_rounds_1_23 (data : list byte) :
  Pow.deepSeekHashV1 data = KeccakRef.sponge (seq 1 23) 136 32 data
  /\ length (Pow.deepSeekHashV1 data) = 32%nat.
Proof.
  assert (Href : Pow.deepSeekHashV1 data = KeccakRef.sponge (seq 1 23) 136 32 data).
  { unfold Pow.deepSeekHashV1, KeccakRef.sponge.
    pose proof (absorb_loop_ref (length data) data (repeat 0 25) 0) as H.
    cbv zeta in H. rewrite drop_0 in H.
    destruct (Pow.absorb_loop (length data) data (repeat 0 25) 0) as [st off].
    cbn [fst snd] in H. rewrite H by (first [lia | reflexivity]).
    apply state_out_squeeze, length_fold_absorb. reflexivity. }
  split; [exact Href|].
  rewrite Href. unfold KeccakRef.sponge, KeccakRef.squeeze. cbv zeta.
  rewrite length_take.
  assert (Hl : forall s : list Z,
             length (concat (map (KeccakRef.le_bytes 8) s)) = (8 * length s)%nat).
  { induction s as [|w s IH]; [reflexivity|].
    cbn [map concat]. rewrite length_app, IH. cbn [length]. 
    assert (forall n v, length (KeccakRef.le_bytes n v) = n) as Hb.
    { induction n; intros v; cbn; [done|]. by rewrite IHn. }
    rewrite Hb. lia. }
  rewrite Hl, length_fold_absorb by reflexivity. reflexivity.
Qed.
(** The digest is a [[32]byte]. *)
Lemma length_state_out (st : list Z) : length (Pow.state_out st) = 32%nat.
Proof.
  unfold Pow.state_out. cbn [fold_left seq]. rewrite !length_insert. reflexivity.
Qed.

Lemma length_deepSeekHashV1 (data : list byte) :
  length (Pow.deepSeekHashV1 data) = 32%nat.
Proof.
  unfold Pow.deepSeekHashV1.
  destruct (Pow.absorb_loop (length data) data (repeat 0 25) 0) as [st off].
  apply length_state_out.
Qed.


(** * The proof-of-work solver *)

Opaque Pow.deepSeekHashV1.

Section Solver.

Lemma solve_loop_S fuel now iter target base expireAt nonce :
  Pow.solve_loop (S fuel) now iter target base expireAt nonce
  = if (0 <? expireAt) && (expireAt <=? now iter) then Some (0, false)
    else if pow_value base nonce <? target then Some (nonce, true)
         else Pow.solve_loop fuel now (S iter) target base expireAt (i64 (nonce + 1)).
Proof. unfold pow_value. cbn [Pow.solve_loop]. reflexivity. Qed.

Lemma solve_loop_found fuel now iter target base expireAt (i : nat) n :
  Pow.solve_loop fuel now iter target base expireAt (i64 (Z.of_nat i)) = Some (n, true) ->
  exists k : nat,
    (i <= k < i + fuel)%nat /\ n = i64 (Z.of_nat k) /\
    pow_value base n < target /\
    forall j : nat, (i <= j < k)%nat -> target <= pow_value base (i64 (Z.of_nat j)).
Proof.
  revert iter i. induction fuel as [|fuel IH]; intros iter i H; [discriminate H|].
  rewrite solve_loop_S in H.
  destruct ((0 <? expireAt) && (expireAt <=? now iter)); [discriminate H|].
  destruct (Z.ltb_spec (pow_value base (i64 (Z.of_nat i))) target) as [Hlt|Hge].
  - injection H as <-. exists i.
    split; [lia|]. split; [reflexivity|]. split; [exact Hlt|]. intros j Hj. lia.
  - rewrite i64_succ in H.
    replace (Z.of_nat i + 1) with (Z.of_nat (S i)) in H by lia.
    apply IH in H as (k & Hk & -> & Hb & Hall).
    exists k. split; [lia|]. split; [reflexivity|]. split; [exact Hb|].
    intros j Hj. destruct (decide (j = i)) as [->|Hne]; [exact Hge|].
    apply Hall. lia.
Qed.



End Solver.

(** C2. Whenever the native [Solve] returns [(n, true)] for a difficulty
    [d > 0], the little-endian value of
    DeepSeekHashV1(challenge ++ salt ++ "_" ++ decimal(expire_at) ++ "_" ++ decimal(n))
    is below [floor(2^256 / d)], no non-negative integer smaller than [n]
    has that property, and [n] itself is non-negative (the nonce is an
    [int64] counted up from 0, so this last part holds as long as fewer
    than 2^63 nonces were tried). *)
Theorem solveNative_returns_least_nonce
    (s : Pow.DeepSeekHashSolver) (fuel : nat) (now : nat -> Z)
    (algorithm challenge salt signature targetPath : string) (d expireAt n : Z) :
  Pow.mode s = "native"%string ->
  0 < d ->
  Pow.Solve s fuel now algorithm challenge salt d expireAt signature targetPath
    = Some (n, true) ->
  let value m :=
    Pow.littleEndianInt
      (Pow.deepSeekHashV1
         (bytes_of_string
            (challenge ++ salt ++ "_" ++ Strings.FormatInt expireAt ++ "_"
               ++ Strings.FormatInt m))) in
  value n < 2 ^ 256 / d
  /\ (forall m, 0 <= m < n -> ~ value m < 2 ^ 256 / d)
  /\ (Z.of_nat fuel <= 2 ^ 63 -> 0 <= n).
Proof.
  intros Hmode Hd Hsolve value.
  unfold Pow.Solve in Hsolve. rewrite Hmode in Hsolve. cbn [String.eqb orb] in Hsolve.
  change (("native" =? "native")%string) with true in Hsolve. cbn [orb] in Hsolve.
  unfold Pow.solveNative in Hsolve.
  destruct (negb _); [discriminate Hsolve|].
  unfold Pow.targetFromDifficulty in Hsolve.
  destruct (Z.leb_spec d 0) as [?|_]; [lia|]. cbv zeta in Hsolve.
  change (Z.shiftl 1 256) with (2 ^ 256) in Hsolve.
  assert (Hval : forall m,
    value m = pow_value (challenge ++ salt ++ "_" ++ Strings.FormatInt expireAt ++ "_") m).
  { intros m. unfold value, pow_value, Pow.nonce_input. do 3 f_equal.
    rewrite !append_assoc. reflexivity. }
  change 0 with (i64 (Z.of_nat 0)) in Hsolve at 1.
  apply solve_loop_found in Hsolve as (k & Hk & -> & Hb & Hall).
  rewrite !Hval. split; [exact Hb|]. split.
  - intros m Hm. rewrite Hval.
    pose proof (i64_le (Z.of_nat k) ltac:(lia)) as Hle.
    pose proof (i64_range (Z.of_nat k)) as Hr.
    specialize (Hall (Z.to_nat m) ltac:(lia)).
    rewrite Z2Nat.id, i64_small in Hall by lia. lia.
  - intros Hf. rewrite i64_small by lia. lia.
Qed.

Lemma solveNative_returns_least_nonce_witness :
  let value m :=
    Pow.littleEndianInt
      (Pow.deepSeekHashV1
         (bytes_of_string
            ("abc" ++ "salt" ++ "_" ++ Strings.FormatInt 0 ++ "_" ++ Strings.FormatInt m))) in
  value 2 < 2 ^ 256 / 4
  /\ (forall m, 0 <= m < 2 -> ~ value m < 2 ^ 256 / 4)
  /\ (Z.of_nat 100 <= 2 ^ 63 -> 0 <= 2).
Proof.
  apply (solveNative_returns_least_nonce
           {| Pow.mode := "native";
              Pow.wasm := {| Pow.init_ok := false; Pow.add_stack_ok := false;
                             Pow.encode_challenge_ok := false;
                             Pow.encode_prefix_ok := false; Pow.call_ok := false;
                             Pow.status_read := None; Pow.value_read := None |} |}
           100 (fun _ => 0) "DeepSeekHashV1" "abc" "salt" "" "" 4 0 2).
  - reflexivity.
  - lia.
  - vm_compute. reflexivity.
Defined.





(** The fall-back, concretely: a module that cannot be loaded leaves the
    solve to the native search, at difficulty 1 and at difficulty 0. *)
Example solve_wasm_fallback_difficulty_le_one :
  let s := {| Pow.mode := "wasm";
              Pow.wasm := {| Pow.init_ok := false; Pow.add_stack_ok := false;
                             Pow.encode_challenge_ok := false;
                             Pow.encode_prefix_ok := false; Pow.call_ok := false;
                             Pow.status_read := None; Pow.value_read := None |} |} in
  Pow.Solve s 1 (fun _ => 5) "DeepSeekHashV1" "c" "s" 1 60 "sig" "/p" = Some (0, true)
  /\ Pow.Solve s 1 (fun _ => 5) "DeepSeekHashV1" "c" "s" 0 60 "sig" "/p" = Some (0, false).
Proof. vm_compute. split; reflexivity. Qed.


(** * The answer cache *)

Section CacheProofs.

Lemma Get_nonpositive_expiry (c : gmap string Cache.entry) key e now :
  c !! key = Some e ->
  Cache.ExpireAt e <= 0 \/ now < Cache.ExpireAt e ->
  Cache.Get c key now = (c, (Cache.Val e, true)).
Proof.
  intros Hc He. unfold Cache.Get. rewrite Hc.
  destruct (Z.ltb_spec 0 (Cache.ExpireAt e)); [|reflexivity].
  destruct (Z.leb_spec (Cache.ExpireAt e) now); [lia | reflexivity].
Qed.

Lemma stored_expiry expireAt now :
  minInt64 <= expireAt <= 0 -> now < maxInt64 ->
  i64 (expireAt - 1) <= 0 \/ now < i64 (expireAt - 1).
Proof.
  unfold minInt64, maxInt64. intros He Hn.
  destruct (decide (expireAt = - 2 ^ 63)) as [->|Hne].
  - right. change (i64 (- 2 ^ 63 - 1)) with (2 ^ 63 - 1). exact Hn.
  - left. rewrite i64_small by lia. lia.
Qed.

Lemma step_keeps (c : gmap string Cache.entry) key e o :
  c !! key = Some e ->
  (forall now, now < maxInt64 -> Cache.ExpireAt e <= 0 \/ now < Cache.ExpireAt e) ->
  Cache.leaves key o ->
  Cache.step c o !! key = Some e.
Proof.
  intros Hc He Hk. destruct o as [k now|k v ex now]; cbn [Cache.step Cache.leaves] in *.
  - destruct (decide (k = key)) as [->|Hne].
    + rewrite (Get_nonpositive_expiry c key e now Hc (He now Hk)). exact Hc.
    + unfold Cache.Get. destruct (c !! k) as [e'|]; [|exact Hc].
      destruct ((0 <? Cache.ExpireAt e') && (Cache.ExpireAt e' <=? now)); [|exact Hc].
      cbn [fst]. rewrite lookup_delete_ne by done. exact Hc.
  - unfold Cache.Set_. destruct ((0 <? ex) && (ex <=? now)); [exact Hc|].
    rewrite lookup_insert_ne by done. exact Hc.
Qed.

Lemma run_keeps ops (c : gmap string Cache.entry) key e :
  c !! key = Some e ->
  (forall now, now < maxInt64 -> Cache.ExpireAt e <= 0 \/ now < Cache.ExpireAt e) ->
  Forall (Cache.leaves key) ops ->
  Cache.run c ops !! key = Some e.
Proof.
  intros Hc He Hops. revert c Hc. unfold Cache.run.
  induction Hops as [|o ops Ho Hops IH]; intros c Hc; cbn [fold_left]; [exact Hc|].
  apply IH. apply step_keeps; assumption.
Qed.

End CacheProofs.

(** C10. A [Set] whose [expire_at] is at most 0 stores the entry whatever
    the clock says, and after any later calls that are not a [Set] of the
    same key, a [Get] of the key returns the stored value and leaves the
    cache as it is: the entry never expires by itself.  ([expire_at] is an
    [int64]; clock readings are below the largest [int64].) *)
Theorem cache_nonpositive_expiry_never_expires
    (c : gmap string Cache.entry) (key val : string) (expireAt now0 : Z)
    (ops : list Cache.op) (now : Z) :
  minInt64 <= expireAt <= 0 ->
  Forall (Cache.leaves key) ops ->
  now < maxInt64 ->
  let stored := {| Cache.Val := val; Cache.ExpireAt := i64 (expireAt - 1) |} in
  let c1 := Cache.Set_ c key val expireAt now0 in
  let c2 := Cache.run c1 ops in
  c1 !! key = Some stored
  /\ c2 !! key = Some stored
  /\ Cache.Get c2 key now = (c2, (val, true)).
Proof.
  intros He Hops Hnow stored c1 c2.
  assert (H1 : c1 !! key = Some stored).
  { unfold c1, Cache.Set_.
    destruct (Z.ltb_spec 0 expireAt); [lia|]. cbn [andb]. apply lookup_insert_eq. }
  assert (Hst : forall t, t < maxInt64 ->
                  Cache.ExpireAt stored <= 0 \/ t < Cache.ExpireAt stored).
  { intros t Ht. apply stored_expiry; assumption. }
  assert (H2 : c2 !! key = Some stored) by (apply run_keeps; assumption).
  split; [exact H1|]. split; [exact H2|].
  apply (Get_nonpositive_expiry c2 key stored now H2 (Hst now Hnow)).
Qed.

Lemma cache_nonpositive_expiry_never_expires_witness :
  let stored := {| Cache.Val := "answer"; Cache.ExpireAt := i64 (0 - 1) |} in
  let c1 := Cache.Set_ Cache.NewCache "k" "answer" 0 1700000000 in
  let c2 := Cache.run c1 [Cache.OpGet "k" 1700000005; Cache.OpSet "j" "w" 1700000100 1700000006;
                          Cache.OpGet "k" 4000000000] in
  c1 !! "k"%string = Some stored
  /\ c2 !! "k"%string = Some stored
  /\ Cache.Get c2 "k" 5000000000 = (c2, ("answer"%string, true)).
Proof.
  apply (cache_nonpositive_expiry_never_expires Cache.NewCache "k" "answer" 0 1700000000
           [Cache.OpGet "k" 1700000005; Cache.OpSet "j" "w" 1700000100 1700000006;
            Cache.OpGet "k" 4000000000] 5000000000).
  - unfold minInt64. lia.
  - repeat constructor; cbn; unfold maxInt64; try lia; discriminate.
  - unfold maxInt64. lia.
Defined.

(** * The account pool: counters *)

Section PoolCounters.

Lemma step_effect (w : Accounts.World) (o : Accounts.op) :
  exists e,
    Accounts.active (Accounts.pool (fst (Accounts.step w o)))
    = apply_effect (Accounts.active (Accounts.pool w)) e
    /\ snd (Accounts.step w o) = effect_events e.
Proof.
  destruct o as [exclude now r|[l|]]; cbn [Accounts.step].
  - unfold Accounts.Acquire.
    destruct (Accounts.accounts (Accounts.pool w)) as [|first rest] eqn:Hacc.
    + exists Same. cbn. destruct (30 <? _); split; reflexivity.
    + cbv zeta. cbn [fst snd Accounts.cells].
      rewrite lookup_app_r by lia. rewrite Nat.sub_diag. cbn [lookup list_lookup].
      eexists (Inc _). split; reflexivity.
  - unfold Accounts.Release. cbn [fst snd].
    destruct (Accounts.cells w !! l) as [acc|]; [|exists Same; split; reflexivity].
    exists (Dec (Accounts.AccountID acc)). cbn [apply_effect effect_events].
    destruct (1 <? _); split; reflexivity.
  - exists Same. split; reflexivity.
Qed.

Lemma count_lookup (m : gmap string Z) id v : m !! id = Some v -> Accounts.count m id = v.
Proof. intros H. unfold Accounts.count. rewrite H. reflexivity. Qed.

Lemma count_none (m : gmap string Z) id : m !! id = None -> Accounts.count m id = 0.
Proof. intros H. unfold Accounts.count. rewrite H. reflexivity. Qed.

Lemma apply_effect_within m e n :
  counters_within m n -> 0 <= n -> n + 1 < 2 ^ 63 ->
  counters_within (apply_effect m e) (n + 1).
Proof.
  intros Hm Hn Hb id v. destruct e as [|i|i]; cbn [apply_effect].
  - intros H. apply Hm in H. lia.
  - destruct (decide (i = id)) as [->|Hne].
    + rewrite lookup_insert_eq. intros [= <-].
      destruct (m !! id) as [u|] eqn:E.
      * rewrite (count_lookup _ _ _ E). apply Hm in E. rewrite i64_small; lia.
      * rewrite (count_none _ _ E). rewrite i64_small; lia.
    + rewrite lookup_insert_ne by done. intros H. apply Hm in H. lia.
  - destruct (Z.ltb_spec 1 (Accounts.count m i)) as [Hgt|Hle].
    + destruct (decide (i = id)) as [->|Hne].
      * rewrite lookup_insert_eq. intros [= <-].
        destruct (m !! id) as [u|] eqn:E.
        -- rewrite (count_lookup _ _ _ E) in *. apply Hm in E. rewrite i64_small; lia.
        -- rewrite (count_none _ _ E) in Hgt. lia.
      * rewrite lookup_insert_ne by done. intros H. apply Hm in H. lia.
    + destruct (decide (i = id)) as [->|Hne].
      * rewrite lookup_delete_eq. discriminate.
      * rewrite lookup_delete_ne by done. intros H. apply Hm in H. lia.
Qed.

Lemma run_counters_within ops (w : Accounts.World) n :
  counters_within (Accounts.active (Accounts.pool w)) n -> 0 <= n ->
  n + Z.of_nat (length ops) < 2 ^ 63 ->
  counters_within (Accounts.active (Accounts.pool (fst (Accounts.run w ops))))
                  (n + Z.of_nat (length ops)).
Proof.
  revert w n. induction ops as [|o ops IH]; intros w n Hw Hn Hb.
  - cbn. rewrite Z.add_0_r. exact Hw.
  - cbn [Accounts.run]. destruct (Accounts.step w o) as [w1 ev] eqn:Es.
    destruct (Accounts.run w1 ops) as [w2 evs] eqn:Er. cbn [fst].
    destruct (step_effect w o) as (e & He & _). rewrite Es in He. cbn [fst] in He.
    cbn [length] in *. rewrite Nat2Z.inj_succ in *.
    replace (n + Z.succ (Z.of_nat (length ops))) with (n + 1 + Z.of_nat (length ops)) by lia.
    specialize (IH w1 (n + 1)). rewrite Er in IH. cbn [fst] in IH.
    apply IH; [|lia|lia]. rewrite He. apply apply_effect_within; [exact Hw|lia|lia].
Qed.

(** *** Balanced records *)

Lemma acquires_app id t1 t2 :
  Accounts.acquires id (t1 ++ t2) = Accounts.acquires id t1 + Accounts.acquires id t2.
Proof.
  induction t1 as [|[i|i] t1 IH]; cbn [app Accounts.acquires]; lia.
Qed.

Lemma releases_app id t1 t2 :
  Accounts.releases id (t1 ++ t2) = Accounts.releases id t1 + Accounts.releases id t2.
Proof.
  induction t1 as [|[i|i] t1 IH]; cbn [app Accounts.releases]; lia.
Qed.

Lemma acquires_bound id t : 0 <= Accounts.acquires id t <= Z.of_nat (length t).
Proof.
  induction t as [|[i|i] t IH]; cbn [Accounts.acquires length];
    rewrite ?Nat2Z.inj_succ; try destruct (String.eqb i id); lia.
Qed.

Lemma releases_nonneg id t : 0 <= Accounts.releases id t.
Proof.
  induction t as [|[i|i] t IH]; cbn [Accounts.releases];
    try destruct (String.eqb i id); lia.
Qed.

Lemma outstanding_snoc id tr e :
  outstanding id (tr ++ effect_events e)
  = outstanding id tr
    + match e with
      | Same => 0
      | Inc i => if String.eqb i id then 1 else 0
      | Dec i => if String.eqb i id then -1 else 0
      end.
Proof.
  unfold outstanding. rewrite acquires_app, releases_app.
  destruct e as [|i|i]; cbn [effect_events Accounts.acquires Accounts.releases];
    try destruct (String.eqb i id); lia.
Qed.

Lemma apply_effect_counters_are m tr e :
  counters_are m tr ->
  Z.of_nat (length tr) + 1 < 2 ^ 63 ->
  (forall id, 0 <= outstanding id tr) ->
  (forall id, 0 <= outstanding id (tr ++ effect_events e)) ->
  counters_are (apply_effect m e) (tr ++ effect_events e).
Proof.
  intros Hm Hb Hnn Hpre id. rewrite outstanding_snoc.
  pose proof (Hm id) as Hid. pose proof (Hpre id) as Hp. rewrite outstanding_snoc in Hp.
  pose proof (Hnn id) as Hn0.
  destruct e as [|i|i]; cbn [apply_effect].
  - rewrite Z.add_0_r. exact Hid.
  - assert (Hc : Accounts.count m i = Z.max 0 (outstanding i tr)).
    { unfold Accounts.count. rewrite (Hm i).
      destruct (Z.ltb_spec 0 (outstanding i tr)); cbn; lia. }
    pose proof (acquires_bound i tr). pose proof (releases_nonneg i tr).
    assert (outstanding i tr <= Z.of_nat (length tr)) by (unfold outstanding; lia).
    destruct (String.eqb_spec i id) as [->|Hne].
    + rewrite lookup_insert_eq, Hc.
      rewrite i64_small by lia.
      destruct (Z.ltb_spec 0 (outstanding id tr + 1)); [f_equal; lia | lia].
    + rewrite lookup_insert_ne by done. rewrite Z.add_0_r. exact Hid.
  - assert (Hc : Accounts.count m i = Z.max 0 (outstanding i tr)).
    { unfold Accounts.count. rewrite (Hm i).
      destruct (Z.ltb_spec 0 (outstanding i tr)); cbn; lia. }
    pose proof (acquires_bound i tr). pose proof (releases_nonneg i tr).
    assert (outstanding i tr <= Z.of_nat (length tr)) by (unfold outstanding; lia).
    pose proof (Hpre i) as Hq. rewrite outstanding_snoc, String.eqb_refl in Hq.
    pose proof (Hnn i) as Hni.
    rewrite Hc.
    destruct (String.eqb_spec i id) as [->|Hne].
    + destruct (Z.ltb_spec 1 (Z.max 0 (outstanding id tr))).
      * rewrite lookup_insert_eq. rewrite i64_small by lia.
        destruct (Z.ltb_spec 0 (outstanding id tr + -1)); [f_equal; lia | lia].
      * rewrite lookup_delete_eq.
        destruct (Z.ltb_spec 0 (outstanding id tr + -1)); [lia | reflexivity].
    + rewrite Z.add_0_r.
      destruct (Z.ltb_spec 1 (Z.max 0 (outstanding i tr))).
      * rewrite lookup_insert_ne by done. exact Hid.
      * rewrite lookup_delete_ne by done. exact Hid.
Qed.

Lemma run_length_events ops w :
  (length (snd (Accounts.run w ops)) <= length ops)%nat.
Proof.
  revert w. induction ops as [|o ops IH]; intros w; [cbn; lia|].
  cbn [Accounts.run]. destruct (Accounts.step w o) as [w1 ev] eqn:Es.
  specialize (IH w1). destruct (Accounts.run w1 ops) as [w2 evs]. cbn [snd] in *.
  destruct (step_effect w o) as (e & _ & He). rewrite Es in He. cbn [snd] in He.
  rewrite length_app, He. destruct e; cbn [effect_events length]; lia.
Qed.

Lemma run_counters_are ops (w : Accounts.World) pre :
  counters_are (Accounts.active (Accounts.pool w)) pre ->
  Z.of_nat (length pre) + Z.of_nat (length ops) < 2 ^ 63 ->
  (forall id t1 t2, pre ++ snd (Accounts.run w ops) = t1 ++ t2 -> 0 <= outstanding id t1) ->
  counters_are (Accounts.active (Accounts.pool (fst (Accounts.run w ops))))
               (pre ++ snd (Accounts.run w ops)).
Proof.
  revert w pre. induction ops as [|o ops IH]; intros w pre Hw Hb Hpre.
  - cbn. rewrite app_nil_r. exact Hw.
  - cbn [Accounts.run length] in *. destruct (Accounts.step w o) as [w1 ev] eqn:Es.
    pose proof (run_length_events ops w1) as Hlen.
    specialize (IH w1 (pre ++ ev)).
    destruct (Accounts.run w1 ops) as [w2 evs] eqn:Er. cbn [fst snd] in *.
    destruct (step_effect w o) as (e & He & Hev). rewrite Es in He, Hev.
    cbn [fst snd] in He, Hev. subst ev.
    rewrite app_assoc. apply IH.
    + rewrite He. apply apply_effect_counters_are; [exact Hw| lia | |].
      * intros id. apply (Hpre id pre (effect_events e ++ evs)). reflexivity.
      * intros id. apply (Hpre id _ evs). rewrite app_assoc. reflexivity.
    + rewrite length_app. destruct e; cbn [effect_events length] in *; lia.
    + intros id t1 t2 E. apply (Hpre id t1 t2). rewrite app_assoc. exact E.
Qed.

End PoolCounters.

(** C4. On a pool with no session outstanding, after any sequence of
    [Acquire] and [Release] calls (fewer than 2^63 of them: the counters
    are Go [int]s) every counter present is positive, a [Release] of an
    account that has no counter leaves the counters as they are, and when
    the sequence is balanced (every release answers an earlier acquire of
    the same account, and every acquire is released) the counter map is
    empty. *)
Theorem pool_counters_nonnegative_and_balanced_empty
    (w0 : Accounts.World) (ops : list Accounts.op) :
  Accounts.active (Accounts.pool w0) = ∅ ->
  Z.of_nat (length ops) < 2 ^ 63 ->
  let w := fst (Accounts.run w0 ops) in
  let tr := snd (Accounts.run w0 ops) in
  (forall id v, Accounts.active (Accounts.pool w) !! id = Some v -> 0 < v)
  /\ (forall l acc,
        Accounts.cells w !! l = Some acc ->
        Accounts.active (Accounts.pool w) !! Accounts.AccountID acc = None ->
        Accounts.active (Accounts.pool (Accounts.Release (Some l) w))
        = Accounts.active (Accounts.pool w))
  /\ (Accounts.balanced tr -> Accounts.active (Accounts.pool w) = ∅).
Proof.
  intros H0 Hb w tr. split; [|split].
  - intros id v Hv.
    pose proof (run_counters_within ops w0 0) as Hin.
    assert (Hstart : counters_within (Accounts.active (Accounts.pool w0)) 0).
    { intros i u Hu. rewrite H0, lookup_empty in Hu. discriminate Hu. }
    specialize (Hin Hstart ltac:(lia) ltac:(lia)). apply Hin in Hv. lia.
  - intros l acc Hl Hnone. unfold Accounts.Release. rewrite Hl.
    rewrite (count_none _ _ Hnone). cbn. apply delete_id. exact Hnone.
  - intros [Hpre Hend].
    pose proof (run_counters_are ops w0 []) as Hare.
    cbn [app length] in Hare. fold w tr in Hare.
    assert (Hstart : counters_are (Accounts.active (Accounts.pool w0)) []).
    { intros id. rewrite H0, lookup_empty. reflexivity. }
    specialize (Hare Hstart ltac:(lia)).
    assert (Hall : forall id t1 t2, tr = t1 ++ t2 -> 0 <= outstanding id t1).
    { intros id t1 t2 E. specialize (Hpre id t1 t2 E). unfold outstanding. lia. }
    specialize (Hare Hall).
    apply map_eq. intros id. rewrite (Hare id), lookup_empty.
    unfold outstanding. rewrite (Hend id), Z.sub_diag. reflexivity.
Qed.

Lemma pool_counters_nonnegative_and_balanced_empty_witness :
  let w0 :=
    {| Accounts.pool :=
         Accounts.NewPool
           [{| Accounts.cfgEmail := "a@x"; Accounts.cfgMobile := "";
               Accounts.cfgPassword := ""; Accounts.cfgToken := "t1" |}]
           false 1 "https://chat.deepseek.com/api/v0/users/login" (fun _ => 0%nat);
       Accounts.cells := []; Accounts.logins := [] |} in
  let ops := [Accounts.OpAcquire None 0 0; Accounts.OpRelease (Some 0%nat)] in
  let w := fst (Accounts.run w0 ops) in
  let tr := snd (Accounts.run w0 ops) in
  (forall id v, Accounts.active (Accounts.pool w) !! id = Some v -> 0 < v)
  /\ (forall l acc,
        Accounts.cells w !! l = Some acc ->
        Accounts.active (Accounts.pool w) !! Accounts.AccountID acc = None ->
        Accounts.active (Accounts.pool (Accounts.Release (Some l) w))
        = Accounts.active (Accounts.pool w))
  /\ (Accounts.balanced tr -> Accounts.active (Accounts.pool w) = ∅).
Proof.
  apply (pool_counters_nonnegative_and_balanced_empty
           {| Accounts.pool :=
                Accounts.NewPool
                  [{| Accounts.cfgEmail := "a@x"; Accounts.cfgMobile := "";
                      Accounts.cfgPassword := ""; Accounts.cfgToken := "t1" |}]
                  false 1 "https://chat.deepseek.com/api/v0/users/login" (fun _ => 0%nat);
              Accounts.cells := []; Accounts.logins := [] |}
           [Accounts.OpAcquire None 0 0; Accounts.OpRelease (Some 0%nat)]).
  - vm_compute. reflexivity.
  - cbn. lia.
Defined.

(** * The account pool: reload *)

Section PoolReload.

Lemma elem_of_swap {T} (l : list T) i j a : a ∈ Accounts.swap l i j -> a ∈ l.
Proof.
  unfold Accounts.swap.
  destruct (l !! i) as [x|] eqn:Ei; [|done].
  destruct (l !! j) as [y|] eqn:Ej; [|done].
  intros Ha. apply list_elem_of_lookup in Ha as [k Hk].
  apply list_lookup_insert_Some in Hk as [(-> & <- & _)|(Hne & Hk)].
  - apply list_elem_of_lookup. eauto.
  - apply list_lookup_insert_Some in Hk as [(-> & <- & _)|(Hne' & Hk)];
      apply list_elem_of_lookup; eauto.
Qed.

Lemma elem_of_shuffle_from {T} i draw (l : list T) a :
  a ∈ Accounts.shuffle_from i draw l -> a ∈ l.
Proof.
  revert l. induction i as [|i IH]; intros l; cbn [Accounts.shuffle_from]; [done|].
  intros H. apply IH in H. eapply elem_of_swap. exact H.
Qed.

Lemma length_swap {T} (l : list T) i j : length (Accounts.swap l i j) = length l.
Proof.
  unfold Accounts.swap. destruct (l !! i); [|done]. destruct (l !! j); [|done].
  rewrite !length_insert. reflexivity.
Qed.

Lemma length_shuffle_from {T} i draw (l : list T) :
  length (Accounts.shuffle_from i draw l) = length l.
Proof.
  revert l. induction i as [|i IH]; intros l; cbn [Accounts.shuffle_from]; [done|].
  rewrite IH. apply length_swap.
Qed.

Lemma reloadLocked_spec accs refresh maxAccounts draw (p : Accounts.Pool) :
  let p' := Accounts.reloadLocked accs refresh maxAccounts draw p in
  dom (Accounts.active p')
    ⊆ (list_to_set (map Accounts.AccountID (Accounts.accounts p')) : gset string)
  /\ (forall a, a ∈ Accounts.accounts p' -> a ∈ map Accounts.of_config accs)
  /\ Z.of_nat (length (Accounts.accounts p')) = Accounts.maxAccounts p'
  /\ (forall id v, Accounts.active p' !! id = Some v -> Accounts.active p !! id = Some v).
Proof.
  unfold Accounts.reloadLocked. cbv zeta.
  cbn [Accounts.active Accounts.accounts Accounts.maxAccounts].
  set (roster0 := map Accounts.of_config accs).
  set (n := Z.of_nat (length roster0)).
  set (m := if (maxAccounts <=? 0) || (n <? maxAccounts) then n else maxAccounts).
  set (roster := if m <? n then take (Z.to_nat m) (Accounts.Shuffle draw roster0)
                 else roster0).
  assert (Hm : 0 <= m <= n).
  { unfold m. destruct (Z.leb_spec maxAccounts 0); cbn [orb]; [lia|].
    destruct (Z.ltb_spec n maxAccounts); lia. }
  split; [|split; [|split]].
  - intros id Hid. apply elem_of_dom in Hid as [v Hv].
    apply map_lookup_filter_Some in Hv as [_ Hin]. exact Hin.
  - intros a Ha. unfold roster in Ha. destruct (m <? n); [|exact Ha].
    apply elem_of_take in Ha as (k & Hk & _).
    apply (elem_of_shuffle_from (length roster0 - 1) draw).
    apply list_elem_of_lookup. eauto.
  - unfold roster. destruct (Z.ltb_spec m n); [|lia].
    rewrite length_take. unfold Accounts.Shuffle. rewrite length_shuffle_from. lia.
  - intros id v Hv. apply map_lookup_filter_Some in Hv as [Hv _]. exact Hv.
Qed.


End PoolReload.


(** * The account pool: acquired accounts are copies *)

Section PoolCopies.

Lemma Acquire_some exclude now r (w : Accounts.World) l :
  snd (Accounts.Acquire exclude now r w) = Some l ->
  exists acc,
    acc ∈ Accounts.accounts (Accounts.pool w)
    /\ l = length (Accounts.cells w)
    /\ Accounts.cells (fst (Accounts.Acquire exclude now r w)) = Accounts.cells w ++ [acc]
    /\ Accounts.accounts (Accounts.pool (fst (Accounts.Acquire exclude now r w)))
       = Accounts.accounts (Accounts.pool w)
    /\ Accounts.logins (fst (Accounts.Acquire exclude now r w)) = Accounts.logins w.
Proof.
  unfold Accounts.Acquire.
  destruct (Accounts.accounts (Accounts.pool w)) as [|first rest] eqn:Hacc.
  - cbn [snd]. discriminate.
  - cbv zeta. cbn [snd fst Accounts.cells Accounts.pool Accounts.accounts
                   Accounts.with_active Accounts.logins].
    intros [= <-]. eexists. split; [|split; [reflexivity|split; [reflexivity|]]].
    + apply list_elem_of_In.
      destruct (nth_in_or_default
                  (nth (r mod length (Accounts.candidates exclude (first :: rest)))
                       (Accounts.candidates exclude (first :: rest)) 0%nat)
                  (first :: rest) first) as [Hin| ->]; [exact Hin | left; reflexivity].
    + split; [exact Hacc | reflexivity].
Qed.

Lemma EnsureToken_ok login l (w w2 : Accounts.World) acc :
  Accounts.cells w !! l = Some acc ->
  Accounts.EnsureToken login (Some l) w = (w2, None) ->
  Accounts.pool w2 = Accounts.pool w
  /\ (forall l', l' <> l -> Accounts.cells w2 !! l' = Accounts.cells w !! l')
  /\ (w2 = w
      \/ exists req tok,
           Accounts.logins w2 = Accounts.logins w ++ [req]
           /\ login req = Accounts.LoginBody tok
           /\ Accounts.cells w2 !! l = Some (Accounts.with_token acc tok)).
Proof.
  intros Hl. unfold Accounts.EnsureToken. rewrite Hl.
  destruct (Accounts.nonblank (Accounts.Token acc) && negb (Accounts.refresh (Accounts.pool w))).
  { intros [= <-]. split; [reflexivity|]. split; [reflexivity|]. left. reflexivity. }
  destruct (negb (Accounts.nonblank (Accounts.Password acc))
            || negb (Accounts.nonblank (Accounts.Email acc))
               && negb (Accounts.nonblank (Accounts.Mobile acc))).
  { destruct (Accounts.nonblank (Accounts.Token acc)); [|discriminate].
    intros [= <-]. split; [reflexivity|]. split; [reflexivity|]. left. reflexivity. }
  cbv zeta.
  set (req := if Accounts.nonblank (Accounts.Email acc) then _ else _).
  destruct (login req) as [msg|msg|tok] eqn:Hlogin; try discriminate.
  destruct (negb (Accounts.nonblank tok)); [discriminate|].
  cbn [Accounts.pool Accounts.cells Accounts.logins].
  intros [= <-]. cbn [Accounts.pool Accounts.cells Accounts.logins].
  split; [reflexivity|]. split.
  - intros l' Hne. apply list_lookup_insert_ne. congruence.
  - right. exists req, tok. split; [reflexivity|]. split; [exact Hlogin|].
    apply list_lookup_insert_eq. apply lookup_lt_Some in Hl. exact Hl.
Qed.

(** A successful [EnsureToken], case by case: without a login nothing
    changes; with one, the request is the account's, the upstream answered
    it with a token that is not blank, and that token is in the cell. *)
Lemma EnsureToken_ok_cases login l (w w2 : Accounts.World) acc :
  Accounts.cells w !! l = Some acc ->
  Accounts.EnsureToken login (Some l) w = (w2, None) ->
  let req := login_request (Accounts.loginURL (Accounts.pool w)) acc in
  if logs_in (Accounts.refresh (Accounts.pool w)) acc then
    exists tok,
      login req = Accounts.LoginBody tok
      /\ Accounts.nonblank tok = true
      /\ Accounts.logins w2 = Accounts.logins w ++ [req]
      /\ Accounts.cells w2 !! l = Some (Accounts.with_token acc tok)
  else w2 = w.
Proof.
  intros Hl. unfold Accounts.EnsureToken, logs_in, login_request. rewrite Hl. cbv zeta.
  destruct (Accounts.nonblank (Accounts.Token acc) && negb (Accounts.refresh (Accounts.pool w))).
  { intros [= <-]. reflexivity. }
  cbn [negb andb].
  destruct (Accounts.nonblank (Accounts.Password acc)); cbn [negb orb andb].
  2:{ destruct (Accounts.nonblank (Accounts.Token acc)); [|discriminate].
      intros [= <-]. reflexivity. }
  destruct (Accounts.nonblank (Accounts.Email acc)); cbn [negb orb andb].
  - destruct (login _) as [msg|msg|tok] eqn:Hlogin; try discriminate.
    destruct (Accounts.nonblank tok) eqn:Htok; cbn [negb]; [|discriminate].
    intros [= <-]. cbn [Accounts.pool Accounts.cells Accounts.logins].
    exists tok. split; [reflexivity|]. split; [exact Htok|]. split; [reflexivity|].
    apply list_lookup_insert_eq. apply lookup_lt_Some in Hl. exact Hl.
  - destruct (Accounts.nonblank (Accounts.Mobile acc)); cbn [negb orb andb].
    + destruct (login _) as [msg|msg|tok] eqn:Hlogin; try discriminate.
      destruct (Accounts.nonblank tok) eqn:Htok; cbn [negb]; [|discriminate].
      intros [= <-]. cbn [Accounts.pool Accounts.cells Accounts.logins].
      exists tok. split; [reflexivity|]. split; [exact Htok|]. split; [reflexivity|].
      apply list_lookup_insert_eq. apply lookup_lt_Some in Hl. exact Hl.
    + destruct (Accounts.nonblank (Accounts.Token acc)); [|discriminate].
      intros [= <-]. reflexivity.
Qed.

End PoolCopies.

(** C9. The account [Acquire] returns is a copy of a roster entry in a cell
    of its own.  A later successful [EnsureToken] on it leaves the pool as
    it is and every other cell as it is.  Whenever it has to log in (the
    copy has no token or [refresh] is on, and it has credentials), it sent
    the copy's login request, and the token the upstream answered is now
    the token of the copy; otherwise nothing changed.  Any later [Acquire]
    still returns a copy of an entry of the unchanged roster, so it sees
    the token the pool stored, not the fetched one. *)
Theorem ensure_token_writes_only_the_copy
    (w : Accounts.World) exclude now r (login : Accounts.LoginRequest -> Accounts.LoginResponse)
    (l : nat) (w2 : Accounts.World) exclude' now' r' :
  snd (Accounts.Acquire exclude now r w) = Some l ->
  Accounts.EnsureToken login (Some l) (fst (Accounts.Acquire exclude now r w)) = (w2, None) ->
  let w1 := fst (Accounts.Acquire exclude now r w) in
  exists acc,
    acc ∈ Accounts.accounts (Accounts.pool w)
    /\ Accounts.cells w !! l = None
    /\ Accounts.cells w1 !! l = Some acc
    /\ Accounts.pool w2 = Accounts.pool w1
    /\ Accounts.accounts (Accounts.pool w2) = Accounts.accounts (Accounts.pool w)
    /\ (forall l', l' <> l -> Accounts.cells w2 !! l' = Accounts.cells w1 !! l')
    /\ (let req := login_request (Accounts.loginURL (Accounts.pool w1)) acc in
        if logs_in (Accounts.refresh (Accounts.pool w1)) acc then
          exists tok,
            login req = Accounts.LoginBody tok
            /\ Accounts.nonblank tok = true
            /\ Accounts.logins w2 = Accounts.logins w1 ++ [req]
            /\ Accounts.cells w2 !! l = Some (Accounts.with_token acc tok)
        else w2 = w1)
    /\ (forall l2,
          snd (Accounts.Acquire exclude' now' r' w2) = Some l2 ->
          exists acc2,
            acc2 ∈ Accounts.accounts (Accounts.pool w)
            /\ Accounts.cells (fst (Accounts.Acquire exclude' now' r' w2)) !! l2 = Some acc2).
Proof.
  intros Hacq Hens w1.
  destruct (Acquire_some _ _ _ _ _ Hacq) as (acc & Hin & -> & Hcells & Hroster & _).
  fold w1 in Hcells, Hroster, Hens.
  assert (Hl : Accounts.cells w1 !! length (Accounts.cells w) = Some acc).
  { rewrite Hcells, lookup_app_r by lia. rewrite Nat.sub_diag. reflexivity. }
  destruct (EnsureToken_ok _ _ _ _ _ Hl Hens) as (Hp & Hother & _).
  exists acc. split; [exact Hin|]. split; [apply lookup_ge_None; lia|].
  split; [exact Hl|]. split; [exact Hp|].
  split; [rewrite Hp; exact Hroster|]. split; [exact Hother|]. split.
  - exact (EnsureToken_ok_cases _ _ _ _ _ Hl Hens).
  - intros l2 Hl2.
    destruct (Acquire_some _ _ _ _ _ Hl2) as (acc2 & Hin2 & -> & Hcells2 & _).
    exists acc2. split.
    + rewrite Hp, Hroster in Hin2. exact Hin2.
    + rewrite Hcells2, lookup_app_r by lia. rewrite Nat.sub_diag. reflexivity.
Qed.

Lemma ensure_token_writes_only_the_copy_witness :
  let w := refreshing_world in
  let w1 := fst (Accounts.Acquire None 0 0 w) in
  let w2 := fst (Accounts.EnsureToken login_new (Some 0%nat) w1) in
  exists acc,
    acc ∈ Accounts.accounts (Accounts.pool w)
    /\ Accounts.cells w !! 0%nat = None
    /\ Accounts.cells w1 !! 0%nat = Some acc
    /\ Accounts.pool w2 = Accounts.pool w1
    /\ Accounts.accounts (Accounts.pool w2) = Accounts.accounts (Accounts.pool w)
    /\ (forall l', l' <> 0%nat -> Accounts.cells w2 !! l' = Accounts.cells w1 !! l')
    /\ (let req := login_request (Accounts.loginURL (Accounts.pool w1)) acc in
        if logs_in (Accounts.refresh (Accounts.pool w1)) acc then
          exists tok,
            login_new req = Accounts.LoginBody tok
            /\ Accounts.nonblank tok = true
            /\ Accounts.logins w2 = Accounts.logins w1 ++ [req]
            /\ Accounts.cells w2 !! 0%nat = Some (Accounts.with_token acc tok)
        else w2 = w1)
    /\ (forall l2,
          snd (Accounts.Acquire None 7 0 w2) = Some l2 ->
          exists acc2,
            acc2 ∈ Accounts.accounts (Accounts.pool w)
            /\ Accounts.cells (fst (Accounts.Acquire None 7 0 w2)) !! l2 = Some acc2).
Proof.
  apply (ensure_token_writes_only_the_copy refreshing_world None 0 0 login_new 0
           (fst (Accounts.EnsureToken login_new (Some 0%nat)
                   (fst (Accounts.Acquire None 0 0 refreshing_world))))
           None 7 0).
  - vm_compute. reflexivity.
  - vm_compute. reflexivity.
Defined.

(** The divergence, concretely: after the login the copy carries "new",
    the pool's entry and the next copy still carry "old". *)
Example copy_and_pool_entry_diverge :
  let w1 := fst (Accounts.Acquire None 0 0 refreshing_world) in
  let w2 := fst (Accounts.EnsureToken login_new (Some 0%nat) w1) in
  let w3 := fst (Accounts.Acquire None 7 0 w2) in
  snd (Accounts.EnsureToken login_new (Some 0%nat) w1) = None
  /\ Accounts.Token <$> Accounts.cells w2 !! 0%nat = Some "new"%string
  /\ Accounts.Token <$> Accounts.accounts (Accounts.pool w2) !! 0%nat = Some "old"%string
  /\ snd (Accounts.Acquire None 7 0 w2) = Some 1%nat
  /\ Accounts.Token <$> Accounts.cells w3 !! 1%nat = Some "old"%string.
Proof. vm_compute. repeat split; reflexivity. Qed.

(** * The chunk parser *)

Section ChunkParser.



End ChunkParser.




(** The round trip of the specification, and the type carried over
    chunks that have no path. *)
Example parseChunks_round_trip :
  Services.parseChunks
    [ Some {[ "p"%string := Services.JStr "response/content"; "v"%string := Services.JStr "hi" ]};
      Some {[ "v"%string := Services.JStr "!" ]};
      None;
      Some {[ "p"%string := Services.JStr "response/thinking_content";
              "v"%string := Services.JStr "x" ]};
      Some {[ "v"%string := Services.JStr "y" ]} ]
    "text"
  = [ {| Services.Type_ := "text"; Services.Text := "hi" |};
      {| Services.Type_ := "text"; Services.Text := "!" |};
      {| Services.Type_ := "thinking"; Services.Text := "x" |};
      {| Services.Type_ := "thinking"; Services.Text := "y" |} ].
Proof. vm_compute. reflexivity. Qed.

(** Inside an array the bare names do switch the type. *)
Example parseChunk_array_bare_names :
  Services.parseChunk
    {[ "v"%string :=
         Services.JArr
           [ Services.JObj {[ "p"%string := Services.JStr "thinking_content";
                              "v"%string := Services.JStr "a" ]};
             Services.JObj {[ "p"%string := Services.JStr "content";
                              "v"%string := Services.JStr "b" ]};
             Services.JObj {[ "p"%string := Services.JStr "status";
                              "v"%string := Services.JStr "FINISHED" ]} ] ]}
    "text"
  = ("text"%string,
     [ {| Services.Type_ := "thinking"; Services.Text := "a" |};
       {| Services.Type_ := "text"; Services.Text := "b" |} ],
     true).
Proof. vm_compute. reflexivity. Qed.

(** * Authentication failures *)

Section AuthFailures.

Variable serve :
  Auth.AuthContext -> Auth.Request -> Accounts.World ->
  Accounts.World * Auth.AuthContext * Handlers.Response * list Handlers.UpstreamCall.

Lemma login_calls_only_logins before after c :
  c ∈ Handlers.login_calls before after -> exists req, c = Handlers.CallLogin req.
Proof.
  unfold Handlers.login_calls. intros H.
  apply list_elem_of_In, in_map_iff in H as (req & <- & _). eauto.
Qed.

Lemma Acquire_empty exclude now rnd (w : Accounts.World) :
  Accounts.accounts (Accounts.pool w) = [] ->
  snd (Accounts.Acquire exclude now rnd w) = None
  /\ Accounts.logins (fst (Accounts.Acquire exclude now rnd w)) = Accounts.logins w.
Proof.
  intros H. unfold Accounts.Acquire. rewrite H. split; reflexivity.
Qed.

Lemma handle_no_accounts error_body cfg now rnd login r (w : Accounts.World) :
  Auth.Method r = "POST"%string ->
  Auth.caller_key r <> ""%string ->
  Auth.uses_pool cfg (Auth.caller_key r) = true ->
  Accounts.accounts (Accounts.pool w) = [] ->
  let res := Handlers.handle serve error_body cfg now rnd login r w in
  Handlers.status (snd (fst res)) = 429 /\ snd res = [].
Proof.
  intros Hm Hk Hp He. unfold Handlers.handle, Auth.DetermineModeAndToken.
  rewrite Hm. change (negb ("POST" =? "POST")%string) with false. cbv iota.
  destruct (String.eqb_spec (Auth.caller_key r) ""); [contradiction|].
  rewrite Hp. cbn [negb].
  destruct (Acquire_empty None now rnd w He) as [Hnone Hlog].
  destruct (Accounts.Acquire None now rnd w) as [w1 acc]. cbn [fst snd] in *. subst acc.
  cbn [fst snd Handlers.WriteJSON Handlers.status]. split; [reflexivity|].
  unfold Handlers.login_calls. rewrite Hlog, drop_all. reflexivity.
Qed.

Lemma handle_login_failed error_body cfg now rnd login r (w : Accounts.World) l e :
  Auth.Method r = "POST"%string ->
  Auth.caller_key r <> ""%string ->
  Auth.uses_pool cfg (Auth.caller_key r) = true ->
  snd (Accounts.Acquire None now rnd w) = Some l ->
  snd (Accounts.EnsureToken login (Some l) (fst (Accounts.Acquire None now rnd w))) = Some e ->
  answers_without_completion (Handlers.handle serve error_body cfg now rnd login r w) 500.
Proof.
  intros Hm Hk Hp Hacq Hens. unfold Handlers.handle, Auth.DetermineModeAndToken.
  rewrite Hm. change (negb ("POST" =? "POST")%string) with false. cbv iota.
  destruct (String.eqb_spec (Auth.caller_key r) ""); [contradiction|].
  rewrite Hp. cbn [negb].
  destruct (Accounts.Acquire None now rnd w) as [w1 acc]. cbn [fst snd] in *. subst acc.
  destruct (Accounts.EnsureToken login (Some l) w1) as [w2 err]. cbn [snd] in Hens.
  subst err. split; [reflexivity|].
  cbn [snd]. intros c Hc. eapply login_calls_only_logins. exact Hc.
Qed.

End AuthFailures.

(** C7 (as the code has it). For a POST chat request whose caller key is
    one of the configured keys, in both the OpenAI and the Claude handler:
    when [Acquire] fails (the roster is empty) the response status is 429
    and no upstream call is made; when [EnsureToken] fails the response
    status is 500 and the only upstream calls made are login requests, so
    no completion call is issued in either case. *)
Theorem pool_auth_failure_statuses
    (serve : Auth.AuthContext -> Auth.Request -> Accounts.World ->
             Accounts.World * Auth.AuthContext * Handlers.Response * list Handlers.UpstreamCall)
    (cfg : Auth.Config) (now : Z) (rnd : nat)
    (login : Accounts.LoginRequest -> Accounts.LoginResponse)
    (r : Auth.Request) (w : Accounts.World) :
  Auth.Method r = "POST"%string ->
  Auth.caller_key r <> ""%string ->
  Auth.uses_pool cfg (Auth.caller_key r) = true ->
  let openai := Handlers.OpenAIChat serve cfg now rnd login r w in
  let claude := Handlers.ClaudeMessages serve cfg now rnd login r w in
  (Accounts.accounts (Accounts.pool w) = [] ->
   (Handlers.status (snd (fst openai)) = 429 /\ snd openai = [])
   /\ (Handlers.status (snd (fst claude)) = 429 /\ snd claude = []))
  /\ (forall l e,
        snd (Accounts.Acquire None now rnd w) = Some l ->
        snd (Accounts.EnsureToken login (Some l) (fst (Accounts.Acquire None now rnd w)))
        = Some e ->
        answers_without_completion openai 500 /\ answers_without_completion claude 500).
Proof.
  intros Hm Hk Hp openai claude. split.
  - intros He. split; apply handle_no_accounts; assumption.
  - intros l e Hacq Hens. split; eapply handle_login_failed; eassumption.
Qed.

Lemma pool_auth_failure_statuses_witness :
  let openai :=
    Handlers.OpenAIChat serve_completion pool_config 0 0 login_rejected pool_request
                        tokenless_world in
  let claude :=
    Handlers.ClaudeMessages serve_completion pool_config 0 0 login_rejected pool_request
                            tokenless_world in
  answers_without_completion openai 500 /\ answers_without_completion claude 500.
Proof.
  apply (proj2 (pool_auth_failure_statuses serve_completion pool_config 0 0 login_rejected
                  pool_request tokenless_world
                  ltac:(vm_compute; reflexivity)
                  ltac:(vm_compute; discriminate)
                  ltac:(vm_compute; reflexivity)) 0%nat "missing token"%string).
  - vm_compute. reflexivity.
  - vm_compute. reflexivity.
Defined.

(** The claim as the specification states it fails: with an empty roster
    the status written is 429, not 503. *)
Lemma empty_roster_answers_429 :
  Auth.uses_pool pool_config (Auth.caller_key pool_request) = true
  /\ Accounts.accounts (Accounts.pool empty_world) = []
  /\ Handlers.status
       (snd (fst (Handlers.OpenAIChat serve_completion pool_config 0 0 login_rejected
                                      pool_request empty_world))) = 429
  /\ Handlers.status
       (snd (fst (Handlers.ClaudeMessages serve_completion pool_config 0 0 login_rejected
                                          pool_request empty_world))) = 429.
Proof. vm_compute. repeat split; reflexivity. Qed.

(** With a roster and a login that yields no token, the status is 500 and
    the login request is the only upstream call. *)
Example login_failure_answers_500 :
  let res := Handlers.OpenAIChat serve_completion pool_config 0 0 login_rejected
                                 pool_request tokenless_world in
  Handlers.status (snd (fst res)) = 500
  /\ length (snd res) = 1%nat
  /\ Accounts.active (Accounts.pool (fst (fst res))) = ∅.
Proof. vm_compute. repeat split; reflexivity. Qed.

(** * The sync manager: conflict recovery *)

Section ConflictRecovery.

Context {M : Type}.
Variable decodeAccounts : M -> CloudSync.result (list Accounts.AccountConfig).
Variable decodeConfigPayload : M -> CloudSync.result CloudSync.SyncConfigPayload.
Variable remote : CloudSync.Remote M.
Variable draw : nat -> nat.

#[local] Abbreviation apply_loop := (CloudSync.apply_loop M decodeAccounts decodeConfigPayload).
#[local] Abbreviation applyItems := (CloudSync.applyItems M decodeAccounts decodeConfigPayload draw).
#[local] Abbreviation pullAndApply :=
  (CloudSync.pullAndApply M decodeAccounts decodeConfigPayload remote draw).

Lemma setVersion_sent v (m : CloudSync.SyncManager M) :
  CloudSync.sent (CloudSync.setVersion M v m) = CloudSync.sent m.
Proof. unfold CloudSync.setVersion. destruct (_ <? _); reflexivity. Qed.

Lemma apply_loop_sent items (m : CloudSync.SyncManager M) ra rc :
  CloudSync.sent (fst (fst (fst (apply_loop items m ra rc)))) = CloudSync.sent m.
Proof.
  revert m ra rc. induction items as [|item rest IH]; intros m ra rc; [reflexivity|].
  cbn [CloudSync.apply_loop].
  assert (Hb : CloudSync.sent
                 (if CloudSync.getVersion M m <? CloudSync.Version item
                  then CloudSync.setVersion M (CloudSync.Version item) m else m)
               = CloudSync.sent m).
  { destruct (_ <? _); [apply setVersion_sent | reflexivity]. }
  destruct (CloudSync.Deleted M item); [apply IH|].
  destruct (String.eqb _ CloudSync.accountsPath).
  { destruct (decodeAccounts _); [|reflexivity]. rewrite IH. exact Hb. }
  destruct (String.eqb _ CloudSync.configPath).
  { destruct (decodeConfigPayload _); [|reflexivity]. rewrite IH. exact Hb. }
  rewrite IH. exact Hb.
Qed.

Lemma applyItems_sent items (m : CloudSync.SyncManager M) :
  CloudSync.sent (fst (applyItems items m)) = CloudSync.sent m.
Proof.
  unfold CloudSync.applyItems. destruct items as [|item rest]; [reflexivity|].
  pose proof (apply_loop_sent (item :: rest) m None None) as H.
  destruct (apply_loop (item :: rest) m None None) as [[[m' ra] rc] err].
  cbn [fst] in H. destruct err; [exact H|]. exact H.
Qed.

(** The recovery pull only adds requests, the first being the list
    request for the manager's version and cursor. *)
Lemma pullAndApply_sent (m : CloudSync.SyncManager M) :
  exists more,
    CloudSync.sent (fst (pullAndApply m))
    = CloudSync.sent m
        ++ CloudSync.CallListItems (CloudSync.version m) (CloudSync.Limit m)
                                   (CloudSync.cursor m) :: more
    /\ Forall (fun c => c = CloudSync.CallDelta (CloudSync.version m) (CloudSync.Limit m)
                                                (CloudSync.cursor m)) more.
Proof.
  unfold CloudSync.pullAndApply. cbv zeta.
  set (m0 := CloudSync.with_sent m _).
  destruct (CloudSync.onListItems remote (CloudSync.sent m0)) as [[listResp|]|e];
    try (exists []; split; [reflexivity | constructor]).
  pose proof (applyItems_sent (CloudSync.Items listResp) m0) as Hs.
  destruct (applyItems (CloudSync.Items listResp) m0) as [m1 [e|]]; cbn [fst] in Hs.
  - exists []. split; [exact Hs | constructor].
  - exists [CloudSync.CallDelta (CloudSync.version m) (CloudSync.Limit m) (CloudSync.cursor m)].
    split; [|repeat constructor].
    destruct (CloudSync.onDelta remote _) as [d|e]; cbn [fst CloudSync.sent CloudSync.with_sent];
      rewrite Hs; unfold m0; cbn [CloudSync.sent CloudSync.with_sent];
      rewrite <- app_assoc; reflexivity.
Qed.


End ConflictRecovery.


(** * More on the solver: what the search finds, and when it ends *)

Section SolverSearch.

(** A successful search, read backwards: the nonce found, the values
    rejected before it and the clock checks passed on the way. *)
Lemma solve_loop_runs fuel now iter target base expireAt (i : nat) n ok :
  Z.of_nat i + Z.of_nat fuel <= 2 ^ 63 ->
  Pow.solve_loop fuel now iter target base expireAt (Z.of_nat i) = Some (n, ok) ->
  ok = true ->
  exists k : nat,
    (i <= k < i + fuel)%nat /\ n = Z.of_nat k /\
    pow_value base n < target /\
    (forall j : nat, (i <= j < k)%nat -> target <= pow_value base (Z.of_nat j)) /\
    (forall j : nat, (j <= k - i)%nat ->
       (0 <? expireAt) && (expireAt <=? now (iter + j)%nat) = false).
Proof.
  revert iter i. induction fuel as [|fuel IH]; intros iter i Hb H ->; [discriminate H|].
  rewrite solve_loop_S in H.
  destruct ((0 <? expireAt) && (expireAt <=? now iter)) eqn:Hc; [discriminate H|].
  destruct (Z.ltb_spec (pow_value base (Z.of_nat i)) target) as [Hlt|Hge].
  - injection H as <-. exists i.
    split; [lia|]. split; [reflexivity|]. split; [exact Hlt|]. split; [intros j Hj; lia|].
    intros j Hj. replace j with 0%nat by lia. rewrite Nat.add_0_r. exact Hc.
  - destruct fuel as [|fuel']; [discriminate H|].
    rewrite i64_small in H by lia.
    replace (Z.of_nat i + 1) with (Z.of_nat (S i)) in H by lia.
    apply IH in H as (k & Hk & -> & Hv & Hall & Hclock); [|lia|reflexivity].
    exists k. split; [lia|]. split; [reflexivity|]. split; [exact Hv|]. split.
    + intros j Hj. destruct (decide (j = i)) as [->|Hne]; [exact Hge|]. apply Hall. lia.
    + intros j Hj. destruct j as [|j]; [rewrite Nat.add_0_r; exact Hc|].
      replace (iter + S j)%nat with (S iter + j)%nat by lia. apply Hclock. lia.
Qed.

(** The search forwards: a value below the target at [m] is reached
    unless an earlier one stops the loop. *)
Lemma solve_loop_finds fuel now iter target base expireAt (i m : nat) :
  (i <= m)%nat -> (m - i < fuel)%nat -> Z.of_nat m < 2 ^ 63 ->
  (forall j : nat, (j <= m - i)%nat ->
     (0 <? expireAt) && (expireAt <=? now (iter + j)%nat) = false) ->
  pow_value base (Z.of_nat m) < target ->
  exists n : nat,
    (i <= n <= m)%nat /\
    Pow.solve_loop fuel now iter target base expireAt (Z.of_nat i) = Some (Z.of_nat n, true) /\
    pow_value base (Z.of_nat n) < target /\
    forall j : nat, (i <= j < n)%nat -> target <= pow_value base (Z.of_nat j).
Proof.
  revert iter i. induction fuel as [|fuel IH]; intros iter i Him Hf Hm Hclock Hv; [lia|].
  rewrite solve_loop_S.
  pose proof (Hclock 0%nat ltac:(lia)) as Hc. rewrite Nat.add_0_r in Hc. rewrite Hc.
  destruct (Z.ltb_spec (pow_value base (Z.of_nat i)) target) as [Hlt|Hge].
  - exists i. split; [lia|]. split; [reflexivity|]. split; [exact Hlt|]. intros j Hj. lia.
  - assert (i <> m) by (intros ->; lia).
    rewrite i64_small by lia.
    replace (Z.of_nat i + 1) with (Z.of_nat (S i)) by lia.
    destruct (IH (S iter) (S i)) as (n & Hn & E & Hvn & Hall); [lia|lia|lia| |exact Hv|].
    + intros j Hj. replace (S iter + j)%nat with (iter + S j)%nat by lia. apply Hclock. lia.
    + exists n. split; [lia|]. split; [exact E|]. split; [exact Hvn|].
      intros j Hj. destruct (decide (j = i)) as [->|Hne]; [exact Hge|]. apply Hall. lia.
Qed.

Lemma solve_loop_expires fuel now iter target base expireAt nonce (k : nat) :
  (k < fuel)%nat -> 0 < expireAt -> expireAt <= now (iter + k)%nat ->
  exists r, Pow.solve_loop fuel now iter target base expireAt nonce = Some r.
Proof.
  revert iter nonce k. induction fuel as [|fuel IH]; intros iter nonce k Hk He Hn; [lia|].
  rewrite solve_loop_S.
  destruct ((0 <? expireAt) && (expireAt <=? now iter)) eqn:Hc; [eauto|].
  destruct (pow_value base nonce <? target); [eauto|].
  destruct k as [|k].
  - rewrite Nat.add_0_r in Hn.
    destruct (Z.ltb_spec 0 expireAt); [|lia].
    destruct (Z.leb_spec expireAt (now iter)); [discriminate Hc | lia].
  - apply (IH (S iter) _ k); [lia|exact He|].
    replace (S iter + k)%nat with (iter + S k)%nat by lia. exact Hn.
Qed.

Lemma unexpired_checks now expireAt m :
  unexpired now expireAt m ->
  forall j : nat, (j <= m)%nat -> (0 <? expireAt) && (expireAt <=? now j) = false.
Proof.
  intros [Hle|Hlt] j Hj.
  - destruct (Z.ltb_spec 0 expireAt); [lia | reflexivity].
  - specialize (Hlt j Hj). destruct (Z.leb_spec expireAt (now j)); [lia|].
    apply andb_false_r.
Qed.

(** [solveNative] once the algorithm and the difficulty are accepted. *)
Lemma solveNative_searches fuel now algorithm challenge salt signature targetPath d expireAt :
  Strings.TrimSpace algorithm = "DeepSeekHashV1"%string ->
  0 < d ->
  Pow.solveNative fuel now algorithm challenge salt d expireAt signature targetPath
  = Pow.solve_loop fuel now 0 (2 ^ 256 / d) (pow_base challenge salt expireAt) expireAt 0.
Proof.
  intros Halg Hd. unfold Pow.solveNative. rewrite Halg.
  change (negb ("DeepSeekHashV1" =? "DeepSeekHashV1")%string) with false. cbv iota.
  unfold Pow.targetFromDifficulty.
  destruct (Z.leb_spec d 0) as [?|_]; [lia|]. reflexivity.
Qed.

End SolverSearch.

(** X1. If some nonce [m] has a value below the target and the clock
    checks pass up to it, the native solver, given room for [m + 1]
    iterations, returns ok with the least such nonce. *)
Theorem solveNative_finds_least_solution
    (fuel : nat) (now : nat -> Z)
    (algorithm challenge salt signature targetPath : string) (d expireAt : Z) (m : nat) :
  Strings.TrimSpace algorithm = "DeepSeekHashV1"%string ->
  0 < d ->
  (m < fuel)%nat ->
  Z.of_nat m < 2 ^ 63 ->
  unexpired now expireAt m ->
  pow_value (pow_base challenge salt expireAt) (Z.of_nat m) < 2 ^ 256 / d ->
  exists n,
    Pow.solveNative fuel now algorithm challenge salt d expireAt signature targetPath
      = Some (n, true)
    /\ 0 <= n <= Z.of_nat m
    /\ pow_value (pow_base challenge salt expireAt) n < 2 ^ 256 / d
    /\ forall j, 0 <= j < n -> 2 ^ 256 / d <= pow_value (pow_base challenge salt expireAt) j.
Proof.
  intros Halg Hd Hf Hm Hclock Hv.
  rewrite solveNative_searches by assumption.
  destruct (solve_loop_finds fuel now 0 (2 ^ 256 / d) (pow_base challenge salt expireAt)
              expireAt 0 m) as (n & Hn & E & Hvn & Hall).
  - lia.
  - lia.
  - exact Hm.
  - intros j Hj. apply (unexpired_checks now expireAt m Hclock). lia.
  - exact Hv.
  - exists (Z.of_nat n). split; [exact E|]. split; [lia|]. split; [exact Hvn|].
    intros j Hj. specialize (Hall (Z.to_nat j) ltac:(lia)).
    rewrite Z2Nat.id in Hall by lia. exact Hall.
Qed.

Lemma solveNative_finds_least_solution_witness :
  exists n,
    Pow.solveNative 3 (fun _ => 0) "DeepSeekHashV1" "abc" "salt" 4 0 "" "" = Some (n, true)
    /\ 0 <= n <= Z.of_nat 2
    /\ pow_value (pow_base "abc" "salt" 0) n < 2 ^ 256 / 4
    /\ forall j, 0 <= j < n -> 2 ^ 256 / 4 <= pow_value (pow_base "abc" "salt" 0) j.
Proof.
  apply (solveNative_finds_least_solution 3 (fun _ => 0) "DeepSeekHashV1" "abc" "salt" "" ""
           4 0 2).
  - vm_compute. reflexivity.
  - lia.
  - lia.
  - vm_compute. reflexivity.
  - left. lia.
  - vm_compute. reflexivity.
Defined.

(** X2. With a positive expiry, the native solver has returned by the
    iteration in which the clock reads the expiry or later: it cannot run
    past the deadline, whatever the difficulty. *)
Theorem solveNative_returns_once_expired
    (fuel : nat) (now : nat -> Z)
    (algorithm challenge salt signature targetPath : string) (d expireAt : Z) (k : nat) :
  0 < expireAt ->
  (k < fuel)%nat ->
  expireAt <= now k ->
  exists r,
    Pow.solveNative fuel now algorithm challenge salt d expireAt signature targetPath = Some r.
Proof.
  intros He Hk Hn. unfold Pow.solveNative.
  destruct (negb _); [eauto|].
  destruct (Pow.targetFromDifficulty d) as [target|]; [|eauto].
  cbv zeta. apply (solve_loop_expires fuel now 0 target _ expireAt 0 k); assumption.
Qed.

Lemma solveNative_returns_once_expired_witness :
  exists r,
    Pow.solveNative 3 (fun k => Z.of_nat k) "DeepSeekHashV1" "abc" "salt" 1000000 2 "" ""
    = Some r.
Proof.
  apply (solveNative_returns_once_expired 3 (fun k => Z.of_nat k) "DeepSeekHashV1" "abc"
           "salt" "" "" 1000000 2 2); [lia | lia | cbn; lia].
Defined.

(** X3. A lower difficulty is never harder: when the native solver
    returns ok with nonce [n2] at difficulty [d2], it returns ok at every
    positive difficulty [d1 <= d2] for the same challenge and clock, with
    a nonce that is not larger. *)
Theorem solveNative_lower_difficulty_not_later
    (fuel : nat) (now : nat -> Z)
    (algorithm challenge salt signature targetPath : string) (d1 d2 expireAt n2 : Z) :
  0 < d1 <= d2 ->
  Z.of_nat fuel <= 2 ^ 63 ->
  Pow.solveNative fuel now algorithm challenge salt d2 expireAt signature targetPath
    = Some (n2, true) ->
  exists n1,
    Pow.solveNative fuel now algorithm challenge salt d1 expireAt signature targetPath
      = Some (n1, true)
    /\ 0 <= n1 <= n2.
Proof.
  intros Hd Hfuel H2.
  assert (Halg : Strings.TrimSpace algorithm = "DeepSeekHashV1"%string).
  { unfold Pow.solveNative in H2.
    destruct (String.eqb_spec (Strings.TrimSpace algorithm) "DeepSeekHashV1") as [E|_];
      [exact E | discriminate H2]. }
  rewrite solveNative_searches in H2 by (first [assumption | lia]).
  rewrite solveNative_searches by (first [assumption | lia]).
  apply (solve_loop_runs fuel now 0%nat _ _ _ 0%nat) in H2
    as (k & Hk & -> & Hv & _ & Hclock); [|lia|reflexivity].
  assert (Ht : 2 ^ 256 / d2 <= 2 ^ 256 / d1) by (apply Z.div_le_compat_l; lia).
  destruct (solve_loop_finds fuel now 0 (2 ^ 256 / d1) (pow_base challenge salt expireAt)
              expireAt 0 k) as (n & Hn & E & _).
  - lia.
  - lia.
  - lia.
  - intros j Hj. apply Hclock. lia.
  - lia.
  - exists (Z.of_nat n). split; [exact E | lia].
Qed.

Lemma solveNative_lower_difficulty_not_later_witness :
  exists n1,
    Pow.solveNative 100 (fun _ => 0) "DeepSeekHashV1" "abc" "salt" 2 0 "" "" = Some (n1, true)
    /\ 0 <= n1 <= 2.
Proof.
  apply (solveNative_lower_difficulty_not_later 100 (fun _ => 0) "DeepSeekHashV1" "abc"
           "salt" "" "" 2 4 0 2).
  - lia.
  - lia.
  - vm_compute. reflexivity.
Defined.

(** X4. [littleEndianInt] is the little-endian value of the digest:
    byte [i] counts [256 ^ i]. *)
Theorem littleEndianInt_is_little_endian (b : list byte) :
  length b = 32%nat ->
  Pow.littleEndianInt b = KeccakRef.le_value b.
Proof.
  intros H.
  do 32 (destruct b as [|? b]; [discriminate H|]).
  destruct b; [|discriminate H]. clear H.
  unfold Pow.littleEndianInt, Pow.SetBytes.
  cbv -[Z.add Z.mul Z_of_byte].
  ring.
Qed.

Lemma littleEndianInt_is_little_endian_witness :
  Pow.littleEndianInt (x01 :: x02 :: repeat x00 30)
  = KeccakRef.le_value (x01 :: x02 :: repeat x00 30).
Proof.
  apply (littleEndianInt_is_little_endian (x01 :: x02 :: repeat x00 30)). reflexivity.
Defined.

Section HashKeys.

Lemma hex_digit_in (n : N) : (n < 16)%N -> In (Strings.hex_digit n) Strings.hextable.
Proof.
  intros H. unfold Strings.hex_digit.
  apply nth_In. change (length Strings.hextable) with 16%nat. lia.
Qed.

Lemma EncodeToString_hex (src : list byte) :
  String.length (Strings.EncodeToString src) = (2 * length src)%nat
  /\ hex_string (Strings.EncodeToString src).
Proof.
  unfold hex_string. induction src as [|v src [IHl IHh]]; [split; [reflexivity | constructor]|].
  cbn [Strings.EncodeToString String.length length list_ascii_of_string].
  split; [rewrite IHl; lia|].
  pose proof (Byte.to_N_bounded v) as Hb.
  constructor; [|constructor; [|exact IHh]]; apply hex_digit_in.
  - rewrite N.shiftr_div_pow2. apply N.Div0.div_lt_upper_bound.
    change (2 ^ 4 * 16)%N with 256%N. lia.
  - change 15%N with (N.ones 4). rewrite N.land_ones.
    apply N.mod_lt. discriminate.
Qed.

End HashKeys.

(** A cache key is always 64 lower-case hexadecimal digits,
    whatever the parts. *)
Theorem HashKey_is_64_hex_digits (parts : list string) :
  String.length (Pow.HashKey parts) = 64%nat /\ hex_string (Pow.HashKey parts).
Proof.
  unfold Pow.HashKey. cbv zeta.
  destruct (EncodeToString_hex
              (Pow.deepSeekHashV1 (bytes_of_string (Strings.Join parts "|")))) as [Hl Hh].
  rewrite length_deepSeekHashV1 in Hl. split; [exact Hl | exact Hh].
Qed.

(** X5. The key is taken from the parts joined with a bar and nothing
    else, so the boundary between two parts is not part of the key: a
    part list and the list with its first two parts joined by a bar have
    the same key. *)
Theorem HashKey_joins_parts (a b : string) (rest : list string) :
  Pow.HashKey (a :: b :: rest) = Pow.HashKey ((a ++ "|" ++ b)%string :: rest).
Proof.
  unfold Pow.HashKey. do 3 f_equal.
  destruct rest as [|c rest]; [reflexivity|].
  cbn [Strings.Join]. rewrite !append_assoc. reflexivity.
Qed.

(** * More on the answer cache, and the caller that fills it *)

Section CacheWindow.

Lemma step_spares (c : gmap string Cache.entry) key e o :
  c !! key = Some e ->
  spares key (Cache.ExpireAt e) o ->
  Cache.step c o !! key = Some e.
Proof.
  intros Hc Hk. destruct o as [k now|k v ex now]; cbn [Cache.step spares] in *.
  - destruct (decide (k = key)) as [->|Hne].
    + rewrite (Get_nonpositive_expiry c key e now Hc); [exact Hc|].
      destruct Hk as [Hk|Hk]; [done | exact Hk].
    + unfold Cache.Get. destruct (c !! k) as [e'|]; [|exact Hc].
      destruct ((0 <? Cache.ExpireAt e') && (Cache.ExpireAt e' <=? now)); [|exact Hc].
      cbn [fst]. rewrite lookup_delete_ne by done. exact Hc.
  - unfold Cache.Set_. destruct ((0 <? ex) && (ex <=? now)); [exact Hc|].
    rewrite lookup_insert_ne by done. exact Hc.
Qed.

Lemma run_spares ops (c : gmap string Cache.entry) key e :
  c !! key = Some e ->
  Forall (spares key (Cache.ExpireAt e)) ops ->
  Cache.run c ops !! key = Some e.
Proof.
  intros Hc Hops. revert c Hc. unfold Cache.run.
  induction Hops as [|o ops Ho Hops IH]; intros c Hc; cbn [fold_left]; [exact Hc|].
  apply IH. apply step_spares; assumption.
Qed.

Lemma Set_stores (c : gmap string Cache.entry) key val expireAt now :
  expireAt <= 0 \/ now < expireAt ->
  Cache.Set_ c key val expireAt now
  = <[key := {| Cache.Val := val; Cache.ExpireAt := i64 (expireAt - 1) |}]> c.
Proof.
  intros H. unfold Cache.Set_.
  destruct (Z.ltb_spec 0 expireAt); [|reflexivity].
  destruct (Z.leb_spec expireAt now); [lia | reflexivity].
Qed.

End CacheWindow.

(** X6. An entry set with a positive [expire_at] that the clock has not
    reached is stored with the stamp [expire_at - 1].  After any calls
    that spare it, a [Get] returns the value while the clock is below
    [expire_at - 1]; from that second on (one second before [expire_at])
    the [Get] misses and deletes the entry.  With [expire_at = 1] the stamp
    is 0, and the entry never expires. *)
Theorem cache_positive_expiry_window
    (c : gmap string Cache.entry) (key val : string) (expireAt now0 : Z)
    (ops : list Cache.op) (t : Z) :
  0 < expireAt <= maxInt64 ->
  now0 < expireAt ->
  Forall (spares key (expireAt - 1)) ops ->
  let c1 := Cache.Set_ c key val expireAt now0 in
  let c2 := Cache.run c1 ops in
  Cache.Get c2 key t
  = if (1 <? expireAt) && (expireAt - 1 <=? t) then (delete key c2, (EmptyString, false))
    else (c2, (val, true)).
Proof.
  intros He Hnow Hops c1 c2. unfold maxInt64 in He.
  set (stored := {| Cache.Val := val; Cache.ExpireAt := expireAt - 1 |}).
  assert (H1 : c1 !! key = Some stored).
  { unfold c1. rewrite Set_stores by lia. rewrite i64_small by lia.
    apply lookup_insert_eq. }
  assert (H2 : c2 !! key = Some stored) by (apply run_spares; assumption).
  unfold Cache.Get. rewrite H2. cbn [Cache.ExpireAt Cache.Val stored].
  replace (0 <? expireAt - 1) with (1 <? expireAt); [reflexivity|].
  destruct (Z.ltb_spec 1 expireAt), (Z.ltb_spec 0 (expireAt - 1)); (reflexivity || lia).
Qed.

Lemma cache_positive_expiry_window_witness :
  let c1 := Cache.Set_ Cache.NewCache "k" "answer" 1700000060 1700000000 in
  let c2 := Cache.run c1 [Cache.OpGet "k" 1700000005; Cache.OpSet "j" "w" 0 1700000006] in
  Cache.Get c2 "k" 1700000059
  = if (1 <? 1700000060) && (1700000060 - 1 <=? 1700000059)
    then (delete "k"%string c2, (EmptyString, false))
    else (c2, ("answer"%string, true)).
Proof.
  apply (cache_positive_expiry_window Cache.NewCache "k" "answer" 1700000060 1700000000
           [Cache.OpGet "k" 1700000005; Cache.OpSet "j" "w" 0 1700000006] 1700000059).
  - unfold maxInt64. lia.
  - lia.
  - repeat constructor; cbn; first [right; right; lia | discriminate].
Defined.

Section GetPoWProofs.

Variable encode : Clients.PowAnswer -> string.

Lemma attempts_never_challenged fuel solver reply clock (n i : nat)
    (cache : gmap string Cache.entry) :
  (forall j : nat, (i <= j < i + n)%nat ->
     reply j = Clients.PowTransportError \/ reply j = Clients.PowRejected) ->
  Clients.attempts encode fuel solver reply clock n i cache
  = Some (cache, EmptyString, Some "failed get pow"%string).
Proof.
  revert i. induction n as [|n IH]; intros i H; [reflexivity|].
  cbn [Clients.attempts].
  destruct (H i ltac:(lia)) as [-> | ->]; apply IH; intros j Hj; apply H; lia.
Qed.

Lemma key_of_same c c' : same_key_fields c c' -> Clients.key_of c = Clients.key_of c'.
Proof.
  intros (E1 & E2 & E3 & E4 & E5). unfold Clients.key_of.
  rewrite E1, E2, E3, E4, E5. reflexivity.
Qed.

End GetPoWProofs.

(** X7. When none of the [maxAttempts] requests of the call brings a
    usable challenge (transport error, wrong status or code), [GetPoW]
    returns the empty string and the error "failed get pow" and leaves the
    cache as it was, whatever the solver and the clock are; so it does for
    [maxAttempts <= 0], where there is no request at all. *)
Theorem GetPoW_gives_up
    (encode : Clients.PowAnswer -> string) (fuel : nat)
    (solver : nat -> Pow.DeepSeekHashSolver) (reply : nat -> Clients.PowReply)
    (clock : nat -> Clients.Clock) (cache : gmap string Cache.entry) (maxAttempts : Z) :
  never_challenges reply (Z.to_nat maxAttempts) ->
  Clients.GetPoW encode fuel solver reply clock cache maxAttempts
  = Some (cache, EmptyString, Some "failed get pow"%string).
Proof.
  intros H. unfold Clients.GetPoW. apply attempts_never_challenged.
  intros j Hj. apply H. lia.
Qed.

Lemma GetPoW_gives_up_witness :
  Clients.GetPoW (fun _ => "x"%string) 0
    (fun _ => {| Pow.mode := "native";
                 Pow.wasm := {| Pow.init_ok := false; Pow.add_stack_ok := false;
                                Pow.encode_challenge_ok := false;
                                Pow.encode_prefix_ok := false; Pow.call_ok := false;
                                Pow.status_read := None; Pow.value_read := None |} |})
    (fun i => if Nat.even i then Clients.PowRejected else Clients.PowTransportError)
    (fun _ => {| Clients.at_get := 0; Clients.at_solve := fun _ => 0; Clients.at_set := 0 |})
    Cache.NewCache 3
  = Some (Cache.NewCache, EmptyString, Some "failed get pow"%string).
Proof.
  apply (GetPoW_gives_up (fun _ => "x"%string) 0 _
           (fun i => if Nat.even i then Clients.PowRejected else Clients.PowTransportError)).
  intros i _. destruct (Nat.even i); [right | left]; reflexivity.
Defined.

(** X8. An answer is solved once per cache key.  When the first attempt
    of a [GetPoW] call misses the cache, solves the challenge and stores
    the encoded answer, a later call whose first challenge has the same
    algorithm, challenge, salt, signature and target path returns that
    answer from the cache, as long as the clock is below the stored stamp
    [expire_at - 1] (or the stamp is not positive): the solver is not
    consulted, and the difficulty and expiry of the later challenge play no
    part. *)
Theorem GetPoW_reuses_cached_answer
    (encode : Clients.PowAnswer -> string)
    (fuel1 fuel2 : nat) (solver1 solver2 : nat -> Pow.DeepSeekHashSolver)
    (reply1 reply2 : nat -> Clients.PowReply) (clock1 clock2 : nat -> Clients.Clock)
    (cache : gmap string Cache.entry) (n1 n2 : Z) (c c' : Clients.Challenge) (ans : Z) :
  0 < n1 -> 0 < n2 ->
  reply1 0%nat = Clients.PowChallenge c ->
  cache !! Clients.key_of c = None ->
  Pow.Solve (solver1 0%nat) fuel1 (Clients.at_solve (clock1 0%nat))
    (Clients.algorithm c) (Clients.challenge c) (Clients.salt c) (Clients.difficulty c)
    (Clients.expire_at c) (Clients.signature c) (Clients.target_path c) = Some (ans, true) ->
  minInt64 < Clients.expire_at c <= maxInt64 ->
  Clients.expire_at c <= 0 \/ Clients.at_set (clock1 0%nat) < Clients.expire_at c ->
  reply2 0%nat = Clients.PowChallenge c' ->
  same_key_fields c c' ->
  Clients.expire_at c <= 1 \/ Clients.at_get (clock2 0%nat) < Clients.expire_at c - 1 ->
  let enc :=
    encode {| Clients.Algorithm := Clients.algorithm c;
              Clients.Challenge_ := Clients.challenge c;
              Clients.Salt := Clients.salt c; Clients.Answer := ans;
              Clients.Signature := Clients.signature c;
              Clients.TargetPath := Clients.target_path c |} in
  let cache1 :=
    <[Clients.key_of c :=
        {| Cache.Val := enc; Cache.ExpireAt := Clients.expire_at c - 1 |}]> cache in
  Clients.GetPoW encode fuel1 solver1 reply1 clock1 cache n1 = Some (cache1, enc, None)
  /\ Clients.GetPoW encode fuel2 solver2 reply2 clock2 cache1 n2 = Some (cache1, enc, None).
Proof.
  intros Hn1 Hn2 Hr1 Hmiss Hsolve Hrange Hset Hr2 Hsame Hget enc cache1.
  unfold minInt64, maxInt64 in Hrange. unfold Clients.GetPoW.
  destruct (Z.to_nat n1) as [|k1] eqn:E1; [lia|].
  destruct (Z.to_nat n2) as [|k2] eqn:E2; [lia|].
  split.
  - cbn [Clients.attempts]. rewrite Hr1. unfold Cache.Get. rewrite Hmiss.
    rewrite Hsolve. fold enc. rewrite Set_stores by exact Hset.
    rewrite i64_small by lia. reflexivity.
  - cbn [Clients.attempts]. rewrite Hr2, <- (key_of_same c c' Hsame).
    rewrite (Get_nonpositive_expiry cache1 (Clients.key_of c)
               {| Cache.Val := enc; Cache.ExpireAt := Clients.expire_at c - 1 |}).
    + reflexivity.
    + apply lookup_insert_eq.
    + cbn [Cache.ExpireAt]. lia.
Qed.

Lemma GetPoW_reuses_cached_answer_witness :
  let solver := fun _ : nat =>
    {| Pow.mode := "native";
       Pow.wasm := {| Pow.init_ok := false; Pow.add_stack_ok := false;
                      Pow.encode_challenge_ok := false;
                      Pow.encode_prefix_ok := false; Pow.call_ok := false;
                      Pow.status_read := None; Pow.value_read := None |} |} in
  let c := {| Clients.algorithm := "DeepSeekHashV1"; Clients.challenge := "abc";
              Clients.salt := "salt"; Clients.signature := "sig";
              Clients.target_path := "/api/v0/chat/completion";
              Clients.difficulty := 4; Clients.expire_at := 1700000060 |} in
  let c' := {| Clients.algorithm := "DeepSeekHashV1"; Clients.challenge := "abc";
               Clients.salt := "salt"; Clients.signature := "sig";
               Clients.target_path := "/api/v0/chat/completion";
               Clients.difficulty := 144000; Clients.expire_at := 1700000090 |} in
  let clock := fun _ : nat =>
    {| Clients.at_get := 1700000001; Clients.at_solve := fun _ => 1700000001;
       Clients.at_set := 1700000002 |} in
  let enc :=
    (fun a : Clients.PowAnswer => Strings.FormatInt (Clients.Answer a))
      {| Clients.Algorithm := Clients.algorithm c;
         Clients.Challenge_ := Clients.challenge c;
         Clients.Salt := Clients.salt c; Clients.Answer := 0;
         Clients.Signature := Clients.signature c;
         Clients.TargetPath := Clients.target_path c |} in
  let cache1 :=
    <[Clients.key_of c :=
        {| Cache.Val := enc; Cache.ExpireAt := Clients.expire_at c - 1 |}]>
      Cache.NewCache in
  Clients.GetPoW (fun a => Strings.FormatInt (Clients.Answer a)) 10 solver
    (fun _ => Clients.PowChallenge c) clock Cache.NewCache 3 = Some (cache1, enc, None)
  /\ Clients.GetPoW (fun a => Strings.FormatInt (Clients.Answer a)) 0 solver
       (fun _ => Clients.PowChallenge c') clock cache1 3 = Some (cache1, enc, None).
Proof.
  intros solver c c' clock.
  apply (GetPoW_reuses_cached_answer (fun a => Strings.FormatInt (Clients.Answer a))
           10 0 solver solver (fun _ => Clients.PowChallenge c)
           (fun _ => Clients.PowChallenge c') clock clock Cache.NewCache 3 3 c c' 0).
  - lia.
  - lia.
  - reflexivity.
  - apply lookup_empty.
  - vm_compute. reflexivity.
  - vm_compute. split; [reflexivity | discriminate].
  - right. cbn. lia.
  - reflexivity.
  - repeat split.
  - right. cbn. lia.
Defined.

(** * More on the account pool *)

Section PoolInvariant.

Lemma Acquire_pool exclude now r (w : Accounts.World) :
  let w' := fst (Accounts.Acquire exclude now r w) in
  Accounts.accounts (Accounts.pool w') = Accounts.accounts (Accounts.pool w)
  /\ match snd (Accounts.Acquire exclude now r w) with
     | None => Accounts.active (Accounts.pool w') = Accounts.active (Accounts.pool w)
     | Some l =>
         exists acc,
           acc ∈ Accounts.accounts (Accounts.pool w)
           /\ Accounts.cells w' !! l = Some acc
           /\ Accounts.active (Accounts.pool w')
              = <[Accounts.AccountID acc :=
                    i64 (Accounts.count (Accounts.active (Accounts.pool w))
                                        (Accounts.AccountID acc) + 1)]>
                  (Accounts.active (Accounts.pool w))
     end.
Proof.
  unfold Accounts.Acquire.
  destruct (Accounts.accounts (Accounts.pool w)) as [|first rest] eqn:Hacc.
  - cbn [fst snd Accounts.with_pool Accounts.pool].
    destruct (30 <? _); cbn [Accounts.accounts Accounts.active]; split; (reflexivity || exact Hacc).
  - cbv zeta. cbn [fst snd Accounts.pool Accounts.with_active Accounts.accounts
                   Accounts.active Accounts.cells].
    split; [exact Hacc|].
    eexists. split; [|split; [|reflexivity]].
    + apply list_elem_of_In.
      destruct (nth_in_or_default
                  (nth (r mod length (Accounts.candidates exclude (first :: rest)))
                       (Accounts.candidates exclude (first :: rest)) 0%nat)
                  (first :: rest) first) as [Hin| ->]; [exact Hin | left; reflexivity].
    + rewrite lookup_app_r by lia. rewrite Nat.sub_diag. reflexivity.
Qed.

Lemma Release_active (a : option nat) (w : Accounts.World) :
  Accounts.accounts (Accounts.pool (Accounts.Release a w)) = Accounts.accounts (Accounts.pool w)
  /\ dom (Accounts.active (Accounts.pool (Accounts.Release a w)))
     ⊆ dom (Accounts.active (Accounts.pool w)).
Proof.
  unfold Accounts.Release. destruct a as [l|]; [|done].
  destruct (Accounts.cells w !! l) as [acc|]; [|done].
  set (m := Accounts.active (Accounts.pool w)). set (id := Accounts.AccountID acc).
  destruct (Z.ltb_spec 1 (Accounts.count m id)) as [Hgt|Hle];
    cbn [Accounts.with_pool Accounts.pool Accounts.with_active Accounts.accounts Accounts.active].
  - split; [reflexivity|]. rewrite dom_insert.
    assert (Hid : id ∈ dom m).
    { apply elem_of_dom. unfold Accounts.count in Hgt.
      destruct (m !! id) as [v|]; [eauto | cbn in Hgt; lia]. }
    intros x Hx. apply elem_of_union in Hx as [Hx|Hx]; [|exact Hx].
    apply elem_of_singleton in Hx. subst x. exact Hid.
  - split; [reflexivity|]. rewrite dom_delete.
    intros x Hx. apply elem_of_difference in Hx as [Hx _]. exact Hx.
Qed.

Lemma EnsureToken_pool login (a : option nat) (w : Accounts.World) :
  Accounts.pool (fst (Accounts.EnsureToken login a w)) = Accounts.pool w.
Proof.
  unfold Accounts.EnsureToken. destruct a as [l|]; [|reflexivity].
  destruct (Accounts.cells w !! l) as [acc|]; [|reflexivity].
  destruct (_ && _); [reflexivity|].
  destruct (_ || _); [destruct (Accounts.nonblank _); reflexivity|].
  cbv zeta. destruct (login _); try reflexivity.
  destruct (negb _); reflexivity.
Qed.

Lemma pool_exec_keeps_ids (w : Accounts.World) (c : pool_call) :
  dom (Accounts.active (Accounts.pool w)) ⊆ roster_ids (Accounts.pool w) ->
  dom (Accounts.active (Accounts.pool (pool_exec w c)))
    ⊆ roster_ids (Accounts.pool (pool_exec w c)).
Proof.
  intros Hw. destruct c as [exclude now r|a|accs refresh mx draw|refresh mx draw|login a];
    cbn [pool_exec].
  - destruct (Acquire_pool exclude now r w) as [Hacc Hact]. cbv zeta in *.
    unfold roster_ids in *. rewrite Hacc.
    destruct (snd (Accounts.Acquire exclude now r w)) as [l|].
    + destruct Hact as (acc & Hin & _ & ->). rewrite dom_insert.
      assert (Accounts.AccountID acc
                ∈ (list_to_set (map Accounts.AccountID (Accounts.accounts (Accounts.pool w)))
                   : gset string)).
      { apply elem_of_list_to_set, list_elem_of_fmap. eauto. }
      intros x Hx. apply elem_of_union in Hx as [Hx|Hx]; [|apply Hw, Hx].
      apply elem_of_singleton in Hx. subst x. exact H.
    + rewrite Hact. exact Hw.
  - destruct (Release_active a w) as [Hacc Hdom]. unfold roster_ids in *. rewrite Hacc.
    intros x Hx. apply Hw, Hdom, Hx.
  - unfold Accounts.Reload. cbn [Accounts.with_pool Accounts.pool].
    apply (reloadLocked_spec accs refresh mx draw (Accounts.pool w)).
  - unfold Accounts.UpdateRuntime. cbn [Accounts.with_pool Accounts.pool].
    apply (reloadLocked_spec _ refresh mx draw (Accounts.pool w)).
  - rewrite EnsureToken_pool. exact Hw.
Qed.

Lemma size_list_to_set_le (l : list string) :
  (size (list_to_set l : gset string) <= length l)%nat.
Proof.
  induction l as [|x l IH]; [rewrite list_to_set_nil, size_empty; done|].
  rewrite list_to_set_cons. cbn [length]. rewrite size_union_alt, size_singleton.
  assert (size (list_to_set l ∖ {[x]} : gset string) <= size (list_to_set l : gset string))%nat.
  { apply subseteq_size. intros y Hy. apply elem_of_difference in Hy as [Hy _]. exact Hy. }
  lia.
Qed.

Lemma run_keeps_ids calls (w : Accounts.World) :
  dom (Accounts.active (Accounts.pool w)) ⊆ roster_ids (Accounts.pool w) ->
  dom (Accounts.active (Accounts.pool (fold_left pool_exec calls w)))
    ⊆ roster_ids (Accounts.pool (fold_left pool_exec calls w)).
Proof.
  revert w. induction calls as [|c calls IH]; intros w Hw; cbn [fold_left]; [exact Hw|].
  apply IH, pool_exec_keeps_ids, Hw.
Qed.

End PoolInvariant.

(** X9. From [NewPool] on, whatever is called on the pool (Acquire,
    Release, Reload, UpdateRuntime, EnsureToken, in any order and with any
    arguments), every session counter belongs to an account of the current
    roster, so the status never reports more accounts in use than the
    roster holds, and [available] is not negative. *)
Theorem pool_in_use_within_roster
    (accs : list Accounts.AccountConfig) (refresh : bool) (maxActive : Z) (url : string)
    (draw : nat -> nat) (calls : list pool_call) :
  let w := fold_left pool_exec calls (fresh_world accs refresh maxActive url draw) in
  let s := Accounts.GetStatus w in
  dom (Accounts.active (Accounts.pool w)) ⊆ roster_ids (Accounts.pool w)
  /\ 0 <= Accounts.in_use s <= Accounts.total s
  /\ (Accounts.total s < 2 ^ 63 ->
      Accounts.available s = Accounts.total s - Accounts.in_use s
      /\ 0 <= Accounts.available s).
Proof.
  intros w s.
  assert (Hdom : dom (Accounts.active (Accounts.pool w)) ⊆ roster_ids (Accounts.pool w)).
  { apply run_keeps_ids. unfold fresh_world, Accounts.NewPool. cbn [Accounts.pool].
    apply (reloadLocked_spec accs refresh maxActive draw). }
  split; [exact Hdom|].
  assert (Hle : (size (Accounts.active (Accounts.pool w))
                 <= length (Accounts.accounts (Accounts.pool w)))%nat).
  { rewrite <- size_dom. etransitivity; [apply subseteq_size, Hdom|].
    unfold roster_ids. etransitivity; [apply size_list_to_set_le|].
    rewrite length_map. reflexivity. }
  unfold s, Accounts.GetStatus. cbv zeta.
  cbn [Accounts.in_use Accounts.total Accounts.available].
  split; [lia|]. intros Hb. rewrite i64_small by lia. lia.
Qed.
Section PoolAcquire.

Lemma candidates_spec exclude (accs : list Accounts.Account) :
  accs <> [] ->
  let c := Accounts.candidates exclude accs in
  c <> []
  /\ (forall i, In i c -> (i < length accs)%nat)
  /\ ((exists a, a ∈ accs /\ Accounts.excluded exclude (Accounts.AccountID a) = false) ->
      forall i d, In i c ->
        Accounts.excluded exclude (Accounts.AccountID (nth i accs d)) = false).
Proof.
  intros Hne. unfold Accounts.candidates. cbv zeta.
  set (dflt := {| Accounts.Email := ""; Accounts.Mobile := "";
                  Accounts.Password := ""; Accounts.Token := "" |}).
  set (keep := fun i : nat =>
                 negb (Accounts.excluded exclude (Accounts.AccountID (nth i accs dflt)))).
  destruct (List.filter keep (seq 0 (length accs))) as [|i0 rest] eqn:Hf.
  - split; [|split].
    + destruct accs; [contradiction | discriminate].
    + intros i Hi. apply in_seq in Hi. lia.
    + intros (a & Ha & Hex) i d Hi. exfalso.
      apply list_elem_of_In, In_nth with (d := dflt) in Ha as (k & Hk & Hka).
      assert (Hin : In k (List.filter keep (seq 0 (length accs)))).
      { apply filter_In. split; [apply in_seq; lia|]. unfold keep. rewrite Hka, Hex. reflexivity. }
      rewrite Hf in Hin. exact Hin.
  - rewrite <- Hf. split; [rewrite Hf; discriminate|]. split.
    + intros i Hi. apply filter_In in Hi as [Hi _]. apply in_seq in Hi. lia.
    + intros _ i d Hi. apply filter_In in Hi as [Hi Hk]. apply in_seq in Hi.
      unfold keep in Hk. apply negb_true_iff in Hk.
      rewrite (nth_indep accs d dflt) by lia. exact Hk.
Qed.

Lemma Acquire_picks
    (exclude : option (gmap string bool)) (now : Z) (r : nat) (w : Accounts.World) :
  Accounts.accounts (Accounts.pool w) <> [] ->
  exists l acc,
    snd (Accounts.Acquire exclude now r w) = Some l
    /\ Accounts.cells (fst (Accounts.Acquire exclude now r w)) !! l = Some acc
    /\ acc ∈ Accounts.accounts (Accounts.pool w)
    /\ ((exists a, a ∈ Accounts.accounts (Accounts.pool w)
                   /\ Accounts.excluded exclude (Accounts.AccountID a) = false) ->
        Accounts.excluded exclude (Accounts.AccountID acc) = false).
Proof.
  intros Hne. unfold Accounts.Acquire.
  destruct (Accounts.accounts (Accounts.pool w)) as [|first rest] eqn:Hacc; [contradiction|].
  cbv zeta. cbn [fst snd Accounts.cells].
  destruct (candidates_spec exclude (first :: rest) Hne) as (Hc & Hlt & Hex).
  set (c := Accounts.candidates exclude (first :: rest)) in *.
  set (idx := nth (r mod length c) c 0%nat).
  assert (Hidx : In idx c).
  { apply nth_In. apply Nat.mod_upper_bound. destruct c; [contradiction | discriminate]. }
  exists (length (Accounts.cells w)), (nth idx (first :: rest) first).
  split; [reflexivity|]. split.
  { rewrite lookup_app_r by lia. rewrite Nat.sub_diag. reflexivity. }
  split.
  { apply list_elem_of_In, nth_In, Hlt, Hidx. }
  intros Hsome. apply Hex; assumption.
Qed.

End PoolAcquire.

(** X10. On a roster that is not empty [Acquire] always hands out an
    account, a copy of a roster entry.  It avoids the excluded identifiers
    whenever some account is not excluded; only when every account is
    excluded does it fall back to the whole roster. *)
Theorem Acquire_avoids_excluded
    (exclude : option (gmap string bool)) (now : Z) (r : nat) (w : Accounts.World) :
  Accounts.accounts (Accounts.pool w) <> [] ->
  exists l acc,
    snd (Accounts.Acquire exclude now r w) = Some l
    /\ Accounts.cells (fst (Accounts.Acquire exclude now r w)) !! l = Some acc
    /\ acc ∈ Accounts.accounts (Accounts.pool w)
    /\ ((exists a, a ∈ Accounts.accounts (Accounts.pool w)
                   /\ Accounts.excluded exclude (Accounts.AccountID a) = false) ->
        Accounts.excluded exclude (Accounts.AccountID acc) = false).
Proof. exact (Acquire_picks exclude now r w). Qed.

Lemma Acquire_avoids_excluded_witness :
  exists l acc,
    snd (Accounts.Acquire (Some {[ "a@x"%string := true ]}) 0 7
           (fresh_world [acct "a@x" "t1"; acct "b@x" "t2"] false 2 "u" (fun _ => 0%nat)))
    = Some l
    /\ Accounts.cells
         (fst (Accounts.Acquire (Some {[ "a@x"%string := true ]}) 0 7
                 (fresh_world [acct "a@x" "t1"; acct "b@x" "t2"] false 2 "u"
                              (fun _ => 0%nat)))) !! l = Some acc
    /\ acc ∈ Accounts.accounts
               (Accounts.pool
                  (fresh_world [acct "a@x" "t1"; acct "b@x" "t2"] false 2 "u"
                               (fun _ => 0%nat)))
    /\ ((exists a,
           a ∈ Accounts.accounts
                 (Accounts.pool
                    (fresh_world [acct "a@x" "t1"; acct "b@x" "t2"] false 2 "u"
                                 (fun _ => 0%nat)))
           /\ Accounts.excluded (Some {[ "a@x"%string := true ]}) (Accounts.AccountID a)
              = false) ->
        Accounts.excluded (Some {[ "a@x"%string := true ]}) (Accounts.AccountID acc) = false).
Proof.
  apply (Acquire_avoids_excluded (Some {[ "a@x"%string := true ]}) 0 7
           (fresh_world [acct "a@x" "t1"; acct "b@x" "t2"] false 2 "u" (fun _ => 0%nat))).
  vm_compute. discriminate.
Defined.
Section PoolRoundTrip.

Lemma pool_eta (p : Accounts.Pool) :
  {| Accounts.accounts := Accounts.accounts p; Accounts.active := Accounts.active p;
     Accounts.refresh := Accounts.refresh p; Accounts.maxAccounts := Accounts.maxAccounts p;
     Accounts.loginURL := Accounts.loginURL p; Accounts.lastWarnUnix := Accounts.lastWarnUnix p |}
  = p.
Proof. destruct p. reflexivity. Qed.

Lemma count_insert (m : gmap string Z) id v : Accounts.count (<[id := v]> m) id = v.
Proof. unfold Accounts.count. rewrite lookup_insert_eq. reflexivity. Qed.

(** On the counters, a release undoes the acquire before it. *)
Lemma counters_round_trip (m : gmap string Z) id n :
  counters_within m n -> 0 <= n < 2 ^ 63 - 1 ->
  let m' := <[id := i64 (Accounts.count m id + 1)]> m in
  (if 1 <? Accounts.count m' id then <[id := i64 (Accounts.count m' id - 1)]> m'
   else delete id m') = m.
Proof.
  intros Hm Hn. cbv zeta. rewrite !count_insert.
  assert (Hc : 0 <= Accounts.count m id <= n
               /\ (Accounts.count m id = 0 -> m !! id = None)
               /\ (0 < Accounts.count m id -> m !! id = Some (Accounts.count m id))).
  { unfold Accounts.count. destruct (m !! id) as [v|] eqn:E;
      cbn [default from_option Datatypes.id].
    - apply Hm in E. split; [lia|]. split; [intros ->; lia | reflexivity].
    - split; [lia|]. split; [reflexivity | intros ?; lia]. }
  destruct Hc as (Hr & H0 & Hp).
  rewrite (i64_small (Accounts.count m id + 1)) by lia.
  destruct (Z.ltb_spec 1 (Accounts.count m id + 1)) as [Hgt|Hle].
  - rewrite insert_insert_eq.
    replace (Accounts.count m id + 1 - 1) with (Accounts.count m id) by lia.
    rewrite i64_small by lia. apply insert_id, Hp. lia.
  - rewrite delete_insert_eq. apply delete_id, H0. lia.
Qed.

End PoolRoundTrip.

(** X11. Releasing the account just acquired undoes the acquire: the
    pool is exactly as before (roster, counters and settings). The
    counters are Go ints at least 1, as the pool keeps them; [n] bounds
    them below the largest int. *)
Theorem Acquire_then_Release_restores_pool
    (exclude : option (gmap string bool)) (now : Z) (r : nat) (w : Accounts.World)
    (n : Z) (l : nat) :
  counters_within (Accounts.active (Accounts.pool w)) n ->
  0 <= n < 2 ^ 63 - 1 ->
  snd (Accounts.Acquire exclude now r w) = Some l ->
  Accounts.pool (Accounts.Release (Some l) (fst (Accounts.Acquire exclude now r w)))
  = Accounts.pool w.
Proof.
  intros Hm Hn Hl.
  destruct (Acquire_pool exclude now r w) as [_ Hact]. cbv zeta in Hact.
  rewrite Hl in Hact. destruct Hact as (acc & _ & Hcell & Hm').
  unfold Accounts.Release. rewrite Hcell, Hm'.
  pose proof (counters_round_trip (Accounts.active (Accounts.pool w))
                (Accounts.AccountID acc) n Hm Hn) as Hrt. cbv zeta in Hrt.
  assert (Hrest : forall a : gmap string Z,
            Accounts.with_active (Accounts.pool (fst (Accounts.Acquire exclude now r w))) a
            = Accounts.with_active (Accounts.pool w) a).
  { intros a. unfold Accounts.Acquire in Hl |- *.
    destruct (Accounts.accounts (Accounts.pool w)) as [|first rest];
      [discriminate Hl | reflexivity]. }
  destruct (1 <? _);
    cbn [Accounts.with_pool Accounts.pool]; rewrite Hrest, Hrt; apply pool_eta.
Qed.

Lemma Acquire_then_Release_restores_pool_witness :
  Accounts.pool
    (Accounts.Release (Some 0%nat)
       (fst (Accounts.Acquire None 0 0
               (fresh_world [acct "a@x" "t1"] false 1 "u" (fun _ => 0%nat)))))
  = Accounts.pool (fresh_world [acct "a@x" "t1"] false 1 "u" (fun _ => 0%nat)).
Proof.
  apply (Acquire_then_Release_restores_pool None 0 0
           (fresh_world [acct "a@x" "t1"] false 1 "u" (fun _ => 0%nat)) 0 0).
  - intros id v H. vm_compute in H. discriminate H.
  - lia.
  - vm_compute. reflexivity.
Defined.
Section PoolReloadMore.

Lemma of_config_to_config (l : list Accounts.Account) :
  map Accounts.of_config (map Accounts.to_config l) = l.
Proof.
  induction l as [|[e m p t] l IH]; [reflexivity|].
  cbn [map]. rewrite IH. reflexivity.
Qed.

Lemma insert_swaps {T} (l : list T) i x y :
  l !! i = Some x -> y :: l ≡ₚ x :: <[i := y]> l.
Proof.
  revert i. induction l as [|z l IH]; intros i Hi; [discriminate Hi|].
  destruct i as [|i]; cbn in *.
  - injection Hi as ->. constructor.
  - etransitivity; [apply Permutation_swap|].
    etransitivity; [apply Permutation_skip, (IH i Hi)|]. apply Permutation_swap.
Qed.

Lemma swap_Permutation {T} (l : list T) i j : Accounts.swap l i j ≡ₚ l.
Proof.
  unfold Accounts.swap.
  destruct (l !! i) as [x|] eqn:Ei; [|reflexivity].
  destruct (l !! j) as [y|] eqn:Ej; [|reflexivity].
  pose proof (insert_swaps l j y x Ej) as H1.
  assert (Hi : <[j := x]> l !! i = Some x).
  { destruct (decide (i = j)) as [->|Hne].
    - apply list_lookup_insert_eq. apply lookup_lt_Some in Ej. exact Ej.
    - rewrite list_lookup_insert_ne by congruence. exact Ei. }
  pose proof (insert_swaps (<[j := x]> l) i x y Hi) as H2.
  symmetry. apply (Permutation.Permutation_cons_inv (a := x)).
  etransitivity; [exact H1 | exact H2].
Qed.

Lemma Shuffle_Permutation {T} draw (l : list T) : Accounts.Shuffle draw l ≡ₚ l.
Proof.
  unfold Accounts.Shuffle. generalize (length l - 1)%nat. intros i. revert l.
  induction i as [|i IH]; intros l; cbn [Accounts.shuffle_from]; [reflexivity|].
  rewrite IH. apply swap_Permutation.
Qed.

(** The roster a reload builds, and the counters it keeps. *)
Lemma reloadLocked_selects
    (accs : list Accounts.AccountConfig) (refresh : bool) (maxAccounts : Z)
    (draw : nat -> nat) (p : Accounts.Pool) :
  let p' := Accounts.reloadLocked accs refresh maxAccounts draw p in
  Accounts.accounts p' ⊆+ map Accounts.of_config accs
  /\ Z.of_nat (length (Accounts.accounts p'))
     = (if (0 <? maxAccounts) && (maxAccounts <? Z.of_nat (length accs))
        then maxAccounts else Z.of_nat (length accs))
  /\ (covers maxAccounts (length accs) -> Accounts.accounts p' = map Accounts.of_config accs)
  /\ (forall id, Accounts.active p' !! id
                 = if decide (id ∈ roster_ids p') then Accounts.active p !! id else None).
Proof.
  unfold Accounts.reloadLocked, roster_ids, covers. cbv zeta.
  cbn [Accounts.active Accounts.accounts].
  rewrite length_map.
  set (roster0 := map Accounts.of_config accs).
  set (n := Z.of_nat (length accs)).
  set (m := if (maxAccounts <=? 0) || (n <? maxAccounts) then n else maxAccounts).
  assert (Hm : m = if (0 <? maxAccounts) && (maxAccounts <? n) then maxAccounts else n).
  { unfold m. destruct (Z.leb_spec maxAccounts 0), (Z.ltb_spec n maxAccounts),
      (Z.ltb_spec 0 maxAccounts), (Z.ltb_spec maxAccounts n); cbn [orb andb]; lia. }
  assert (Hlen : length (Accounts.Shuffle draw roster0) = length accs).
  { rewrite (Shuffle_Permutation draw roster0). apply length_map. }
  split; [|split; [|split]].
  - destruct (m <? n).
    + etransitivity; [apply submseteq_take|].
      apply Permutation_submseteq, Shuffle_Permutation.
    + reflexivity.
  - rewrite <- Hm. destruct (Z.ltb_spec m n) as [Hlt|Hge].
    + rewrite length_take, Hlen.
      assert (0 < m) by (rewrite Hm; destruct (Z.ltb_spec 0 maxAccounts),
                           (Z.ltb_spec maxAccounts n); cbn [andb] in *; lia).
      lia.
    + unfold roster0. rewrite length_map.
      rewrite Hm in *. destruct ((0 <? maxAccounts) && (maxAccounts <? n)) eqn:E; [|reflexivity].
      apply andb_true_iff in E as [_ E]. apply Z.ltb_lt in E. lia.
  - intros Hc. destruct (Z.ltb_spec m n) as [Hlt|Hge]; [|reflexivity].
    exfalso. rewrite Hm in Hlt.
    destruct (Z.ltb_spec 0 maxAccounts), (Z.ltb_spec maxAccounts n); cbn [andb] in *; lia.
  - intros id. rewrite map_lookup_filter.
    destruct (Accounts.active p !! id) as [v|]; cbn.
    + destruct (decide (id ∈ _)); [rewrite option_guard_True | rewrite option_guard_False];
        done.
    + destruct (decide (id ∈ _)); reflexivity.
Qed.

End PoolReloadMore.

(** X12. What a reload selects.  The new roster is a selection
    from the accounts handed over: no account appears more often than it
    was given.  A positive [maxAccounts] below the number of accounts cuts
    the (shuffled) list down to that many; otherwise the roster is the
    list as given, in its order.  A counter survives unchanged when its
    identifier is on the new roster, and is dropped when it is not. *)
Theorem reload_roster_is_a_selection
    (accs : list Accounts.AccountConfig) (refresh : bool) (maxAccounts : Z)
    (draw : nat -> nat) (p : Accounts.Pool) :
  let p' := Accounts.reloadLocked accs refresh maxAccounts draw p in
  Accounts.accounts p' ⊆+ map Accounts.of_config accs
  /\ Z.of_nat (length (Accounts.accounts p'))
     = (if (0 <? maxAccounts) && (maxAccounts <? Z.of_nat (length accs))
        then maxAccounts else Z.of_nat (length accs))
  /\ (covers maxAccounts (length accs) -> Accounts.accounts p' = map Accounts.of_config accs)
  /\ (forall id, Accounts.active p' !! id
                 = if decide (id ∈ roster_ids p') then Accounts.active p !! id else None).
Proof. exact (reloadLocked_selects accs refresh maxAccounts draw p). Qed.

(** X13. [UpdateRuntime] with a limit that does not cut the roster
    short changes the two settings and nothing else: the roster survives the
    round trip through its configuration snapshot, and (the counters being
    those of roster accounts, as the pool keeps them) every counter stays. *)
Theorem UpdateRuntime_keeps_roster_and_counters
    (refresh : bool) (maxAccounts : Z) (draw : nat -> nat) (w : Accounts.World) :
  dom (Accounts.active (Accounts.pool w)) ⊆ roster_ids (Accounts.pool w) ->
  covers maxAccounts (length (Accounts.accounts (Accounts.pool w))) ->
  let w' := Accounts.UpdateRuntime refresh maxAccounts draw w in
  Accounts.accounts (Accounts.pool w') = Accounts.accounts (Accounts.pool w)
  /\ Accounts.active (Accounts.pool w') = Accounts.active (Accounts.pool w)
  /\ Accounts.refresh (Accounts.pool w') = refresh
  /\ Accounts.maxAccounts (Accounts.pool w')
     = Z.of_nat (length (Accounts.accounts (Accounts.pool w)))
  /\ Accounts.cells w' = Accounts.cells w
  /\ Accounts.logins w' = Accounts.logins w.
Proof.
  intros Hdom Hc w'. unfold w', Accounts.UpdateRuntime, Accounts.snapshotConfigLocked.
  cbn [Accounts.with_pool Accounts.pool Accounts.cells Accounts.logins].
  pose proof (reloadLocked_selects
                (map Accounts.to_config (Accounts.accounts (Accounts.pool w)))
                refresh maxAccounts draw (Accounts.pool w)) as H.
  cbv zeta in H. rewrite length_map, of_config_to_config in H.
  destruct H as (_ & Hlen & Hsame & Hact).
  specialize (Hsame Hc).
  set (p' := Accounts.reloadLocked _ refresh maxAccounts draw (Accounts.pool w)) in *.
  split; [exact Hsame|]. split.
  { apply map_eq. intros id. rewrite Hact.
    destruct (decide (id ∈ roster_ids p')) as [|Hn]; [reflexivity|].
    destruct (Accounts.active (Accounts.pool w) !! id) as [v|] eqn:E; [|reflexivity].
    exfalso. apply Hn. unfold roster_ids. rewrite Hsame. apply Hdom, elem_of_dom. eauto. }
  split; [reflexivity|]. split; [|split; reflexivity].
  pose proof (reloadLocked_spec
                (map Accounts.to_config (Accounts.accounts (Accounts.pool w)))
                refresh maxAccounts draw (Accounts.pool w)) as (_ & _ & Hmax & _).
  fold p' in Hmax. rewrite <- Hmax, Hsame. reflexivity.
Qed.

Lemma UpdateRuntime_keeps_roster_and_counters_witness :
  let w := fst (Accounts.Acquire None 0 0
                  (fresh_world [acct "a@x" "t1"; acct "b@x" "t2"] false 2 "u"
                               (fun _ => 0%nat))) in
  let w' := Accounts.UpdateRuntime true 0 (fun _ => 0%nat) w in
  Accounts.accounts (Accounts.pool w') = Accounts.accounts (Accounts.pool w)
  /\ Accounts.active (Accounts.pool w') = Accounts.active (Accounts.pool w)
  /\ Accounts.refresh (Accounts.pool w') = true
  /\ Accounts.maxAccounts (Accounts.pool w')
     = Z.of_nat (length (Accounts.accounts (Accounts.pool w)))
  /\ Accounts.cells w' = Accounts.cells w
  /\ Accounts.logins w' = Accounts.logins w.
Proof.
  intros w.
  apply (UpdateRuntime_keeps_roster_and_counters true 0 (fun _ => 0%nat) w).
  - apply (pool_exec_keeps_ids
             (fresh_world [acct "a@x" "t1"; acct "b@x" "t2"] false 2 "u" (fun _ => 0%nat))
             (DoAcquire None 0 0)).
    unfold fresh_world, Accounts.NewPool. cbn [Accounts.pool].
    apply (reloadLocked_spec [acct "a@x" "t1"; acct "b@x" "t2"] false 2 (fun _ => 0%nat)).
  - left. lia.
Defined.
(** X14. What [EnsureToken] touches.  Whatever the upstream answers,
    the pool itself is unchanged and at most one login request is sent.
    When the call fails, no account is changed.  When the account already
    has a token and [refresh] is off, nothing is sent and nothing changes. *)
Theorem EnsureToken_effects
    (login : Accounts.LoginRequest -> Accounts.LoginResponse) (a : option nat)
    (w : Accounts.World) :
  let w' := fst (Accounts.EnsureToken login a w) in
  let err := snd (Accounts.EnsureToken login a w) in
  Accounts.pool w' = Accounts.pool w
  /\ (exists reqs, Accounts.logins w' = Accounts.logins w ++ reqs /\ (length reqs <= 1)%nat)
  /\ (err <> None -> Accounts.cells w' = Accounts.cells w)
  /\ (forall l acc,
        a = Some l -> Accounts.cells w !! l = Some acc ->
        Accounts.nonblank (Accounts.Token acc) = true ->
        Accounts.refresh (Accounts.pool w) = false ->
        w' = w /\ err = None).
Proof.
  cbv zeta. split; [apply EnsureToken_pool|].
  assert (Hnil : exists reqs : list Accounts.LoginRequest,
                   Accounts.logins w = Accounts.logins w ++ reqs /\ (length reqs <= 1)%nat).
  { exists []. rewrite app_nil_r. split; [reflexivity | cbn; lia]. }
  split; [|split].
  - unfold Accounts.EnsureToken. destruct a as [l|]; [|exact Hnil].
    destruct (Accounts.cells w !! l) as [acc|]; [|exact Hnil].
    destruct (_ && _); [exact Hnil|].
    destruct (_ || _); [destruct (Accounts.nonblank _); exact Hnil|].
    cbv zeta. set (req := if Accounts.nonblank (Accounts.Email acc) then _ else _).
    assert (Hone : exists reqs : list Accounts.LoginRequest,
                     Accounts.logins w ++ [req] = Accounts.logins w ++ reqs
                     /\ (length reqs <= 1)%nat)
      by (exists [req]; split; [reflexivity | cbn; lia]).
    destruct (login req); try exact Hone. destruct (negb _); exact Hone.
  - unfold Accounts.EnsureToken. destruct a as [l|]; [|reflexivity].
    destruct (Accounts.cells w !! l) as [acc|]; [|reflexivity].
    destruct (_ && _); [reflexivity|].
    destruct (_ || _); [destruct (Accounts.nonblank _); reflexivity|].
    cbv zeta. destruct (login _); try reflexivity.
    destruct (negb _); [reflexivity|]. cbn [snd]. intros H. contradiction.
  - intros l acc -> Hl Ht Hr. unfold Accounts.EnsureToken. rewrite Hl, Ht, Hr.
    split; reflexivity.
Qed.
Section PoolSessions.

Lemma i64_add_l a b : i64 (i64 a + b) = i64 (a + b).
Proof.
  unfold i64.
  replace ((a + 2 ^ 63) mod 2 ^ 64 - 2 ^ 63 + b + 2 ^ 63)
    with ((a + 2 ^ 63) mod 2 ^ 64 + b) by lia.
  rewrite Z.add_mod_idemp_l by lia. do 2 f_equal. lia.
Qed.

Lemma i64_add_r a b : i64 (a + i64 b) = i64 (a + b).
Proof. rewrite (Z.add_comm a (i64 b)), i64_add_l. f_equal. lia. Qed.

Lemma i64_idemp a : i64 (i64 a) = i64 a.
Proof. apply i64_small, i64_range. Qed.

Lemma sum_step_comm j1 j2 z1 z2 y :
  sum_step j1 z1 (sum_step j2 z2 y) = sum_step j2 z2 (sum_step j1 z1 y).
Proof. unfold sum_step. rewrite !i64_add_l. f_equal. lia. Qed.

Lemma sum_range (m : gmap string Z) : i64 (map_fold sum_step 0 m) = map_fold sum_step 0 m.
Proof.
  induction m as [|i x m Hi Hfold IH] using map_first_key_ind.
  - rewrite map_fold_empty. reflexivity.
  - rewrite map_fold_insert_L by (first [intros; apply sum_step_comm | exact Hi]).
    unfold sum_step at 1 3. apply i64_idemp.
Qed.

Lemma sum_split (m : gmap string Z) id :
  map_fold sum_step 0 m = i64 (map_fold sum_step 0 (delete id m) + Accounts.count m id).
Proof.
  unfold Accounts.count. destruct (m !! id) as [v|] eqn:E; cbn.
  - rewrite (map_fold_delete_L sum_step 0 id v m) by
      (first [intros; apply sum_step_comm | exact E]). reflexivity.
  - rewrite delete_id by exact E. rewrite Z.add_0_r, sum_range. reflexivity.
Qed.

Lemma sum_insert (m : gmap string Z) id v :
  map_fold sum_step 0 (<[id := v]> m) = i64 (map_fold sum_step 0 (delete id m) + v).
Proof.
  rewrite <- insert_delete_eq.
  rewrite map_fold_insert_L by
    (first [intros; apply sum_step_comm | apply lookup_delete_eq]).
  reflexivity.
Qed.

End PoolSessions.

(** X15. The status counts sessions.  A successful [Acquire] leaves
    [total] as it is, adds one to [active_sessions] and at most one to
    [in_use]; releasing an account whose counter is at least 1 takes one
    off [active_sessions]; releasing an account that has no counter
    changes nothing in the status.  ([active_sessions] is a Go int: the
    sums are taken with its wrap-around.) *)
Theorem status_counts_sessions (w : Accounts.World) :
  (forall exclude now r l,
      snd (Accounts.Acquire exclude now r w) = Some l ->
      let s := Accounts.GetStatus w in
      let s' := Accounts.GetStatus (fst (Accounts.Acquire exclude now r w)) in
      Accounts.total s' = Accounts.total s
      /\ Accounts.active_sessions s' = i64 (Accounts.active_sessions s + 1)
      /\ Accounts.in_use s <= Accounts.in_use s' <= Accounts.in_use s + 1)
  /\ (forall l acc v,
        Accounts.cells w !! l = Some acc ->
        Accounts.active (Accounts.pool w) !! Accounts.AccountID acc = Some v ->
        1 <= v ->
        let s := Accounts.GetStatus w in
        let s' := Accounts.GetStatus (Accounts.Release (Some l) w) in
        Accounts.total s' = Accounts.total s
        /\ Accounts.active_sessions s' = i64 (Accounts.active_sessions s - 1))
  /\ (forall l acc,
        Accounts.cells w !! l = Some acc ->
        Accounts.active (Accounts.pool w) !! Accounts.AccountID acc = None ->
        Accounts.GetStatus (Accounts.Release (Some l) w) = Accounts.GetStatus w).
Proof.
  split; [|split].
  - intros exclude now r l Hl. cbv zeta.
    destruct (Acquire_pool exclude now r w) as [Hacc Hact]. cbv zeta in Hacc, Hact.
    rewrite Hl in Hact. destruct Hact as (acc & _ & _ & Hm).
    unfold Accounts.GetStatus. cbv zeta.
    cbn [Accounts.total Accounts.active_sessions Accounts.in_use].
    rewrite Hacc, Hm. split; [reflexivity|].
    set (m := Accounts.active (Accounts.pool w)). set (id := Accounts.AccountID acc).
    split.
    + change (map_fold sum_step 0 (<[id := i64 (Accounts.count m id + 1)]> m)
              = i64 (map_fold sum_step 0 m + 1)).
      rewrite sum_insert, (sum_split m id), i64_add_r, i64_add_l. f_equal. lia.
    + rewrite map_size_insert. destruct (m !! id); cbv beta iota delta [Datatypes.id]; lia.
  - intros l acc v Hl Hv Hv1. cbv zeta. unfold Accounts.Release. rewrite Hl.
    set (m := Accounts.active (Accounts.pool w)) in *. set (id := Accounts.AccountID acc) in *.
    assert (Hc : Accounts.count m id = v) by (unfold Accounts.count; rewrite Hv; reflexivity).
    rewrite Hc. unfold Accounts.GetStatus. cbv zeta.
    cbn [Accounts.total Accounts.active_sessions].
    change (map_fold _ 0 (Accounts.active (Accounts.pool w))) with (map_fold sum_step 0 m).
    rewrite (sum_split m id), Hc.
    destruct (Z.ltb_spec 1 v) as [Hgt|Hle];
      cbn [Accounts.with_pool Accounts.pool Accounts.with_active Accounts.accounts
           Accounts.active]; (split; [reflexivity|]).
    + change (map_fold sum_step 0 (<[id := i64 (v - 1)]> m)
              = i64 (i64 (map_fold sum_step 0 (delete id m) + v) - 1)).
      rewrite sum_insert, i64_add_r.
      replace (i64 (map_fold sum_step 0 (delete id m) + v) - 1)
        with (i64 (map_fold sum_step 0 (delete id m) + v) + -1) by lia.
      rewrite i64_add_l. f_equal. lia.
    + change (map_fold sum_step 0 (delete id m)
              = i64 (i64 (map_fold sum_step 0 (delete id m) + v) - 1)).
      replace (i64 (map_fold sum_step 0 (delete id m) + v) - 1)
        with (i64 (map_fold sum_step 0 (delete id m) + v) + -1) by lia.
      rewrite i64_add_l.
      replace (map_fold sum_step 0 (delete id m) + v + -1)
        with (map_fold sum_step 0 (delete id m)) by lia.
      symmetry. apply sum_range.
  - intros l acc Hl Hnone. unfold Accounts.Release. rewrite Hl.
    unfold Accounts.count. rewrite Hnone. cbn [default from_option Datatypes.id].
    change (1 <? 0) with false. cbv iota.
    rewrite delete_id by exact Hnone.
    unfold Accounts.GetStatus. cbv zeta.
    cbn [Accounts.with_pool Accounts.pool Accounts.with_active Accounts.accounts
         Accounts.active Accounts.maxAccounts]. reflexivity.
Qed.
(** * More on authentication: switching and releasing accounts *)

Section AuthProofs.

Lemma EnsureToken_cell login l (w : Accounts.World) acc :
  Accounts.cells w !! l = Some acc ->
  exists acc',
    Accounts.cells (fst (Accounts.EnsureToken login (Some l) w)) !! l = Some acc'
    /\ Accounts.AccountID acc' = Accounts.AccountID acc
    /\ (snd (Accounts.EnsureToken login (Some l) w) <> None -> acc' = acc).
Proof.
  intros Hl. unfold Accounts.EnsureToken. rewrite Hl.
  assert (Hsame : exists acc', Accounts.cells w !! l = Some acc'
                    /\ Accounts.AccountID acc' = Accounts.AccountID acc
                    /\ acc' = acc) by (exists acc; auto).
  destruct (_ && _); [destruct Hsame as (a & ? & ? & ?); exists a; auto|].
  destruct (_ || _);
    [destruct (Accounts.nonblank _); destruct Hsame as (a & ? & ? & ?); exists a; auto|].
  cbv zeta. destruct (login _); cbn [fst snd Accounts.cells];
    try (destruct Hsame as (a & ? & ? & ?); exists a; auto; fail).
  destruct (negb _); cbn [fst snd Accounts.cells];
    [destruct Hsame as (a & ? & ? & ?); exists a; auto|].
  exists (Accounts.with_token acc tok). split.
  - apply list_lookup_insert_eq. apply lookup_lt_Some in Hl. exact Hl.
  - split; [reflexivity|]. intros H. contradiction.
Qed.

End AuthProofs.

(** X16. [ReleaseAccountIfNeeded] gives an account back at most once:
    a second call on the context it leaves changes neither the context nor
    the pool. *)
Theorem ReleaseAccountIfNeeded_releases_once
    (ac : option Auth.AuthContext) (w : Accounts.World) :
  let ac1 := fst (Auth.ReleaseAccountIfNeeded ac w) in
  let w1 := snd (Auth.ReleaseAccountIfNeeded ac w) in
  Auth.ReleaseAccountIfNeeded ac1 w1 = (ac1, w1).
Proof.
  cbv zeta. destruct ac as [[u k t a f rel]|]; [|reflexivity].
  unfold Auth.ReleaseAccountIfNeeded.
  cbn [Auth.UseConfigToken Auth.Released].
  destruct u, rel; reflexivity.
Qed.
Section SwitchProofs.

Lemma SwitchAccount_unfold c now rnd login (w : Accounts.World) l acc :
  Auth.UseConfigToken c = true ->
  Auth.Account c = Some l ->
  Accounts.cells w !! l = Some acc ->
  Auth.SwitchAccount (Some c) now rnd login w
  = let failed := failed_with c acc in
    let w1 := Accounts.Release (Some l) w in
    let gone :=
      {| Auth.UseConfigToken := Auth.UseConfigToken c; Auth.CallerKey := Auth.CallerKey c;
         Auth.DeepSeekToken := ""; Auth.Account := None;
         Auth.FailedAccounts := failed; Auth.Released := Auth.Released c |} in
    match snd (Accounts.Acquire (Some failed) now rnd w1) with
    | None => (Some gone, fst (Accounts.Acquire (Some failed) now rnd w1), false)
    | Some l' =>
        let w2 := fst (Accounts.Acquire (Some failed) now rnd w1) in
        let w3 := fst (Accounts.EnsureToken login (Some l') w2) in
        match snd (Accounts.EnsureToken login (Some l') w2) with
        | Some _ => (Some gone, w3, false)
        | None =>
            (Some {| Auth.UseConfigToken := Auth.UseConfigToken c;
                     Auth.CallerKey := Auth.CallerKey c;
                     Auth.DeepSeekToken :=
                       match Accounts.cells w3 !! l' with
                       | Some a => Accounts.Token a
                       | None => ""%string
                       end;
                     Auth.Account := Some l';
                     Auth.FailedAccounts := failed; Auth.Released := Auth.Released c |},
             w3, true)
        end
    end.
Proof.
  intros Hu Ha Hl. unfold Auth.SwitchAccount. rewrite Hu, Ha, Hl. cbn [negb]. cbv iota zeta.
  fold (failed_with c acc).
  destruct (Accounts.Acquire (Some (failed_with c acc)) now rnd
              (Accounts.Release (Some l) w)) as [w2 [l'|]]; cbn [fst snd]; [|reflexivity].
  destruct (Accounts.EnsureToken login (Some l') w2) as [w3 [e|]]; reflexivity.
Qed.

End SwitchProofs.

(** X17. [SwitchAccount] moves on.  For a context that holds a pool
    account, the call marks that account as failed; when it returns true,
    the context holds a freshly acquired account together with its token,
    and as long as the roster has an account that is not marked failed,
    the new account is one of those (so it is not the one given up); when
    it returns false, the context holds no account and an empty token. *)
Theorem SwitchAccount_moves_on
    (c : Auth.AuthContext) (now : Z) (rnd : nat)
    (login : Accounts.LoginRequest -> Accounts.LoginResponse) (w : Accounts.World)
    (l : nat) (acc : Accounts.Account) :
  Auth.UseConfigToken c = true ->
  Auth.Account c = Some l ->
  Accounts.cells w !! l = Some acc ->
  let res := Auth.SwitchAccount (Some c) now rnd login w in
  exists c',
    fst (fst res) = Some c'
    /\ Auth.FailedAccounts c' = failed_with c acc
    /\ (snd res = false -> Auth.Account c' = None /\ Auth.DeepSeekToken c' = ""%string)
    /\ (snd res = true ->
        exists l' acc',
          Auth.Account c' = Some l'
          /\ Accounts.cells (snd (fst res)) !! l' = Some acc'
          /\ Auth.DeepSeekToken c' = Accounts.Token acc'
          /\ ((exists a, a ∈ Accounts.accounts (Accounts.pool w)
                         /\ Accounts.excluded (Some (failed_with c acc))
                                              (Accounts.AccountID a) = false) ->
              Accounts.excluded (Some (failed_with c acc)) (Accounts.AccountID acc') = false
              /\ Accounts.AccountID acc' <> Accounts.AccountID acc)).
Proof.
  intros Hu Ha Hl res. unfold res. rewrite (SwitchAccount_unfold c now rnd login w l acc Hu Ha Hl).
  cbv zeta. set (failed := failed_with c acc). set (w1 := Accounts.Release (Some l) w).
  destruct (snd (Accounts.Acquire (Some failed) now rnd w1)) as [l'|] eqn:Hacq.
  2:{ eexists. cbn [fst snd Auth.FailedAccounts Auth.Account Auth.DeepSeekToken].
      split; [reflexivity|]. split; [reflexivity|]. split; [auto | discriminate]. }
  set (w2 := fst (Accounts.Acquire (Some failed) now rnd w1)).
  destruct (snd (Accounts.EnsureToken login (Some l') w2)) as [e|] eqn:Hens.
  { eexists. cbn [fst snd Auth.FailedAccounts Auth.Account Auth.DeepSeekToken].
    split; [reflexivity|]. split; [reflexivity|]. split; [auto | discriminate]. }
  eexists. cbn [fst snd Auth.FailedAccounts Auth.Account Auth.DeepSeekToken].
  split; [reflexivity|]. split; [reflexivity|]. split; [discriminate|]. intros _.
  assert (Hroster : Accounts.accounts (Accounts.pool w1) = Accounts.accounts (Accounts.pool w))
    by apply (Release_active (Some l) w).
  assert (Hne : Accounts.accounts (Accounts.pool w1) <> []).
  { intros Hnil. destruct (Acquire_empty (Some failed) now rnd w1 Hnil) as [Hn _].
    rewrite Hacq in Hn. discriminate Hn. }
  destruct (Acquire_picks (Some failed) now rnd w1 Hne) as (l2 & a2 & Hl2 & Hc2 & _ & Hex).
  rewrite Hacq in Hl2. injection Hl2 as <-. fold w2 in Hc2.
  destruct (EnsureToken_cell login l' w2 a2 Hc2) as (a3 & Hc3 & Hid & _).
  exists l', a3. split; [reflexivity|]. split; [exact Hc3|]. split; [rewrite Hc3; reflexivity|].
  intros Hsome. rewrite Hroster in Hex. specialize (Hex Hsome). rewrite Hid.
  split; [exact Hex|]. intros Heq. rewrite Heq in Hex.
  unfold Accounts.excluded, failed, failed_with in Hex.
  rewrite lookup_insert_eq in Hex. discriminate Hex.
Qed.

Lemma SwitchAccount_moves_on_witness :
  let w := fst (Accounts.Acquire None 0 0
                  (fresh_world [acct "a@x" "t1"; acct "b@x" "t2"] false 2 "u"
                               (fun _ => 0%nat))) in
  let c := {| Auth.UseConfigToken := true; Auth.CallerKey := "sk-pool";
              Auth.DeepSeekToken := "t1"; Auth.Account := Some 0%nat;
              Auth.FailedAccounts := ∅; Auth.Released := false |} in
  let res := Auth.SwitchAccount (Some c) 0 0 login_new w in
  exists c',
    fst (fst res) = Some c'
    /\ Auth.FailedAccounts c' = failed_with c (Accounts.of_config (acct "a@x" "t1"))
    /\ (snd res = false -> Auth.Account c' = None /\ Auth.DeepSeekToken c' = ""%string)
    /\ (snd res = true ->
        exists l' acc',
          Auth.Account c' = Some l'
          /\ Accounts.cells (snd (fst res)) !! l' = Some acc'
          /\ Auth.DeepSeekToken c' = Accounts.Token acc'
          /\ ((exists a, a ∈ Accounts.accounts (Accounts.pool w)
                         /\ Accounts.excluded
                              (Some (failed_with c (Accounts.of_config (acct "a@x" "t1"))))
                              (Accounts.AccountID a) = false) ->
              Accounts.excluded (Some (failed_with c (Accounts.of_config (acct "a@x" "t1"))))
                                (Accounts.AccountID acc') = false
              /\ Accounts.AccountID acc'
                 <> Accounts.AccountID (Accounts.of_config (acct "a@x" "t1")))).
Proof.
  intros w c.
  apply (SwitchAccount_moves_on c 0 0 login_new w 0 (Accounts.of_config (acct "a@x" "t1")));
    reflexivity.
Defined.
(** X18. When the login of the replacement account fails,
    [SwitchAccount] returns false and clears the context, but the pool
    keeps the replacement acquired: its counter stays one up, the context
    no longer refers to it, and a later [ReleaseAccountIfNeeded] on that
    context gives nothing back.  ([DetermineModeAndToken] releases the
    account in the same situation.) *)
Theorem SwitchAccount_failed_login_keeps_session
    (c : Auth.AuthContext) (now : Z) (rnd : nat)
    (login : Accounts.LoginRequest -> Accounts.LoginResponse) (w : Accounts.World)
    (l : nat) (acc : Accounts.Account) (l' : nat) (e : string) :
  Auth.UseConfigToken c = true ->
  Auth.Account c = Some l ->
  Accounts.cells w !! l = Some acc ->
  let w1 := Accounts.Release (Some l) w in
  let w2 := fst (Accounts.Acquire (Some (failed_with c acc)) now rnd w1) in
  snd (Accounts.Acquire (Some (failed_with c acc)) now rnd w1) = Some l' ->
  snd (Accounts.EnsureToken login (Some l') w2) = Some e ->
  let res := Auth.SwitchAccount (Some c) now rnd login w in
  let after := Auth.ReleaseAccountIfNeeded (fst (fst res)) (snd (fst res)) in
  snd res = false
  /\ (exists c', fst (fst res) = Some c' /\ Auth.Account c' = None)
  /\ Accounts.pool (snd after) = Accounts.pool w2
  /\ exists acc',
       Accounts.cells w2 !! l' = Some acc'
       /\ Accounts.active (Accounts.pool w2)
          = <[Accounts.AccountID acc' :=
                i64 (Accounts.count (Accounts.active (Accounts.pool w1))
                                    (Accounts.AccountID acc') + 1)]>
              (Accounts.active (Accounts.pool w1)).
Proof.
  intros Hu Ha Hl w1 w2 Hacq Hens res after.
  unfold after, res. rewrite (SwitchAccount_unfold c now rnd login w l acc Hu Ha Hl).
  cbv zeta. fold w1. rewrite Hacq. fold w2. rewrite Hens. cbn [fst snd].
  split; [reflexivity|]. split; [eexists; split; reflexivity|]. split.
  - unfold Auth.ReleaseAccountIfNeeded. cbn [Auth.UseConfigToken Auth.Released Auth.Account].
    destruct (negb (Auth.UseConfigToken c) || Auth.Released c); cbn [snd];
      [|unfold Accounts.Release]; apply EnsureToken_pool.
  - destruct (Acquire_pool (Some (failed_with c acc)) now rnd w1) as [_ Hact].
    cbv zeta in Hact. rewrite Hacq in Hact. destruct Hact as (a & _ & Hc & Hm).
    exists a. split; [exact Hc | exact Hm].
Qed.

Lemma SwitchAccount_failed_login_keeps_session_witness :
  let w := fst (Accounts.Acquire None 0 0
                  (fresh_world
                     [acct "a@x" "t1";
                      {| Accounts.cfgEmail := "b@x"; Accounts.cfgMobile := "";
                         Accounts.cfgPassword := "pw"; Accounts.cfgToken := "" |}]
                     false 2 "u" (fun _ => 0%nat))) in
  let c := {| Auth.UseConfigToken := true; Auth.CallerKey := "sk-pool";
              Auth.DeepSeekToken := "t1"; Auth.Account := Some 0%nat;
              Auth.FailedAccounts := ∅; Auth.Released := false |} in
  let acc := Accounts.of_config (acct "a@x" "t1") in
  let w1 := Accounts.Release (Some 0%nat) w in
  let w2 := fst (Accounts.Acquire (Some (failed_with c acc)) 0 0 w1) in
  let res := Auth.SwitchAccount (Some c) 0 0 login_rejected w in
  let after := Auth.ReleaseAccountIfNeeded (fst (fst res)) (snd (fst res)) in
  snd res = false
  /\ (exists c', fst (fst res) = Some c' /\ Auth.Account c' = None)
  /\ Accounts.pool (snd after) = Accounts.pool w2
  /\ exists acc',
       Accounts.cells w2 !! 1%nat = Some acc'
       /\ Accounts.active (Accounts.pool w2)
          = <[Accounts.AccountID acc' :=
                i64 (Accounts.count (Accounts.active (Accounts.pool w1))
                                    (Accounts.AccountID acc') + 1)]>
              (Accounts.active (Accounts.pool w1)).
Proof.
  intros w c acc.
  apply (SwitchAccount_failed_login_keeps_session c 0 0 login_rejected w 0 acc 1
           "missing token"); reflexivity.
Defined.

Section HandlerProofs.

(** Releasing a cell whose identifier was counted by the last acquire. *)
Lemma Release_cell_id (w' : Accounts.World) l acc acc' m :
  Accounts.cells w' !! l = Some acc' ->
  Accounts.AccountID acc' = Accounts.AccountID acc ->
  Accounts.active (Accounts.pool w')
  = <[Accounts.AccountID acc := i64 (Accounts.count m (Accounts.AccountID acc) + 1)]> m ->
  forall n, counters_within m n -> 0 <= n < 2 ^ 63 - 1 ->
  Accounts.active (Accounts.pool (Accounts.Release (Some l) w')) = m.
Proof.
  intros Hc Hid Hm n Hw Hn. unfold Accounts.Release. rewrite Hc, Hid, Hm.
  pose proof (counters_round_trip m (Accounts.AccountID acc) n Hw Hn) as Hrt.
  cbv zeta in Hrt. destruct (1 <? _); cbn [Accounts.with_pool Accounts.pool
    Accounts.with_active Accounts.active]; exact Hrt.
Qed.

End HandlerProofs.

(** X19. A request gives back the session it took.  For a pipeline
    that serves the request with the account it is given, the session
    counters after [OpenAIChat] or [ClaudeMessages] are the counters
    before it, whatever the outcome: wrong method, missing key, direct
    token, empty roster, failed login, or a request served on a pool
    account. *)
Theorem handle_returns_the_session
    (serve : Auth.AuthContext -> Auth.Request -> Accounts.World ->
             Accounts.World * Auth.AuthContext * Handlers.Response
             * list Handlers.UpstreamCall)
    (error_body : string -> Services.json) (cfg : Auth.Config) (now : Z) (rnd : nat)
    (login : Accounts.LoginRequest -> Accounts.LoginResponse)
    (r : Auth.Request) (w : Accounts.World) (n : Z) :
  keeps_account serve ->
  counters_within (Accounts.active (Accounts.pool w)) n ->
  0 <= n < 2 ^ 63 - 1 ->
  Accounts.active
    (Accounts.pool (fst (fst (Handlers.handle serve error_body cfg now rnd login r w))))
  = Accounts.active (Accounts.pool w).
Proof.
  intros Hserve Hw Hn. unfold Handlers.handle.
  destruct (negb (String.eqb (Auth.Method r) "POST")); [reflexivity|].
  unfold Auth.DetermineModeAndToken.
  destruct (String.eqb (Auth.caller_key r) ""); [reflexivity|].
  destruct (negb (Auth.uses_pool cfg (Auth.caller_key r))).
  { cbv iota beta.
    destruct (Hserve {| Auth.UseConfigToken := false; Auth.CallerKey := Auth.caller_key r;
                        Auth.DeepSeekToken := Auth.caller_key r; Auth.Account := None;
                        Auth.FailedAccounts := ∅; Auth.Released := false |} r w)
      as (Hac & Hp & _).
    destruct (serve _ r w) as [[[w2 ac'] resp] calls]. cbn [fst snd] in *. subst ac'.
    unfold Auth.ReleaseAccountIfNeeded. cbn [Auth.UseConfigToken negb orb fst].
    rewrite Hp. reflexivity. }
  destruct (Acquire_pool None now rnd w) as [_ Hact]. cbv zeta in Hact.
  destruct (Accounts.Acquire None now rnd w) as [w1 [l|]] eqn:Hacq; cbn [fst snd] in Hact.
  2:{ cbn [fst snd]. exact Hact. }
  destruct Hact as (acc & _ & Hc1 & Hm1).
  destruct (EnsureToken_cell login l w1 acc Hc1) as (acc2 & Hc2 & Hid & _).
  pose proof (EnsureToken_pool login (Some l) w1) as Hp2.
  destruct (Accounts.EnsureToken login (Some l) w1) as [w2 [e|]]; cbn [fst snd] in *.
  { apply (Release_cell_id w2 l acc acc2 _ Hc2 Hid) with (n := n);
      [|exact Hw|exact Hn].
    rewrite Hp2. exact Hm1. }
  set (ac := {| Auth.UseConfigToken := true; Auth.CallerKey := Auth.caller_key r;
                Auth.DeepSeekToken := _; Auth.Account := Some l;
                Auth.FailedAccounts := ∅; Auth.Released := false |}).
  destruct (Hserve ac r w2) as (Hac & Hp3 & Hc3).
  destruct (serve ac r w2) as [[[w3 ac'] resp] calls]. cbn [fst snd] in *. subst ac'.
  unfold Auth.ReleaseAccountIfNeeded, ac.
  cbn [Auth.UseConfigToken Auth.Released Auth.Account negb orb fst snd].
  apply (Release_cell_id w3 l acc acc2 _) with (n := n);
    [|exact Hid| |exact Hw|exact Hn].
  - rewrite Hc3. exact Hc2.
  - rewrite Hp3, Hp2. exact Hm1.
Qed.

Lemma handle_returns_the_session_witness :
  Accounts.active
    (Accounts.pool
       (fst (fst (Handlers.handle
                    (fun ac r w =>
                       (w, ac, {| Handlers.status := 200; Handlers.payload := Services.JNull |},
                        [Handlers.CallCreateSession; Handlers.CallGetPoW;
                         Handlers.CallCompletion]))
                    (fun msg => Services.JStr msg) pool_config 0 0 login_new pool_request
                    refreshing_world))))
  = Accounts.active (Accounts.pool refreshing_world).
Proof.
  apply (handle_returns_the_session
           (fun ac r w =>
              (w, ac, {| Handlers.status := 200; Handlers.payload := Services.JNull |},
               [Handlers.CallCreateSession; Handlers.CallGetPoW; Handlers.CallCompletion]))
           (fun msg => Services.JStr msg) pool_config 0 0 login_new pool_request
           refreshing_world 0).
  - intros ac r w. cbn [fst snd]. split; [reflexivity|]. split; reflexivity.
  - intros id v H. vm_compute in H. discriminate H.
  - lia.
Defined.
(** * More on the stream parser *)

Section ChunkArrays.

Lemma finished_literal {A} (v : string) (a b : A) :
  match v with
  | "FINISHED"%string => a
  | _ => b
  end = if String.eqb v "FINISHED" then a else b.
Proof.
  destruct (String.eqb_spec v "FINISHED") as [->|Hne]; [reflexivity|].
  repeat (destruct v as [|[[] [] [] [] [] [] [] []] v]; try reflexivity).
  contradiction.
Qed.

Lemma parse_item_finished st item :
  snd (Services.parse_item st item) = snd st || is_finish item.
Proof.
  destruct st as [[t segs] f]. unfold Services.parse_item, is_finish.
  destruct item as [| | | |items|m]; cbn [snd]; try (rewrite orb_false_r; reflexivity).
  destruct (Services.get_string m "p") as [p|].
  2:{ destruct (Services.get_string m "v"); cbn [snd]; rewrite orb_false_r; reflexivity. }
  destruct (String.eqb p "status") eqn:Hp.
  - destruct (Services.get_string m "v") as [v|]; [|cbn [snd]; rewrite orb_false_r; reflexivity].
    rewrite finished_literal. cbn [andb].
    destruct (String.eqb v "FINISHED"); cbn [snd]; [rewrite orb_true_r | rewrite orb_false_r];
      reflexivity.
  - assert (Hno : match Services.get_string m "v" with
                  | Some v => false && String.eqb v "FINISHED"
                  | None => false
                  end = false) by (destruct (Services.get_string m "v"); reflexivity).
    rewrite Hno, orb_false_r.
    destruct (_ || _); [reflexivity|].
    destruct (_ || _); [destruct (Services.get_string m "v"); reflexivity|].
    destruct (_ || _); destruct (Services.get_string m "v"); reflexivity.
Qed.

Lemma parse_items_finished items st :
  snd (fold_left Services.parse_item items st) = snd st || existsb is_finish items.
Proof.
  revert st. induction items as [|item items IH]; intros st; cbn [fold_left existsb].
  - rewrite orb_false_r. reflexivity.
  - rewrite IH, parse_item_finished, orb_assoc. reflexivity.
Qed.

Lemma parseChunk_parse_v (chunk : gmap string Services.json) cur :
  is_status_chunk chunk = false ->
  Services.parseChunk chunk cur = Services.parse_v chunk (top_type chunk cur).
Proof.
  unfold is_status_chunk, Services.parseChunk, top_type. cbv zeta.
  destruct (Services.get_string chunk "p") as [p|]; [|reflexivity].
  intros ->. destruct (String.eqb p "response/thinking_content"); [reflexivity|].
  destruct (String.eqb p "response/content"); reflexivity.
Qed.

Lemma parseChunk_status (chunk : gmap string Services.json) cur :
  is_status_chunk chunk = true ->
  Services.parseChunk chunk cur = (top_type chunk cur, [], false).
Proof.
  unfold is_status_chunk, Services.parseChunk, top_type. cbv zeta.
  destruct (Services.get_string chunk "p") as [p|]; [|discriminate].
  intros H. rewrite H.
  destruct (String.eqb_spec p "response/search_status") as [E|_]; [rewrite E; reflexivity|].
  destruct (String.eqb_spec p "response/status") as [E|_];
    [rewrite E; reflexivity | discriminate H].
Qed.

Lemma parse_items_plain texts t segs f :
  fold_left Services.parse_item (map plain texts) (t, segs, f)
  = (t, segs ++ map (seg t) texts, f).
Proof.
  revert segs. induction texts as [|v texts IH]; intros segs; cbn [map fold_left].
  - rewrite app_nil_r. reflexivity.
  - assert (Hi : Services.parse_item (t, segs, f) (plain v) = (t, segs ++ [seg t v], f))
      by (vm_compute; reflexivity).
    rewrite Hi, IH, <- app_assoc. reflexivity.
Qed.

End ChunkArrays.

Section ChunkStream.

Lemma parseChunk_finished (chunk : gmap string Services.json) cur :
  snd (Services.parseChunk chunk cur)
  = negb (is_status_chunk chunk)
    && match chunk !! "v"%string with
       | Some (Services.JArr items) => existsb is_finish items
       | _ => false
       end.
Proof.
  destruct (is_status_chunk chunk) eqn:Hs.
  - rewrite parseChunk_status by exact Hs. reflexivity.
  - rewrite parseChunk_parse_v by exact Hs. cbn [negb andb]. unfold Services.parse_v.
    destruct (chunk !! "v"%string) as [[| | | vv |items|]|]; try reflexivity.
    pose proof (parse_items_finished items (top_type chunk cur, [], false)) as H.
    destruct (fold_left Services.parse_item items (top_type chunk cur, [], false))
      as [[t s] f]. cbn [snd] in *. rewrite H. reflexivity.
Qed.

Lemma parseChunks_cut pre c post t :
  (forall t', snd (Services.parseChunk c t') = true) ->
  Services.parseChunks (pre ++ Some c :: post) t = Services.parseChunks (pre ++ [Some c]) t.
Proof.
  intros Hc. revert t. induction pre as [|[x|] pre IH]; intros t.
  - cbn [app Services.parseChunks]. specialize (Hc t).
    destruct (Services.parseChunk c t) as [[t' s] f]. cbn [snd] in Hc. subst f. reflexivity.
  - cbn [app Services.parseChunks].
    destruct (Services.parseChunk x t) as [[t' s] f]. destruct f; [reflexivity|].
    rewrite IH. reflexivity.
  - cbn [app Services.parseChunks]. apply IH.
Qed.

End ChunkStream.

(** X20. Inside an array a type switch holds for the rest of the
    array and is forgotten with the chunk.  For a chunk whose [v] is an
    array, the type handed on to the next chunk is decided by the incoming
    type and the top-level path alone; and when an element switches to
    thinking, the elements after it that carry a text and no path are
    emitted as thinking as well. *)
Theorem parseChunk_array_switch_carries_on
    (chunk : gmap string Services.json) (cur : string)
    (pre : list Services.json) (sw : Services.json) (a : string) (texts : list string) :
  is_status_chunk chunk = false ->
  chunk !! "v"%string = Some (Services.JArr (pre ++ sw :: map plain texts)) ->
  switches_to_thinking sw a ->
  let before := Services.parseChunk (<["v"%string := Services.JArr pre]> chunk) cur in
  let res := Services.parseChunk chunk cur in
  fst (fst res) = top_type chunk cur
  /\ fst (fst before) = top_type chunk cur
  /\ snd (fst res) = snd (fst before) ++ seg "thinking" a :: map (seg "thinking") texts
  /\ snd res = snd before.
Proof.
  intros Hs Hv (m & -> & Hp & Ha). cbv zeta.
  assert (Hp' : Services.get_string (<["v"%string := Services.JArr pre]> chunk) "p"
                = Services.get_string chunk "p").
  { unfold Services.get_string. rewrite lookup_insert_ne by discriminate. reflexivity. }
  assert (Hs' : is_status_chunk (<["v"%string := Services.JArr pre]> chunk) = false)
    by (unfold is_status_chunk; rewrite Hp'; exact Hs).
  assert (Ht' : top_type (<["v"%string := Services.JArr pre]> chunk) cur = top_type chunk cur)
    by (unfold top_type; rewrite Hp'; reflexivity).
  rewrite (parseChunk_parse_v chunk cur Hs), (parseChunk_parse_v _ cur Hs'), Ht'.
  set (t := top_type chunk cur).
  unfold Services.parse_v. rewrite Hv, lookup_insert_eq.
  rewrite fold_left_app. cbn [fold_left].
  destruct (fold_left Services.parse_item pre (t, [], false)) as [[t1 s1] f1].
  assert (Hsw : Services.parse_item (t1, s1, f1) (Services.JObj m)
                = ("thinking"%string, s1 ++ [seg "thinking" a], f1)).
  { unfold Services.parse_item. rewrite Ha.
    destruct Hp as [-> | ->]; reflexivity. }
  rewrite Hsw, parse_items_plain. cbn [fst snd].
  split; [reflexivity|]. split; [reflexivity|]. split; [|reflexivity].
  rewrite <- app_assoc. reflexivity.
Qed.

Lemma parseChunk_array_switch_carries_on_witness :
  let chunk : gmap string Services.json :=
    {[ "v"%string :=
         Services.JArr
           ([plain "a"]
              ++ Services.JObj {[ "p"%string := Services.JStr "thinking_content";
                                  "v"%string := Services.JStr "b" ]}
              :: map plain ["c"%string; "d"%string]) ]} in
  let before :=
    Services.parseChunk (<["v"%string := Services.JArr [plain "a"]]> chunk) "text" in
  let res := Services.parseChunk chunk "text" in
  fst (fst res) = top_type chunk "text"
  /\ fst (fst before) = top_type chunk "text"
  /\ snd (fst res)
     = snd (fst before) ++ seg "thinking" "b" :: map (seg "thinking") ["c"%string; "d"%string]
  /\ snd res = snd before.
Proof.
  intros chunk.
  apply (parseChunk_array_switch_carries_on chunk "text" [plain "a"]
           (Services.JObj {[ "p"%string := Services.JStr "thinking_content";
                             "v"%string := Services.JStr "b" ]})
           "b" ["c"%string; "d"%string]).
  - vm_compute. reflexivity.
  - vm_compute. reflexivity.
  - eexists. split; [reflexivity|]. split; [left|]; vm_compute; reflexivity.
Defined.

(** X21. The stream ends with the first chunk that has a FINISHED
    status element.  A chunk is final exactly when its top-level path is
    not a status path and its [v] is an array with an element of path
    "status" and value "FINISHED"; the incoming type plays no part.  No
    segment of any later chunk is emitted. *)
Theorem parseChunks_ends_at_finished_chunk :
  (forall (chunk : gmap string Services.json) (cur : string),
      snd (Services.parseChunk chunk cur)
      = negb (is_status_chunk chunk)
        && match chunk !! "v"%string with
           | Some (Services.JArr items) => existsb is_finish items
           | _ => false
           end)
  /\ (forall pre (c : gmap string Services.json) post t,
        snd (Services.parseChunk c t) = true ->
        Services.parseChunks (pre ++ Some c :: post) t
        = Services.parseChunks (pre ++ [Some c]) t).
Proof.
  split; [exact parseChunk_finished|].
  intros pre c post t Hc. apply parseChunks_cut. intros t'.
  rewrite parseChunk_finished in *. exact Hc.
Qed.

(** X22. [ReadSSELines] hands the callback the data lines before the
    first "[DONE]" line and nothing else: lines without the "data:" prefix
    are skipped, and whatever follows the "[DONE]" line is never read. *)
Theorem ReadSSELines_reads_data_until_done
    {S : Type} (pre : list string) (done : string) (post : list string)
    (onData : S -> string -> S * bool) (s : S) :
  is_done done = true ->
  Services.ReadSSELines (pre ++ done :: post) onData s
  = Services.ReadSSELines (List.filter is_data pre) onData s.
Proof.
  intros Hd. apply andb_true_iff in Hd as [Hdata Hdone]. unfold is_data in Hdata.
  revert s. induction pre as [|line pre IH]; intros s.
  - cbn [app List.filter Services.ReadSSELines]. rewrite Hdata, Hdone. reflexivity.
  - cbn [app List.filter]. unfold is_data at 1.
    destruct (Strings.HasPrefix line "data:") eqn:Hl.
    + cbn [Services.ReadSSELines]. rewrite Hl. cbn [negb]. cbv zeta.
      destruct (String.eqb (Strings.TrimSpace (Strings.from 5 line)) "[DONE]"); [reflexivity|].
      destruct (onData s _) as [s' [|]]; [apply IH | reflexivity].
    + cbn [Services.ReadSSELines]. rewrite Hl. cbn [negb]. apply IH.
Qed.

Lemma ReadSSELines_reads_data_until_done_witness :
  Services.ReadSSELines
    ([": keep-alive"%string; "data: one"%string] ++ "data: [DONE]"%string
       :: ["data: two"%string])
    (fun (acc : list string) data => (acc ++ [data], true)) []
  = Services.ReadSSELines
      (List.filter is_data [": keep-alive"%string; "data: one"%string])
      (fun (acc : list string) data => (acc ++ [data], true)) [].
Proof.
  apply (ReadSSELines_reads_data_until_done
           [": keep-alive"%string; "data: one"%string] "data: [DONE]" ["data: two"%string]
           (fun (acc : list string) data => (acc ++ [data], true)) []).
  vm_compute. reflexivity.
Defined.

Section Merge.

Lemma alternating_snoc (l : list Services.turn) (x p : Services.turn) :
  alternating (l ++ [x]) -> Services.role x <> Services.role p ->
  alternating ((l ++ [x]) ++ [p]).
Proof.
  intros Hl Hne i a b Ha Hb.
  destruct (decide (S i < length (l ++ [x]))%nat) as [Hlt|Hge].
  - rewrite lookup_app_l in Ha, Hb by lia. exact (Hl i a b Ha Hb).
  - assert (Hi : S i = length (l ++ [x])).
    { apply lookup_lt_Some in Hb. rewrite length_app in Hb. cbn [length] in Hb. lia. }
    rewrite lookup_app_r in Hb by lia. rewrite Hi, Nat.sub_diag in Hb. injection Hb as <-.
    rewrite length_app in Hi. cbn [length] in Hi.
    rewrite lookup_app_l in Ha by (rewrite length_app; cbn [length]; lia).
    rewrite lookup_app_r in Ha by lia.
    replace (i - length l)%nat with 0%nat in Ha by lia. injection Ha as <-. exact Hne.
Qed.

Lemma merge_step_snoc (l : list Services.turn) (x p : Services.turn) :
  Services.merge_step (l ++ [x]) p
  = if String.eqb (Services.role p) (Services.role x) then
      l ++ [{| Services.role := Services.role x;
               Services.text := Services.text x ++ Services.blank_line ++ Services.text p |}]
    else (l ++ [x]) ++ [p].
Proof.
  unfold Services.merge_step. cbv zeta.
  replace (length (l ++ [x]) - 1)%nat with (length l + 0)%nat
    by (rewrite length_app; cbn [length]; lia).
  rewrite lookup_app_r by lia.
  replace (length l + 0 - length l)%nat with 0%nat by lia. cbn [lookup list_lookup].
  destruct (String.eqb _ _); [|reflexivity].
  rewrite insert_app_r. reflexivity.
Qed.

Lemma alternating_same_role (l : list Services.turn) (x y : Services.turn) :
  Services.role y = Services.role x -> alternating (l ++ [x]) -> alternating (l ++ [y]).
Proof.
  intros Hr Hl i a b Ha Hb.
  assert (Hi : (S i < length l + 1)%nat).
  { apply lookup_lt_Some in Hb. rewrite length_app in Hb. exact Hb. }
  destruct (decide (S i < length l)%nat) as [Hlt|Hge].
  - rewrite lookup_app_l in Ha, Hb by lia.
    apply (Hl i a b); rewrite lookup_app_l by lia; assumption.
  - rewrite lookup_app_l in Ha by lia. rewrite lookup_app_r in Hb by lia.
    replace (S i - length l)%nat with 0%nat in Hb by lia. injection Hb as <-.
    rewrite Hr. apply (Hl i a x).
    + rewrite lookup_app_l by lia. exact Ha.
    + rewrite lookup_app_r by lia. replace (S i - length l)%nat with 0%nat by lia.
      reflexivity.
Qed.

Lemma merge_loop_alternating rest (l : list Services.turn) (x : Services.turn) :
  alternating (l ++ [x]) ->
  alternating (fold_left Services.merge_step rest (l ++ [x]))
  /\ (length (fold_left Services.merge_step rest (l ++ [x])) <= length l + 1 + length rest)%nat
  /\ fold_left Services.merge_step rest (l ++ [x]) <> [].
Proof.
  revert l x. induction rest as [|p rest IH]; intros l x Hl; cbn [fold_left].
  - split; [exact Hl|]. split; [rewrite length_app; cbn [length]; lia|].
    destruct l; discriminate.
  - rewrite merge_step_snoc.
    destruct (String.eqb_spec (Services.role p) (Services.role x)) as [He|Hne].
    + destruct (IH l {| Services.role := Services.role x;
                        Services.text := Services.text x ++ Services.blank_line
                                           ++ Services.text p |})
        as (H1 & H2 & H3).
      { apply (alternating_same_role l x); [reflexivity | exact Hl]. }
      split; [exact H1|]. split; [cbn [length]; lia | exact H3].
    + destruct (IH (l ++ [x]) p) as (H1 & H2 & H3).
      { apply alternating_snoc; [exact Hl | congruence]. }
      split; [exact H1|]. split; [|exact H3].
      rewrite length_app in H2. cbn [length] in *. lia.
Qed.

Lemma merge_loop_fixed rest (l : list Services.turn) (x : Services.turn) :
  alternating ((l ++ [x]) ++ rest) ->
  fold_left Services.merge_step rest (l ++ [x]) = (l ++ [x]) ++ rest.
Proof.
  revert l x. induction rest as [|p rest IH]; intros l x Hl; cbn [fold_left].
  - rewrite app_nil_r. reflexivity.
  - rewrite merge_step_snoc.
    assert (Hne : Services.role x <> Services.role p).
    { apply (Hl (length l) x p).
      - rewrite <- app_assoc. rewrite lookup_app_r by lia. rewrite Nat.sub_diag. reflexivity.
      - rewrite lookup_app_r by (rewrite length_app; cbn [length]; lia).
        rewrite length_app. cbn [length].
        replace (S (length l) - (length l + 1))%nat with 0%nat by lia. reflexivity. }
    destruct (String.eqb_spec (Services.role p) (Services.role x)) as [He|_]; [congruence|].
    rewrite (IH (l ++ [x]) p).
    + rewrite <- !app_assoc. reflexivity.
    + rewrite <- (app_assoc (l ++ [x]) [p] rest). exact Hl.
Qed.

Lemma merge_alternating processed :
  alternating (Services.merge processed)
  /\ (length (Services.merge processed) <= length processed)%nat
  /\ (Services.merge processed = [] <-> processed = []).
Proof.
  destruct processed as [|first rest].
  - split; [intros i a b H; discriminate H|]. split; [reflexivity | tauto].
  - unfold Services.merge.
    destruct (merge_loop_alternating rest [] first) as (H1 & H2 & H3).
    { intros i a b Ha Hb. destruct i; discriminate Hb. }
    split; [exact H1|]. split; [cbn [length app] in *; lia|].
    split; [intros H; contradiction | discriminate].
Qed.

Lemma merge_fixed processed : alternating processed -> Services.merge processed = processed.
Proof.
  destruct processed as [|first rest]; [reflexivity|]. intros H.
  unfold Services.merge. apply (merge_loop_fixed rest [] first). exact H.
Qed.

End Merge.

(** X23. After the merge of [MessagesPrepare] no two neighbouring
    messages have the same role.  The merge never adds a message, returns
    the empty list only for the empty list, leaves a list that already
    alternates as it is, and by that is idempotent. *)
Theorem merge_makes_roles_alternate (processed : list Services.turn) :
  alternating (Services.merge processed)
  /\ (length (Services.merge processed) <= length processed)%nat
  /\ (Services.merge processed = [] <-> processed = [])
  /\ (alternating processed -> Services.merge processed = processed)
  /\ Services.merge (Services.merge processed) = Services.merge processed.
Proof.
  destruct (merge_alternating processed) as (H1 & H2 & H3).
  split; [exact H1|]. split; [exact H2|]. split; [exact H3|].
  split; [apply merge_fixed | apply merge_fixed, H1].
Qed.

(** X24. [mapClaudeModel] never returns a blank model name: the result
    is the mapping's "slow" or "fast" entry when that entry is not blank,
    and "deepseek-chat" otherwise, also for a mapping without entries. *)
Theorem mapClaudeModel_never_blank (mapping : gmap string string) (model : string) :
  let r := Handlers.mapClaudeModel mapping model in
  Strings.TrimSpace r <> ""%string
  /\ (r = "deepseek-chat"%string
      \/ mapping !! "slow"%string = Some r
      \/ mapping !! "fast"%string = Some r).
Proof.
  cbv zeta. unfold Handlers.mapClaudeModel. cbv zeta.
  assert (Hd : Strings.TrimSpace "deepseek-chat" <> ""%string) by (vm_compute; discriminate).
  assert (He : forall k : string,
            Strings.TrimSpace (default ""%string (mapping !! k)) <> ""%string ->
            mapping !! k = Some (default ""%string (mapping !! k))).
  { intros k Hk. destruct (mapping !! k) as [v|]; [reflexivity|].
    exfalso. apply Hk. vm_compute. reflexivity. }
  destruct (_ || _).
  - destruct (String.eqb_spec (Strings.TrimSpace (default ""%string (mapping !! "slow"%string)))
                              "") as [E|N]; cbn [negb].
    + split; [exact Hd | left; reflexivity].
    + split; [exact N | right; left; apply He, N].
  - destruct (String.eqb_spec (Strings.TrimSpace (default ""%string (mapping !! "fast"%string)))
                              "") as [E|N]; cbn [negb].
    + split; [exact Hd | left; reflexivity].
    + split; [exact N | right; right; apply He, N].
Qed.
(** * More on the sync manager: the loop as a whole *)

Section SyncLoop.

Context {M : Type}.
Variable decodeAccounts : M -> CloudSync.result (list Accounts.AccountConfig).
Variable decodeConfigPayload : M -> CloudSync.result CloudSync.SyncConfigPayload.
Variable remote : CloudSync.Remote M.
Variable draw : nat -> nat.
Variable accountsMeta : list Accounts.AccountConfig -> M.
Variable configMeta : CloudSync.SyncConfigPayload -> M.

#[local] Abbreviation apply_loop := (CloudSync.apply_loop M decodeAccounts decodeConfigPayload).
#[local] Abbreviation applyItems := (CloudSync.applyItems M decodeAccounts decodeConfigPayload draw).
#[local] Abbreviation pullAndApply :=
  (CloudSync.pullAndApply M decodeAccounts decodeConfigPayload remote draw).
#[local] Abbreviation upsertWithConflictRetry :=
  (CloudSync.upsertWithConflictRetry M decodeAccounts decodeConfigPayload remote draw).
#[local] Abbreviation pushLocalSnapshot :=
  (CloudSync.pushLocalSnapshot M decodeAccounts decodeConfigPayload remote draw
     accountsMeta configMeta).
#[local] Abbreviation SyncOnce :=
  (CloudSync.SyncOnce M decodeAccounts decodeConfigPayload remote draw accountsMeta configMeta).

Lemma manager_eta (m : CloudSync.SyncManager M) :
  {| CloudSync.st := CloudSync.st m; CloudSync.Limit := CloudSync.Limit m;
     CloudSync.version := CloudSync.version m; CloudSync.cursor := CloudSync.cursor m;
     CloudSync.sent := CloudSync.sent m |} = m.
Proof. destruct m. reflexivity. Qed.

Lemma advances_refl (m : CloudSync.SyncManager M) : advances m m.
Proof. unfold advances. split; [lia|]. split; [lia|]. split; [reflexivity | auto]. Qed.

Lemma advances_trans (m1 m2 m3 : CloudSync.SyncManager M) :
  advances m1 m2 -> advances m2 m3 -> advances m1 m3.
Proof.
  intros (V1 & C1 & L1 & S1) (V2 & C2 & L2 & S2). unfold advances.
  split; [lia|]. split; [lia|]. split; [congruence | auto].
Qed.

(** The loop of [applyItems] moves the version only, and only forward. *)
Lemma apply_loop_frame items (m : CloudSync.SyncManager M) ra rc :
  let m' := fst (fst (fst (apply_loop items m ra rc))) in
  CloudSync.st m' = CloudSync.st m
  /\ CloudSync.Limit m' = CloudSync.Limit m
  /\ CloudSync.cursor m' = CloudSync.cursor m
  /\ CloudSync.sent m' = CloudSync.sent m
  /\ CloudSync.version m <= CloudSync.version m'.
Proof.
  revert m ra rc. induction items as [|item rest IH]; intros m ra rc.
  { cbn. repeat split; lia. }
  cbn [CloudSync.apply_loop].
  set (b := if CloudSync.getVersion M m <? CloudSync.Version item
            then CloudSync.setVersion M (CloudSync.Version item) m else m).
  assert (Hb : CloudSync.st b = CloudSync.st m /\ CloudSync.Limit b = CloudSync.Limit m
               /\ CloudSync.cursor b = CloudSync.cursor m
               /\ CloudSync.sent b = CloudSync.sent m
               /\ CloudSync.version m <= CloudSync.version b).
  { unfold b, CloudSync.setVersion, CloudSync.getVersion.
    destruct (Z.ltb_spec (CloudSync.version m) (CloudSync.Version item)); cbn;
      repeat split; lia. }
  destruct Hb as (B1 & B2 & B3 & B4 & B5).
  assert (Hstep : forall ra' rc',
            let m' := fst (fst (fst (apply_loop rest b ra' rc'))) in
            CloudSync.st m' = CloudSync.st m /\ CloudSync.Limit m' = CloudSync.Limit m
            /\ CloudSync.cursor m' = CloudSync.cursor m
            /\ CloudSync.sent m' = CloudSync.sent m
            /\ CloudSync.version m <= CloudSync.version m').
  { intros ra' rc'. destruct (IH b ra' rc') as (I1 & I2 & I3 & I4 & I5). cbv zeta.
    rewrite I1, I2, I3, I4. repeat split; (assumption || lia). }
  destruct (CloudSync.Deleted M item); [apply IH|].
  destruct (String.eqb _ CloudSync.accountsPath).
  { destruct (decodeAccounts _); [apply Hstep|]. cbn. repeat split; lia. }
  destruct (String.eqb _ CloudSync.configPath).
  { destruct (decodeConfigPayload _); [apply Hstep|]. cbn. repeat split; lia. }
  apply Hstep.
Qed.

(** A reload with the settings of the configuration puts the pool in
    step with it. *)
Lemma reload_in_step (s : CloudSync.AppState) accs :
  in_step
    {| CloudSync.cfgRefresh := CloudSync.cfgRefresh s;
       CloudSync.cfgMaxActiveAccounts := CloudSync.cfgMaxActiveAccounts s;
       CloudSync.cfgClaudeModelMapping := CloudSync.cfgClaudeModelMapping s;
       CloudSync.Pool := Accounts.Reload accs (CloudSync.cfgRefresh s)
                           (CloudSync.cfgMaxActiveAccounts s) draw (CloudSync.Pool s) |}.
Proof.
  unfold in_step. cbv zeta.
  cbn [CloudSync.Pool CloudSync.cfgRefresh CloudSync.cfgMaxActiveAccounts].
  unfold Accounts.Reload. cbn [Accounts.with_pool Accounts.pool].
  destruct (reloadLocked_selects accs (CloudSync.cfgRefresh s)
              (CloudSync.cfgMaxActiveAccounts s) draw
              (Accounts.pool (CloudSync.Pool s))) as (_ & Hlen & _ & _).
  destruct (reloadLocked_spec accs (CloudSync.cfgRefresh s)
              (CloudSync.cfgMaxActiveAccounts s) draw
              (Accounts.pool (CloudSync.Pool s))) as (_ & _ & Hmax & _).
  cbv zeta in Hlen, Hmax.
  split; [reflexivity|]. split; [symmetry; exact Hmax|].
  intros Hpos. rewrite Hlen.
  destruct (Z.ltb_spec 0 (CloudSync.cfgMaxActiveAccounts s));
    destruct (Z.ltb_spec (CloudSync.cfgMaxActiveAccounts s) (Z.of_nat (length accs)));
    cbn [andb]; lia.
Qed.

Lemma applyItems_advances items (m : CloudSync.SyncManager M) :
  advances m (fst (applyItems items m))
  /\ CloudSync.sent (fst (applyItems items m)) = CloudSync.sent m
  /\ CloudSync.cursor (fst (applyItems items m)) = CloudSync.cursor m
  /\ (snd (applyItems items m) <> None ->
      CloudSync.st (fst (applyItems items m)) = CloudSync.st m).
Proof.
  unfold CloudSync.applyItems. destruct items as [|item rest].
  { cbn [fst snd]. split; [apply advances_refl|]. repeat split; congruence. }
  pose proof (apply_loop_frame (item :: rest) m None None) as H. cbv zeta in H.
  destruct (apply_loop (item :: rest) m None None) as [[[m' ra] rc] err].
  cbn [fst] in H. destruct H as (H1 & H2 & H3 & H4 & H5).
  destruct err as [e|]; cbn [fst snd].
  { split; [|split; [exact H4 | split; [exact H3 | intros _; exact H1]]].
    unfold advances. rewrite H1, H2, H3. (split; [lia|]; split; [lia|]; split; [reflexivity | auto]). }
  unfold CloudSync.with_state. cbn [CloudSync.sent CloudSync.cursor].
  split; [|split; [exact H4 | split; [exact H3 | intros Hn; contradiction]]].
  unfold advances. cbn [CloudSync.version CloudSync.cursor CloudSync.Limit CloudSync.st].
  split; [exact H5|]. split; [lia|]. split; [exact H2|].
  rewrite H1. intros Hin.
  destruct rc as [c|]; [|destruct ra as [accs|]; [|exact Hin]].
  - apply (reload_in_step
             (CloudSync.UpdateSyncRuntime (CloudSync.Refresh c)
                (CloudSync.MaxActiveAccounts c) (CloudSync.ClaudeModelMapping c)
                (CloudSync.st m))).
  - apply (reload_in_step (CloudSync.st m) accs).
Qed.

Lemma pullAndApply_advances (m : CloudSync.SyncManager M) :
  advances m (fst (pullAndApply m)).
Proof.
  unfold CloudSync.pullAndApply. cbv zeta.
  set (m0 := CloudSync.with_sent m _).
  assert (H0 : advances m m0) by (unfold advances, m0; cbn; (split; [lia|]; split; [lia|]; split; [reflexivity | auto])).
  destruct (CloudSync.onListItems remote (CloudSync.sent m0)) as [[listResp|]|e];
    cbn [fst]; try exact H0.
  destruct (applyItems_advances (CloudSync.Items listResp) m0) as (Ha & _).
  destruct (applyItems (CloudSync.Items listResp) m0) as [m1 [e|]]; cbn [fst] in *.
  { exact (advances_trans _ _ _ H0 Ha). }
  set (m2 := CloudSync.with_sent m1 _).
  assert (H2 : advances m m2).
  { apply (advances_trans _ _ _ H0), (advances_trans _ _ _ Ha).
    unfold advances, m2; cbn; (split; [lia|]; split; [lia|]; split; [reflexivity | auto]). }
  destruct (CloudSync.onDelta remote (CloudSync.sent m2)) as [d|e]; cbn [fst]; [|exact H2].
  apply (advances_trans _ _ _ H2).
  unfold advances. cbn [CloudSync.version CloudSync.cursor CloudSync.Limit CloudSync.st].
  split; [destruct (Z.ltb_spec (CloudSync.version m2) (CloudSync.LatestVersion listResp)); lia|].
  split; [|split; [reflexivity | auto]].
  match goal with |- _ <= (if ?c <? ?x then _ else _) => destruct (Z.ltb_spec c x); lia end.
Qed.

Lemma advanceVersionCursor_advances item (m : CloudSync.SyncManager M) :
  advances m (CloudSync.advanceVersionCursor item m).
Proof.
  destruct item as [item|]; [|apply advances_refl].
  unfold advances, CloudSync.advanceVersionCursor.
  cbn [CloudSync.version CloudSync.cursor CloudSync.Limit CloudSync.st].
  destruct (Z.ltb_spec (CloudSync.version m) (CloudSync.Version item));
    destruct (Z.ltb_spec (CloudSync.cursor m) (CloudSync.Version item));
    (split; [lia|]; split; [lia|]; split; [reflexivity | auto]).
Qed.

Lemma upsertWithConflictRetry_advances path metadata (m : CloudSync.SyncManager M) :
  advances m (fst (upsertWithConflictRetry path metadata m)).
Proof.
  unfold CloudSync.upsertWithConflictRetry. cbv zeta.
  set (m0 := CloudSync.with_sent m _).
  assert (H0 : advances m m0) by (unfold advances, m0; cbn; (split; [lia|]; split; [lia|]; split; [reflexivity | auto])).
  destruct (CloudSync.onUpsertItem remote (CloudSync.sent m0)) as [item|e]; cbn [fst].
  { apply (advances_trans _ _ _ H0), advanceVersionCursor_advances. }
  destruct e as [| |sv sh|msg]; cbn [fst]; try exact H0.
  pose proof (pullAndApply_advances m0) as Hp.
  destruct (pullAndApply m0) as [m1 [e|]]; cbn [fst] in *.
  { exact (advances_trans _ _ _ H0 Hp). }
  set (m2 := CloudSync.with_sent m1 _).
  assert (H2 : advances m m2).
  { apply (advances_trans _ _ _ H0), (advances_trans _ _ _ Hp).
    unfold advances, m2; cbn; (split; [lia|]; split; [lia|]; split; [reflexivity | auto]). }
  destruct (CloudSync.onResolveConflict remote (CloudSync.sent m2)) as [resolved|e];
    cbn [fst]; [|exact H2].
  apply (advances_trans _ _ _ H2), advanceVersionCursor_advances.
Qed.

Lemma pushLocalSnapshot_advances (m : CloudSync.SyncManager M) :
  advances m (fst (pushLocalSnapshot m)).
Proof.
  unfold CloudSync.pushLocalSnapshot. cbv zeta.
  pose proof (upsertWithConflictRetry_advances CloudSync.accountsPath
                (accountsMeta (Accounts.SnapshotConfigAccounts (CloudSync.Pool (CloudSync.st m))))
                m) as H1.
  destruct (upsertWithConflictRetry CloudSync.accountsPath _ m) as [m1 [e|]];
    cbn [fst] in *; [exact H1|].
  match goal with
  | |- advances m (fst (match upsertWithConflictRetry ?p ?md m1 with _ => _ end)) =>
      pose proof (upsertWithConflictRetry_advances p md m1) as H2;
      destruct (upsertWithConflictRetry p md m1) as [m2 [e|]]
  end; cbn [fst] in *; exact (advances_trans _ _ _ H1 H2).
Qed.

Lemma SyncOnce_advances (m : CloudSync.SyncManager M) : advances m (fst (SyncOnce m)).
Proof.
  unfold CloudSync.SyncOnce.
  pose proof (pullAndApply_advances m) as H1.
  destruct (pullAndApply m) as [m1 [e|]]; cbn [fst] in *; [exact H1|].
  apply (advances_trans _ _ _ H1), pushLocalSnapshot_advances.
Qed.

Lemma tick_advances (m : CloudSync.SyncManager M) status now :
  advances m
    (fst (CloudSync.tick M decodeAccounts decodeConfigPayload remote draw accountsMeta
            configMeta (m, status) now)).
Proof.
  unfold CloudSync.tick. pose proof (SyncOnce_advances m) as H.
  destruct (SyncOnce m) as [m1 [e|]]; exact H.
Qed.

Lemma Run_advances ticks (m : CloudSync.SyncManager M) status :
  advances m
    (fst (CloudSync.Run M decodeAccounts decodeConfigPayload remote draw accountsMeta
            configMeta ticks m status)).
Proof.
  unfold CloudSync.Run. revert m status.
  induction ticks as [|now ticks IH]; intros m status; cbn [fold_left fst];
    [apply advances_refl|].
  pose proof (tick_advances m status now) as H1.
  destruct (CloudSync.tick M decodeAccounts decodeConfigPayload remote draw accountsMeta
              configMeta (m, status) now) as [m1 s1]. cbn [fst] in H1.
  apply (advances_trans _ _ _ H1), IH.
Qed.

End SyncLoop.

(** X25. The sync loop never goes back: after [SyncOnce], and after
    any number of ticks of [Run], the manager's version and cursor are at
    least what they were, whatever the server answers and whether the
    round fails or not. *)
Theorem sync_never_goes_back
    {M : Type}
    (decodeAccounts : M -> CloudSync.result (list Accounts.AccountConfig))
    (decodeConfigPayload : M -> CloudSync.result CloudSync.SyncConfigPayload)
    (remote : CloudSync.Remote M) (draw : nat -> nat)
    (accountsMeta : list Accounts.AccountConfig -> M)
    (configMeta : CloudSync.SyncConfigPayload -> M)
    (ticks : list Z) (m : CloudSync.SyncManager M) (status : CloudSync.SyncStatus) :
  let m1 := fst (CloudSync.SyncOnce M decodeAccounts decodeConfigPayload remote draw
                   accountsMeta configMeta m) in
  let m2 := fst (CloudSync.Run M decodeAccounts decodeConfigPayload remote draw
                   accountsMeta configMeta ticks m status) in
  CloudSync.version m <= CloudSync.version m1
  /\ CloudSync.cursor m <= CloudSync.cursor m1
  /\ CloudSync.version m <= CloudSync.version m2
  /\ CloudSync.cursor m <= CloudSync.cursor m2.
Proof.
  cbv zeta.
  destruct (SyncOnce_advances decodeAccounts decodeConfigPayload remote draw accountsMeta
              configMeta m) as (V1 & C1 & _).
  destruct (Run_advances decodeAccounts decodeConfigPayload remote draw accountsMeta
              configMeta ticks m status) as (V2 & C2 & _).
  repeat split; assumption.
Qed.

(** X26. The sync loop keeps the pool in step with the runtime
    configuration: when the pool's [refresh] flag and size limit agree
    with the configuration before [Run], they agree after it, whatever
    items the server sends (a config item changes both together). *)
Theorem sync_keeps_pool_in_step
    {M : Type}
    (decodeAccounts : M -> CloudSync.result (list Accounts.AccountConfig))
    (decodeConfigPayload : M -> CloudSync.result CloudSync.SyncConfigPayload)
    (remote : CloudSync.Remote M) (draw : nat -> nat)
    (accountsMeta : list Accounts.AccountConfig -> M)
    (configMeta : CloudSync.SyncConfigPayload -> M)
    (ticks : list Z) (m : CloudSync.SyncManager M) (status : CloudSync.SyncStatus) :
  in_step (CloudSync.st m) ->
  in_step (CloudSync.st (fst (CloudSync.Run M decodeAccounts decodeConfigPayload remote draw
                                accountsMeta configMeta ticks m status))).
Proof.
  intros H.
  destruct (Run_advances decodeAccounts decodeConfigPayload remote draw accountsMeta
              configMeta ticks m status) as (_ & _ & _ & Hs).
  apply Hs, H.
Qed.

Lemma sync_keeps_pool_in_step_witness :
  in_step (CloudSync.st (fst (CloudSync.Run string scenario_decodeAccounts
                                scenario_decodeConfigPayload scenario_remote (fun _ => 0%nat)
                                scenario_accountsMeta scenario_configMeta
                                [1700000000; 1700000030] scenario_manager scenario_status))).
Proof.
  apply (sync_keeps_pool_in_step scenario_decodeAccounts scenario_decodeConfigPayload
           scenario_remote (fun _ => 0%nat) scenario_accountsMeta scenario_configMeta
           [1700000000; 1700000030] scenario_manager scenario_status).
  unfold in_step. cbv zeta. split; [reflexivity|]. split; [reflexivity|]. intros _.
  vm_compute. discriminate.
Defined.

Section ApplyItems.

Context {M : Type}.
Variable decodeAccounts : M -> CloudSync.result (list Accounts.AccountConfig).
Variable decodeConfigPayload : M -> CloudSync.result CloudSync.SyncConfigPayload.
Variable draw : nat -> nat.

#[local] Abbreviation apply_loop' := (CloudSync.apply_loop M decodeAccounts decodeConfigPayload).

Lemma apply_loop_live items (m : CloudSync.SyncManager M) ra rc :
  apply_loop' (List.filter (fun i => negb (CloudSync.Deleted M i)) items) m ra rc
  = apply_loop' items m ra rc.
Proof.
  revert m ra rc. induction items as [|item rest IH]; intros m ra rc; [reflexivity|].
  cbn [List.filter]. destruct (CloudSync.Deleted M item) eqn:Hd; cbn [negb].
  - cbn [CloudSync.apply_loop]. rewrite Hd. apply IH.
  - cbn [CloudSync.apply_loop]. rewrite Hd.
    destruct (String.eqb _ CloudSync.accountsPath).
    { destruct (decodeAccounts _); [apply IH | reflexivity]. }
    destruct (String.eqb _ CloudSync.configPath).
    { destruct (decodeConfigPayload _); [apply IH | reflexivity]. }
    apply IH.
Qed.

Lemma apply_loop_all_deleted items (m : CloudSync.SyncManager M) ra rc :
  List.filter (fun i => negb (CloudSync.Deleted M i)) items = [] ->
  apply_loop' items m ra rc = (m, ra, rc, None).
Proof. intros H. rewrite <- apply_loop_live, H. reflexivity. Qed.

End ApplyItems.

(** X27. Deleted items are skipped entirely: [applyItems] does to the
    manager, the configuration and the pool exactly what it does for the
    list without them.  A deleted item does not even move the version, and
    a list of deleted items only is no different from an empty list. *)
Theorem applyItems_ignores_deleted
    {M : Type}
    (decodeAccounts : M -> CloudSync.result (list Accounts.AccountConfig))
    (decodeConfigPayload : M -> CloudSync.result CloudSync.SyncConfigPayload)
    (draw : nat -> nat) (items : list (CloudSync.SyncItem M)) (m : CloudSync.SyncManager M) :
  CloudSync.applyItems M decodeAccounts decodeConfigPayload draw items m
  = CloudSync.applyItems M decodeAccounts decodeConfigPayload draw
      (List.filter (fun i => negb (CloudSync.Deleted M i)) items) m.
Proof.
  unfold CloudSync.applyItems.
  destruct (List.filter (fun i => negb (CloudSync.Deleted M i)) items) as [|x live] eqn:Hf.
  - destruct items as [|item rest]; [reflexivity|].
    rewrite (apply_loop_all_deleted decodeAccounts decodeConfigPayload (item :: rest) m
               None None Hf).
    unfold CloudSync.with_state. rewrite manager_eta. reflexivity.
  - destruct items as [|item rest]; [discriminate Hf|].
    rewrite <- Hf, apply_loop_live. reflexivity.
Qed.

(** X28. A failed [applyItems] applies nothing: when an item cannot be
    decoded, the configuration and the pool are as before, as are the
    cursor and the request log; only the version may have moved, forward,
    to the versions of the items before the broken one. *)
Theorem applyItems_error_leaves_state
    {M : Type}
    (decodeAccounts : M -> CloudSync.result (list Accounts.AccountConfig))
    (decodeConfigPayload : M -> CloudSync.result CloudSync.SyncConfigPayload)
    (draw : nat -> nat) (items : list (CloudSync.SyncItem M)) (m : CloudSync.SyncManager M)
    (e : CloudSync.error) :
  snd (CloudSync.applyItems M decodeAccounts decodeConfigPayload draw items m) = Some e ->
  let m' := fst (CloudSync.applyItems M decodeAccounts decodeConfigPayload draw items m) in
  CloudSync.st m' = CloudSync.st m
  /\ CloudSync.cursor m' = CloudSync.cursor m
  /\ CloudSync.sent m' = CloudSync.sent m
  /\ CloudSync.Limit m' = CloudSync.Limit m
  /\ CloudSync.version m <= CloudSync.version m'.
Proof.
  intros He. cbv zeta.
  destruct (applyItems_advances decodeAccounts decodeConfigPayload draw items m)
    as ((V & _ & L & _) & Hs & Hc & Hst).
  split; [apply Hst; rewrite He; discriminate|].
  repeat split; assumption.
Qed.

Lemma applyItems_error_leaves_state_witness :
  let m' := fst (CloudSync.applyItems string scenario_decodeAccounts
                   scenario_decodeConfigPayload (fun _ => 0%nat)
                   [scenario_item; broken_config_item] scenario_manager) in
  CloudSync.st m' = CloudSync.st scenario_manager
  /\ CloudSync.cursor m' = CloudSync.cursor scenario_manager
  /\ CloudSync.sent m' = CloudSync.sent scenario_manager
  /\ CloudSync.Limit m' = CloudSync.Limit scenario_manager
  /\ CloudSync.version scenario_manager <= CloudSync.version m'.
Proof.
  apply (applyItems_error_leaves_state scenario_decodeAccounts scenario_decodeConfigPayload
           (fun _ => 0%nat) [scenario_item; broken_config_item] scenario_manager
           (CloudSync.OtherError "not a config payload")).
  vm_compute. reflexivity.
Defined.

Section SyncStatusProofs.

Context {M : Type}.
Variable decodeAccounts : M -> CloudSync.result (list Accounts.AccountConfig).
Variable decodeConfigPayload : M -> CloudSync.result CloudSync.SyncConfigPayload.
Variable remote : CloudSync.Remote M.
Variable draw : nat -> nat.
Variable accountsMeta : list Accounts.AccountConfig -> M.
Variable configMeta : CloudSync.SyncConfigPayload -> M.

#[local] Abbreviation tick' :=
  (CloudSync.tick M decodeAccounts decodeConfigPayload remote draw accountsMeta configMeta).

Lemma tick_not_ahead (m : CloudSync.SyncManager M) status now :
  not_ahead status m -> not_ahead (snd (tick' (m, status) now)) (fst (tick' (m, status) now)).
Proof.
  intros [Hv Hc]. unfold CloudSync.tick.
  destruct (SyncOnce_advances decodeAccounts decodeConfigPayload remote draw accountsMeta
              configMeta m) as (V & C & _).
  destruct (CloudSync.SyncOnce M decodeAccounts decodeConfigPayload remote draw accountsMeta
              configMeta m) as [m1 [e|]]; cbn [fst snd] in *; unfold not_ahead;
    cbn [CloudSync.MarkSyncError CloudSync.MarkSyncSuccess CloudSync.LastVersion
         CloudSync.LastCursor CloudSync.getVersion CloudSync.getCursor].
  all: unfold CloudSync.getVersion, CloudSync.getCursor; lia.
Qed.

End SyncStatusProofs.

(** X29. The status never runs ahead of the manager.  When the
    reported [last_version] and [last_cursor] are at most the manager's
    version and cursor before [Run], they are so after every tick: a
    successful round reports the manager's values, a failed round keeps the
    values reported before while the manager does not go back. *)
Theorem Run_status_not_ahead
    {M : Type}
    (decodeAccounts : M -> CloudSync.result (list Accounts.AccountConfig))
    (decodeConfigPayload : M -> CloudSync.result CloudSync.SyncConfigPayload)
    (remote : CloudSync.Remote M) (draw : nat -> nat)
    (accountsMeta : list Accounts.AccountConfig -> M)
    (configMeta : CloudSync.SyncConfigPayload -> M)
    (ticks : list Z) (m : CloudSync.SyncManager M) (status : CloudSync.SyncStatus) :
  not_ahead status m ->
  let res := CloudSync.Run M decodeAccounts decodeConfigPayload remote draw accountsMeta
               configMeta ticks m status in
  not_ahead (snd res) (fst res).
Proof.
  cbv zeta. unfold CloudSync.Run. revert m status.
  induction ticks as [|now ticks IH]; intros m status H; cbn [fold_left]; [exact H|].
  pose proof (tick_not_ahead decodeAccounts decodeConfigPayload remote draw accountsMeta
                configMeta m status now H) as H1.
  destruct (CloudSync.tick M decodeAccounts decodeConfigPayload remote draw accountsMeta
              configMeta (m, status) now) as [m1 s1]. apply IH, H1.
Qed.

Lemma Run_status_not_ahead_witness :
  let res := CloudSync.Run string scenario_decodeAccounts scenario_decodeConfigPayload
               scenario_remote (fun _ => 0%nat) scenario_accountsMeta scenario_configMeta
               [1700000000; 1700000030] scenario_manager scenario_status in
  not_ahead (snd res) (fst res).
Proof.
  apply (Run_status_not_ahead scenario_decodeAccounts scenario_decodeConfigPayload
           scenario_remote (fun _ => 0%nat) scenario_accountsMeta scenario_configMeta
           [1700000000; 1700000030] scenario_manager scenario_status).
  split; vm_compute; discriminate.
Defined.

(** [InitialSync] reports what it returns.  On success the
    status is connected, has no error text and carries the manager's
    version and cursor and the time of the call.  On a failure (of the
    handshake, the pull or the push) the status is not connected, carries
    the text of the error returned, and keeps the version, cursor and time
    of the last success.  [enabled] is never touched. *)
Theorem InitialSync_reports_outcome
    {M : Type}
    (decodeAccounts : M -> CloudSync.result (list Accounts.AccountConfig))
    (decodeConfigPayload : M -> CloudSync.result CloudSync.SyncConfigPayload)
    (remote : CloudSync.Remote M) (draw : nat -> nat)
    (accountsMeta : list Accounts.AccountConfig -> M)
    (configMeta : CloudSync.SyncConfigPayload -> M)
    (handshake : Z -> CloudSync.result Z)
    (now : Z) (m : CloudSync.SyncManager M) (status : CloudSync.SyncStatus) :
  let res := CloudSync.InitialSync M decodeAccounts decodeConfigPayload remote draw
               accountsMeta configMeta handshake now m status in
  let m' := fst (fst res) in
  let status' := snd (fst res) in
  CloudSync.Enabled status' = CloudSync.Enabled status
  /\ match snd res with
     | None =>
         status' = {| CloudSync.Enabled := CloudSync.Enabled status;
                      CloudSync.Connected := true; CloudSync.LastSuccessUnix := now;
                      CloudSync.LastVersion := CloudSync.version m';
                      CloudSync.LastCursor := CloudSync.cursor m';
                      CloudSync.LastError := "" |}
     | Some err =>
         status' = {| CloudSync.Enabled := CloudSync.Enabled status;
                      CloudSync.Connected := false;
                      CloudSync.LastSuccessUnix := CloudSync.LastSuccessUnix status;
                      CloudSync.LastVersion := CloudSync.LastVersion status;
                      CloudSync.LastCursor := CloudSync.LastCursor status;
                      CloudSync.LastError := CloudSync.Error err |}
     end.
Proof.
  cbv zeta. unfold CloudSync.InitialSync.
  destruct (handshake (CloudSync.cursor m)) as [s|e]; [|split; reflexivity].
  destruct (CloudSync.pullAndApply M decodeAccounts decodeConfigPayload remote draw _)
    as [m1 [e|]]; [split; reflexivity|].
  destruct (CloudSync.pushLocalSnapshot M decodeAccounts decodeConfigPayload remote draw
              accountsMeta configMeta m1) as [m2 [e|]]; split; reflexivity.
Qed.

(** X30. A round whose pull fails writes nothing to the server:
    [SyncOnce] returns the error of the pull, and the requests it sent are
    the list request and at most the delta request, no upsert and no
    resolve. *)
Theorem SyncOnce_failed_pull_writes_nothing
    {M : Type}
    (decodeAccounts : M -> CloudSync.result (list Accounts.AccountConfig))
    (decodeConfigPayload : M -> CloudSync.result CloudSync.SyncConfigPayload)
    (remote : CloudSync.Remote M) (draw : nat -> nat)
    (accountsMeta : list Accounts.AccountConfig -> M)
    (configMeta : CloudSync.SyncConfigPayload -> M)
    (m : CloudSync.SyncManager M) (e : CloudSync.error) :
  snd (CloudSync.pullAndApply M decodeAccounts decodeConfigPayload remote draw m) = Some e ->
  let res := CloudSync.SyncOnce M decodeAccounts decodeConfigPayload remote draw accountsMeta
               configMeta m in
  snd res = Some e
  /\ exists calls,
       CloudSync.sent (fst res) = CloudSync.sent m ++ calls
       /\ Forall (fun c => is_write c = false) calls.
Proof.
  intros He. cbv zeta. unfold CloudSync.SyncOnce.
  destruct (pullAndApply_sent decodeAccounts decodeConfigPayload remote draw m)
    as (more & Hsent & Hmore).
  destruct (CloudSync.pullAndApply M decodeAccounts decodeConfigPayload remote draw m)
    as [m1 [e'|]]; cbn [fst snd] in *; [|discriminate He].
  split; [exact He|]. eexists. split; [exact Hsent|].
  constructor; [reflexivity|].
  eapply Forall_impl; [exact Hmore|]. intros c ->. reflexivity.
Qed.

Lemma SyncOnce_failed_pull_writes_nothing_witness :
  let remote :=
    {| CloudSync.onListItems := fun _ => CloudSync.Err CloudSync.ErrUnauthorized;
       CloudSync.onDelta := CloudSync.onDelta scenario_remote;
       CloudSync.onUpsertItem := CloudSync.onUpsertItem scenario_remote;
       CloudSync.onResolveConflict := CloudSync.onResolveConflict scenario_remote |} in
  let res := CloudSync.SyncOnce string scenario_decodeAccounts scenario_decodeConfigPayload
               remote (fun _ => 0%nat) scenario_accountsMeta scenario_configMeta
               scenario_manager in
  snd res = Some CloudSync.ErrUnauthorized
  /\ exists calls,
       CloudSync.sent (fst res) = CloudSync.sent scenario_manager ++ calls
       /\ Forall (fun c => is_write c = false) calls.
Proof.
  intros remote.
  apply (SyncOnce_failed_pull_writes_nothing scenario_decodeAccounts
           scenario_decodeConfigPayload remote (fun _ => 0%nat) scenario_accountsMeta
           scenario_configMeta scenario_manager CloudSync.ErrUnauthorized).
  reflexivity.
Defined.
